(** * Key rotation proxy: request key context, key pool and upstream clients

    A shallow embedding of the rotation core of the proxy
    (keyRotator.js, openaiClient.js, geminiClient.js and the directive
    handling of server.js), with the properties of its specification.

    Conventions of the embedding.
    - JavaScript [null] is [None]; a value that may also be [undefined]
      is a [jskey].
    - A JavaScript [Set] is a [gset]; only [has], [add] and [size] are used
      by the code.
    - Header values arrive from Node's HTTP parser as latin1 text, one
      character per byte: they are [string]s.
    - Logging is left out: it reads the state and never changes it. *)

From Stdlib Require Import ZArith Lia List Ascii String.
From Stdlib Require Import DecimalFacts DecimalNat DecimalString.
From stdpp Require Import base decidable countable gmap sets list strings.

Local Open Scope Z_scope.
Local Open Scope nat_scope.

(** ** JavaScript values held by the key sets *)

(** What [apiKeys[i]] evaluates to: a string inside the array, [undefined]
    outside. *)
Inductive jskey : Type :=
  | Undefined
  | Str (s : string).

#[global] Instance jskey_eq_dec : EqDecision jskey.
Proof. solve_decision. Defined.

Definition jskey_to_option (k : jskey) : option string :=
  match k with Undefined => None | Str s => Some s end.

Definition jskey_of_option (o : option string) : jskey :=
  match o with None => Undefined | Some s => Str s end.

#[global] Instance jskey_countable : Countable jskey.
Proof.
  apply (inj_countable' jskey_to_option jskey_of_option).
  intros []; reflexivity.
Defined.

(** Truthiness of a string in [if (key)] and [key && ...]: the empty
    string is falsy, as [null] and [undefined] are. *)
Definition truthy_str (s : string) : bool :=
  match s with EmptyString => false | String _ _ => true end.

(** ** The random source *)

(** One call of [Math.random()]: a number [r] with [0 <= r < 1], kept as the
    exact fraction [num / (num + gap + 1)].  The rounding of the floating
    point product is not modelled. *)
Record draw : Type := Draw { num : nat; gap : nat }.

(** [Math.floor(r * n)] *)
Definition floor_mul (r : draw) (n : nat) : nat :=
  (num r * n) / (num r + gap r + 1).

(** The calls of [Math.random()] in the order they are made. *)
Definition random_source : Type := nat -> draw.

Module RequestKeyContext.

Record t : Type := Build {
  apiKeys : list string;
  currentIndex : nat;
  triedKeys : gset jskey;
  rateLimitedKeys : gset jskey;
  lastFailedKeyForThisRequest : option jskey
}.

(** [[shuffled[i], shuffled[j]] = [shuffled[j], shuffled[i]]]: both cells
    are read, then [i] and [j] are written.  The loop below only calls it
    with [j <= i < length]; outside the array nothing is swapped here. *)
Definition swap (shuffled : list string) (i j : nat) : list string :=
  match shuffled !! i, shuffled !! j with
  | Some x, Some y => <[j:=x]> (<[i:=y]> shuffled)
  | _, _ => shuffled
  end.

(** [for (let i = shuffled.length - 1; i > 0; i--)], entered with [i] and
    the number [calls] of random draws made so far. *)
Fixpoint fisherYates (rnd : random_source) (calls : nat) (i : nat)
    (shuffled : list string) : list string :=
  match i with
  | 0 => shuffled
  | S i' =>
      let j := floor_mul (rnd calls) (i + 1) in
      fisherYates rnd (S calls) i' (swap shuffled i j)
  end.

(** [shuffled.indexOf(key)]; [None] is -1. *)
Fixpoint indexOf (l : list string) (key : string) : option nat :=
  match l with
  | [] => None
  | x :: l' =>
      if decide (x = key) then Some 0 else S <$> indexOf l' key
  end.

(** [keys.includes(key)] *)
Definition includes (keys : list string) (key : string) : bool :=
  bool_decide (key ∈ keys).

Definition smartShuffle (rnd : random_source) (keys : list string)
    (lastFailedKey : option jskey) : list string :=
  let shuffled := fisherYates rnd 0 (length keys - 1) keys in
  match lastFailedKey with
  | Some (Str k) =>
      if truthy_str k && includes keys k then
        match indexOf shuffled k with
        | Some failedKeyIndex => delete failedKeyIndex shuffled ++ [k]
        | None => shuffled
        end
      else shuffled
  | _ => shuffled
  end.

Definition new (rnd : random_source) (apiKeys : list string)
    (lastFailedKey : option jskey) : t :=
  {| apiKeys := smartShuffle rnd apiKeys lastFailedKey;
     currentIndex := 0;
     triedKeys := ∅;
     rateLimitedKeys := ∅;
     lastFailedKeyForThisRequest := None |}.

(** [this.apiKeys[this.currentIndex]] *)
Definition keyAt (c : t) (i : nat) : jskey :=
  match apiKeys c !! i with
  | Some s => Str s
  | None => Undefined
  end.

(** [(currentIndex + 1) % apiKeys.length].  With an empty array JavaScript
    gives NaN; here the index stays outside the (empty) array, and a read
    at either is [undefined]. *)
Definition advance (c : t) : nat :=
  (currentIndex c + 1) mod length (apiKeys c).

(** The [while (attempts < this.apiKeys.length)] loop of [getNextKey],
    with [remaining = apiKeys.length - attempts]. *)
Fixpoint scan (remaining : nat) (c : t) : option jskey * t :=
  match remaining with
  | 0 => (None, c)
  | S remaining' =>
      let key := keyAt c (currentIndex c) in
      if decide (key ∈ triedKeys c) then
        scan remaining'
          {| apiKeys := apiKeys c;
             currentIndex := advance c;
             triedKeys := triedKeys c;
             rateLimitedKeys := rateLimitedKeys c;
             lastFailedKeyForThisRequest := lastFailedKeyForThisRequest c |}
      else
        (Some key,
         {| apiKeys := apiKeys c;
            currentIndex := currentIndex c;
            triedKeys := {[key]} ∪ triedKeys c;
            rateLimitedKeys := rateLimitedKeys c;
            lastFailedKeyForThisRequest := lastFailedKeyForThisRequest c |})
  end.

(** Returns the key ([None] is [null]) and the context after the call. *)
Definition getNextKey (c : t) : option jskey * t :=
  if decide (length (apiKeys c) ≤ size (triedKeys c)) then (None, c)
  else scan (length (apiKeys c)) c.

Definition markKeyAsRateLimited (key : jskey) (c : t) : t :=
  {| apiKeys := apiKeys c;
     currentIndex := advance c;
     triedKeys := triedKeys c;
     rateLimitedKeys := {[key]} ∪ rateLimitedKeys c;
     lastFailedKeyForThisRequest := Some key |}.

Definition getLastFailedKey (c : t) : option jskey :=
  lastFailedKeyForThisRequest c.

Definition allTriedKeysRateLimited (c : t) : bool :=
  bool_decide (0 < size (triedKeys c))
  && bool_decide (size (rateLimitedKeys c) = size (triedKeys c)).

Definition allKeysTried (c : t) : bool :=
  bool_decide (length (apiKeys c) ≤ size (triedKeys c)).

(** The same loop, one iteration at a time: the condition
    [attempts < this.apiKeys.length] is evaluated and, if it holds, the
    body is run; either the loop goes on ([inl]) or [getNextKey] returns
    ([inr]). *)
Definition iteration (attempts : nat) (c : t)
    : (nat * t) + (option jskey * t) :=
  if decide (attempts < length (apiKeys c)) then
    let key := keyAt c (currentIndex c) in
    if decide (key ∈ triedKeys c) then
      inl (S attempts,
           {| apiKeys := apiKeys c;
              currentIndex := advance c;
              triedKeys := triedKeys c;
              rateLimitedKeys := rateLimitedKeys c;
              lastFailedKeyForThisRequest := lastFailedKeyForThisRequest c |})
    else
      inr (Some key,
           {| apiKeys := apiKeys c;
              currentIndex := currentIndex c;
              triedKeys := {[key]} ∪ triedKeys c;
              rateLimitedKeys := rateLimitedKeys c;
              lastFailedKeyForThisRequest := lastFailedKeyForThisRequest c |})
  else inr (None, c).

(** At most [fuel] iterations; [None] if the loop has not returned by
    then. *)
Fixpoint iterate (fuel : nat) (attempts : nat) (c : t)
    : option (option jskey * t) :=
  match fuel with
  | 0 => None
  | S fuel' =>
      match iteration attempts c with
      | inl (attempts', c') => iterate fuel' attempts' c'
      | inr result => Some result
      end
  end.

(** The operations a client performs on its context, and a sequence of
    them run in order: what each [getNextKey] returned, and the context
    at the end. *)
Inductive operation : Type :=
  | GetNextKey
  | MarkKeyAsRateLimited (key : jskey).

Fixpoint perform (ops : list operation) (c : t)
    : list (option jskey) * t :=
  match ops with
  | [] => ([], c)
  | GetNextKey :: ops' =>
      let '(key, c') := getNextKey c in
      let '(keys, c'') := perform ops' c' in
      (key :: keys, c'')
  | MarkKeyAsRateLimited key :: ops' =>
      perform ops' (markKeyAsRateLimited key c)
  end.

(** The keys handed out, without the [null]s. *)
Definition served (results : list (option jskey)) : list jskey :=
  omap id results.

End RequestKeyContext.

Module KeyRotator.

Record t : Type := Build {
  apiKeys : list string;
  lastFailedKey : option jskey
}.

(** [constructor(apiKeys, apiType)] *)
Definition new (apiKeys : list string) : t :=
  {| apiKeys := apiKeys; lastFailedKey := None |}.

Definition createRequestContext (rnd : random_source) (r : t)
    : RequestKeyContext.t :=
  RequestKeyContext.new rnd (apiKeys r) (lastFailedKey r).

Definition updateLastFailedKey (failedKey : option jskey) (r : t) : t :=
  {| apiKeys := apiKeys r; lastFailedKey := failedKey |}.

Definition getTotalKeysCount (r : t) : nat := length (apiKeys r).

End KeyRotator.

(** ** JavaScript string operations used by the directive parser *)

Module JS.

Definition code (c : ascii) : nat := nat_of_ascii c.

(** White space and line terminators of [String.prototype.trim] and of
    [parseInt] that fit in one byte: TAB, LF, VT, FF, CR, SP, NBSP. *)
Definition isWhiteSpace (c : ascii) : bool :=
  bool_decide (code c ∈ [9; 10; 11; 12; 13; 32; 160]).

Fixpoint trimStart (s : string) : string :=
  match s with
  | EmptyString => EmptyString
  | String c s' => if isWhiteSpace c then trimStart s' else s
  end.

Fixpoint trimEnd (s : string) : string :=
  match s with
  | EmptyString => EmptyString
  | String c s' =>
      match trimEnd s' with
      | EmptyString => if isWhiteSpace c then EmptyString else String c EmptyString
      | t => String c t
      end
  end.

Definition trim (s : string) : string := trimEnd (trimStart s).

(** Case folding of the [i] flag: a letter a-z is compared as A-Z; a
    character outside ASCII never folds onto an ASCII one. *)
Definition fold_case (c : ascii) : ascii :=
  if bool_decide (97 ≤ code c ≤ 122) then ascii_of_nat (code c - 32) else c.

(** [s.includes(c)] for a one-character needle *)
Fixpoint includes (s : string) (c : ascii) : bool :=
  match s with
  | EmptyString => false
  | String d s' => bool_decide (d = c) || includes s' c
  end.

(** [s.split(c)] for a one-character separator: never the empty array. *)
Fixpoint split (c : ascii) (s : string) : list string :=
  match s with
  | EmptyString => [EmptyString]
  | String d s' =>
      if bool_decide (d = c) then EmptyString :: split c s'
      else match split c s' with
           | [] => [String d EmptyString]
           | piece :: pieces => String d piece :: pieces
           end
  end.

(** [s.slice(0, -n)] *)
Definition dropEnd (n : nat) (s : string) : string :=
  substring 0 (String.length s - n) s.

(** [s.endsWith(suffix)] *)
Definition endsWith (s suffix : string) : bool :=
  bool_decide (String.length suffix ≤ String.length s)
  && bool_decide
       (substring (String.length s - String.length suffix)
                  (String.length suffix) s = suffix).

(** Value of a digit in the given radix, if it is one. *)
Definition digit (radix : nat) (c : ascii) : option nat :=
  let n := code c in
  let v :=
    if bool_decide (48 ≤ n ≤ 57) then Some (n - 48)
    else if bool_decide (97 ≤ n ≤ 122) then Some (n - 87)
    else if bool_decide (65 ≤ n ≤ 90) then Some (n - 55)
    else None in
  match v with
  | Some d => if bool_decide (d < radix) then Some d else None
  | None => None
  end.

(** The longest prefix of digits, read left to right; [acc] is [None]
    until a digit has been seen. *)
Fixpoint digits (radix : nat) (acc : option N) (s : string) : option N :=
  match s with
  | EmptyString => acc
  | String c s' =>
      match digit radix c with
      | Some d =>
          digits radix
            (Some (N.of_nat radix * default 0%N acc + N.of_nat d)%N) s'
      | None => acc
      end
  end.

(** [parseInt(s)] without a radix; [None] is NaN.  Exact on integers,
    where the JavaScript result is the nearest double. *)
Definition parseInt (s : string) : option Z :=
  let s1 := trimStart s in
  let '(negative, s2) :=
    match s1 with
    | String "-" r => (true, r)
    | String "+" r => (false, r)
    | _ => (false, s1)
    end in
  let '(radix, s3) :=
    match s2 with
    | String "0" (String "x" r) => (16, r)
    | String "0" (String "X" r) => (16, r)
    | _ => (10, s2)
    end in
  match digits radix None s3 with
  | None => None
  | Some n => Some (if negative : bool then - Z.of_N n else Z.of_N n)%Z
  end.

End JS.

(** ** Bracketed directives of the auth header *)

Module Directive.

(** The literal text that opens the directive [kw]. *)
Definition opener (kw : string) : string := "[" +:+ kw +:+ ":".

(** Match the literal [lit] at the start of [s], ignoring case; the rest
    of [s] on success. *)
Fixpoint literal (lit s : string) : option string :=
  match lit, s with
  | EmptyString, _ => Some s
  | String p lit', String c s' =>
      if bool_decide (JS.fold_case p = JS.fold_case c) then literal lit' s'
      else None
  | String _ _, EmptyString => None
  end.

(** [[^\]]*\]] at the start of [s]: the characters before the first
    closing bracket, and what follows it. *)
Fixpoint untilClose (s : string) : option (string * string) :=
  match s with
  | EmptyString => None
  | String c s' =>
      if bool_decide (c = "]"%char) then Some (EmptyString, s')
      else match untilClose s' with
           | Some (v, rest) => Some (String c v, rest)
           | None => None
           end
  end.

(** [/\[kw:([^\]]+)\]/i] anchored at the start of [s]: the captured
    group and the text after the match. *)
Definition matchAt (kw s : string) : option (string * string) :=
  match literal (opener kw) s with
  | None => None
  | Some t =>
      match untilClose t with
      | Some (String c v, rest) => Some (String c v, rest)
      | _ => None
      end
  end.

(** [s.match(/\[kw:([^\]]+)\]/i)]: group 1 of the leftmost match. *)
Fixpoint find (kw s : string) : option string :=
  match matchAt kw s with
  | Some (v, _) => Some v
  | None =>
      match s with
      | EmptyString => None
      | String _ s' => find kw s'
      end
  end.

(** [s.replace(/\[kw:[^\]]+\]/gi, '')]: one pass from the left; [skip]
    counts the characters of the current match still to be dropped. *)
Fixpoint removeFrom (kw : string) (skip : nat) (s : string) : string :=
  match s with
  | EmptyString => EmptyString
  | String c s' =>
      match skip with
      | S k => removeFrom kw k s'
      | 0 =>
          match matchAt kw s with
          | Some (v, _) =>
              removeFrom kw
                (String.length (opener kw) + String.length v) s'
          | None => String c (removeFrom kw 0 s')
          end
      end
  end.

Definition removeAll (kw s : string) : string := removeFrom kw 0 s.

End Directive.

(** ** Upstream attempts *)

Record Response : Type := {
  statusCode : Z;
  headers : list (string * string);
  data : string
}.

(** A JavaScript [Error], by its message. *)
Record Error : Type := { message : string }.

(** The arguments of one [sendRequest] call.  [useHeader] is the sixth
    argument of the Gemini client; the OpenAI client has none and leaves it
    [false]. *)
Record call : Type := SendRequest {
  sentMethod : string;
  sentPath : string;
  sentBody : option string;
  sentHeaders : gmap string string;
  sentKey : jskey;
  useHeader : bool
}.

(** How the promise of [sendRequest] settles. *)
Inductive attempt : Type :=
  | Resolved (response : Response)
  | Rejected (error : Error).

(** The upstream, seen from [makeRequest]: what the n-th [sendRequest] of
    a request settles to. *)
Definition network : Type := nat -> call -> attempt.

(** How [makeRequest] completes. *)
Inductive completion : Type :=
  | Return (response : Response)
  | Throw (error : Error).

(** A finished [makeRequest]: its completion, the key pool as it leaves it,
    the [sendRequest] calls it made, in order, and the request context as it
    is at that moment ([None] when none was created). *)
Record run : Type := {
  outcome : completion;
  keyRotator : KeyRotator.t;
  attempts : list call;
  context : option RequestKeyContext.t
}.

(** The double quote character, and [JSON.stringify] of a string without
    characters to escape. *)
Definition dquote : string := String (ascii_of_nat 34) EmptyString.
Definition quoted (s : string) : string := dquote +:+ s +:+ dquote.

(** The rotation loop; its text is the same in both clients up to the log
    tag and the synthetic response. *)
Module Rotation.
Section loop.
Variable send : network.
Variables (method path : string) (body : option string).
Variable headers : gmap string string.
Variable rotationStatusCodes : gset Z.
Variable synthetic : Response.

Definition request (apiKey : jskey) : call :=
  SendRequest method path body headers apiKey false.

(** The code after the [while] loop. *)
Definition exhausted (requestContext : RequestKeyContext.t)
    (lastError : option Error) (lastResponse : option Response)
    (made : list call) (rotator : KeyRotator.t) : run :=
  let lastFailedKey := RequestKeyContext.getLastFailedKey requestContext in
  let rotator' := KeyRotator.updateLastFailedKey lastFailedKey rotator in
  if RequestKeyContext.allTriedKeysRateLimited requestContext then
    {| outcome := Return (default synthetic lastResponse);
       keyRotator := rotator'; attempts := made;
       context := Some requestContext |}
  else
    match lastError with
    | Some error =>
        {| outcome := Throw error;
           keyRotator := rotator'; attempts := made;
           context := Some requestContext |}
    | None =>
        {| outcome :=
             Throw {| message := "All API keys exhausted without clear error" |};
           keyRotator := rotator'; attempts := made;
           context := Some requestContext |}
    end.

(** [while ((apiKey = requestContext.getNextKey()) !== null)]; one unit
    of [fuel] per evaluation of the loop condition. *)
Fixpoint loop (fuel : nat) (requestContext : RequestKeyContext.t)
    (lastError : option Error) (lastResponse : option Response)
    (made : list call) (rotator : KeyRotator.t) : option run :=
  match fuel with
  | 0 => None
  | S fuel' =>
      match RequestKeyContext.getNextKey requestContext with
      | (None, requestContext') =>
          Some (exhausted requestContext' lastError lastResponse made rotator)
      | (Some apiKey, requestContext') =>
          let made' := made ++ [request apiKey] in
          match send (length made) (request apiKey) with
          | Resolved response =>
              if decide (statusCode response ∈ rotationStatusCodes) then
                loop fuel'
                  (RequestKeyContext.markKeyAsRateLimited apiKey requestContext')
                  lastError (Some response) made' rotator
              else
                Some {| outcome := Return response;
                        keyRotator := rotator; attempts := made';
                        context := Some requestContext' |}
          | Rejected error =>
              loop fuel' requestContext' (Some error) lastResponse
                made' rotator
          end
      end
  end.

(** The rotation path of [makeRequest].  The loop condition is
    evaluated at most once per key and once more to leave. *)
Definition rotate (rnd : random_source) (rotator : KeyRotator.t)
    : option run :=
  let requestContext := KeyRotator.createRequestContext rnd rotator in
  loop (S (length (RequestKeyContext.apiKeys requestContext)))
    requestContext None None [] rotator.
End loop.

(** [customStatusCodes || new Set([429])]: any [Set] is truthy. *)
Definition rotationCodes (customStatusCodes : option (gset Z)) : gset Z :=
  default {[ 429%Z ]} customStatusCodes.
End Rotation.

Module OpenAIClient.

Definition syntheticBody : string :=
  "{" +:+ quoted "error" +:+ ":{"
  +:+ quoted "message" +:+ ":"
  +:+ quoted "All OpenAI API keys have been rate limited for this request"
  +:+ "," +:+ quoted "type" +:+ ":" +:+ quoted "rate_limit_exceeded"
  +:+ "," +:+ quoted "code" +:+ ":" +:+ quoted "rate_limit_exceeded"
  +:+ "}}".

Definition synthetic : Response :=
  {| statusCode := 429;
     headers := [("content-type", "application/json")];
     data := syntheticBody |}.

Definition makeRequest (send : network) (rnd : random_source)
    (rotator : KeyRotator.t) (method path : string) (body : option string)
    (headers : gmap string string) (customStatusCodes : option (gset Z))
    : option run :=
  Rotation.rotate send method path body headers
    (Rotation.rotationCodes customStatusCodes) synthetic rnd rotator.

End OpenAIClient.

Module GeminiClient.

Definition syntheticBody : string :=
  "{" +:+ quoted "error" +:+ ":{"
  +:+ quoted "code" +:+ ":429"
  +:+ "," +:+ quoted "message" +:+ ":"
  +:+ quoted "All API keys have been rate limited for this request"
  +:+ "," +:+ quoted "status" +:+ ":" +:+ quoted "RESOURCE_EXHAUSTED"
  +:+ "}}".

Definition synthetic : Response :=
  {| statusCode := 429;
     headers := [("content-type", "application/json")];
     data := syntheticBody |}.

(** The single attempt made with a key the client supplied. *)
Definition bypass (send : network) (rotator : KeyRotator.t)
    (method path : string) (body : option string)
    (headers : gmap string string) (providedApiKey : string) : run :=
  let cleanHeaders := delete "x-goog-api-key" headers in
  let request :=
    SendRequest method path body cleanHeaders (Str providedApiKey) true in
  match send 0 request with
  | Resolved response =>
      {| outcome := Return response; keyRotator := rotator;
         attempts := [request]; context := None |}
  | Rejected error =>
      {| outcome := Throw error; keyRotator := rotator;
         attempts := [request]; context := None |}
  end.

Definition makeRequest (send : network) (rnd : random_source)
    (rotator : KeyRotator.t) (method path : string) (body : option string)
    (headers : gmap string string) (customStatusCodes : option (gset Z))
    : option run :=
  match headers !! "x-goog-api-key" with
  | Some (String c k) => (* a truthy, that is non-empty, header value *)
      Some (bypass send rotator method path body headers (String c k))
  | _ =>
      Rotation.rotate send method path body headers
        (Rotation.rotationCodes customStatusCodes) synthetic rnd rotator
  end.

End GeminiClient.

(** ** The dispatcher (server.js) *)

Module ProxyServer.

(** [for (let i = first; i <= last; i++) codes.add(i)] *)
Definition addRange (first last : Z) (codes : gset Z) : gset Z :=
  list_to_set (seqZ first (last - first + 1)) ∪ codes.

(** A-Z to a-z, as [toLowerCase] acts on header names. *)
Definition lower (c : ascii) : ascii :=
  if bool_decide (65 ≤ JS.code c ≤ 90) then ascii_of_nat (JS.code c + 32)
  else c.

Fixpoint toLowerCase (s : string) : string :=
  match s with
  | EmptyString => EmptyString
  | String c s' => String (lower c) (toLowerCase s')
  end.

(** The body of [for (const part of parts)]. *)
Definition addPart (codes : gset Z) (part : string) : gset Z :=
  if JS.includes part "-" then
    match (λ n, JS.parseInt (JS.trim n)) <$> JS.split "-" part with
    | Some first :: Some last :: _ => addRange first last codes
    | _ => codes
    end
  else if JS.endsWith part "=+" then
    match JS.parseInt (JS.trim (JS.dropEnd 2 part)) with
    | Some base => addRange base 599 codes
    | None => codes
    end
  else if JS.endsWith part "+" then
    match JS.parseInt (JS.trim (JS.dropEnd 1 part)) with
    | Some base => addRange (base + 1) 599 codes
    | None => codes
    end
  else
    match JS.parseInt (JS.trim part) with
    | Some code => {[ code ]} ∪ codes
    | None => codes
    end.

(** [authHeader] is [None] when the request has no such header. *)
Definition parseStatusCodesFromAuth (authHeader : option string)
    : option (gset Z) :=
  match authHeader ≫= Directive.find "STATUS_CODES" with
  | None => None
  | Some statusCodeStr =>
      let parts := JS.trim <$> JS.split "," statusCodeStr in
      let codes := foldl addPart ∅ parts in
      if decide (0 < size codes) then Some codes else None
  end.

Definition parseAccessKeyFromAuth (authHeader : option string)
    : option string :=
  JS.trim <$> (authHeader ≫= Directive.find "ACCESS_KEY").

(** [None] stands for [null] and for [undefined]; each is returned as it
    is, and so is the empty string. *)
Definition cleanAuthHeader (authHeader : option string) : option string :=
  match authHeader with
  | None => None
  | Some EmptyString => Some EmptyString
  | Some h =>
      let cleaned :=
        JS.trim
          (Directive.removeAll "ACCESS_KEY"
             (Directive.removeAll "STATUS_CODES" h)) in
      if bool_decide (cleaned = "Bearer") || bool_decide (cleaned = "Bearer ")
      then None
      else Some cleaned
  end.

(** A provider record of the configuration. *)
Record Provider : Type := {
  apiType : string;
  keys : list string;
  baseUrl : string;
  accessKey : option string
}.

Definition validateAccessKey (config : gmap string Provider)
    (provider : string) (authHeader : option string) : bool :=
  match config !! provider ≫= accessKey with
  | None | Some EmptyString => true
  | Some required =>
      match parseAccessKeyFromAuth authHeader with
      | None | Some EmptyString => false
      | Some providedAccessKey => bool_decide (providedAccessKey = required)
      end
  end.

Definition geminiHeaders : list string :=
  ["content-type"; "accept"; "user-agent"; "x-goog-user-project"].

Definition openaiHeaders : list string :=
  ["content-type"; "accept"; "user-agent"; "openai-organization";
   "openai-project"].

(** For another [apiType] the list is [undefined], and the first header
    visited throws a [TypeError]. *)
Definition extractRelevantHeaders (headers : gmap string string)
    (apiType : string) : Error + gmap string string :=
  let keep (headersToInclude : list string) :=
    filter (λ kv, toLowerCase kv.1 ∈ headersToInclude) headers in
  if decide (apiType = "gemini") then inr (keep geminiHeaders)
  else if decide (apiType = "openai") then inr (keep openaiHeaders)
  else if decide (headers = ∅) then inr ∅
  else inl {| message :=
                "Cannot read properties of undefined (reading 'includes')" |}.

(** Lines 170-182 of [handleRequest]: the headers handed to the client. *)
Definition forwardedHeaders (reqHeaders : gmap string string)
    (apiType : string) (authHeader : option string)
    : Error + gmap string string :=
  match extractRelevantHeaders reqHeaders apiType with
  | inl e => inl e
  | inr headers =>
      match authHeader with
      | Some (String c h) =>
          match cleanAuthHeader (Some (String c h)) with
          | Some (String d cleanedAuth) =>
              if decide (apiType = "gemini")
              then inr (<["x-goog-api-key" := String d cleanedAuth]> headers)
              else inr (<["authorization" := String d cleanedAuth]> headers)
          | _ => inr headers
          end
      | _ => inr headers
      end
  end.

(** An upstream client object: its class, and the key pool it holds. *)
Inductive flavor : Type := Gemini | OpenAI.

Record Client : Type := {
  kind : flavor;
  rotator : KeyRotator.t;
  clientBaseUrl : string
}.

Record t : Type := {
  config : gmap string Provider;
  geminiClient : option Client;
  openaiClient : option Client;
  providerClients : gmap string Client
}.

(** Where the client object handed out by [getProviderClient] lives. *)
Inductive place : Type :=
  | LegacyGemini
  | LegacyOpenai
  | Cached (providerName : string).

Definition getProviderClient (server : t) (providerName : string)
    (provider : option Provider) (legacy : bool)
    : option (place * Client) * t :=
  if legacy then
    match (if decide (providerName = "gemini") then geminiClient server
           else None) with
    | Some client => (Some (LegacyGemini, client), server)
    | None =>
        match (if decide (providerName = "openai") then openaiClient server
               else None) with
        | Some client => (Some (LegacyOpenai, client), server)
        | None => (None, server)
        end
    end
  else
    match providerClients server !! providerName with
    | Some client => (Some (Cached providerName, client), server)
    | None =>
        match provider with
        | None => (None, server)
        | Some p =>
            let create (k : flavor) :=
              let client :=
                {| kind := k; rotator := KeyRotator.new (keys p);
                   clientBaseUrl := baseUrl p |} in
              (Some (Cached providerName, client),
               {| config := config server;
                  geminiClient := geminiClient server;
                  openaiClient := openaiClient server;
                  providerClients :=
                    <[providerName := client]> (providerClients server) |}) in
            if decide (apiType p = "openai") then create OpenAI
            else if decide (apiType p = "gemini") then create Gemini
            else (None, server)
        end
    end.

(** The client object is shared: what [makeRequest] does to its key pool
    is seen by the next request that is handed the same client. *)
Definition writeBack (slot : place) (client : Client) (server : t) : t :=
  match slot with
  | LegacyGemini =>
      {| config := config server; geminiClient := Some client;
         openaiClient := openaiClient server;
         providerClients := providerClients server |}
  | LegacyOpenai =>
      {| config := config server; geminiClient := geminiClient server;
         openaiClient := Some client;
         providerClients := providerClients server |}
  | Cached providerName =>
      {| config := config server; geminiClient := geminiClient server;
         openaiClient := openaiClient server;
         providerClients :=
           <[providerName := client]> (providerClients server) |}
  end.

Definition makeRequest (client : Client) (send : network)
    (rnd : random_source) (method path : string) (body : option string)
    (headers : gmap string string) (customStatusCodes : option (gset Z))
    : option run :=
  match kind client with
  | Gemini =>
      GeminiClient.makeRequest send rnd (rotator client) method path body
        headers customStatusCodes
  | OpenAI =>
      OpenAIClient.makeRequest send rnd (rotator client) method path body
        headers customStatusCodes
  end.

(** What [parseRoute] returns for a proxied URL. *)
Record Route : Type := {
  providerName : string;
  routeApiType : string;
  routePath : string;
  provider : option Provider;
  legacy : bool
}.

(** What is written to the client: [sendResponse] or [sendError]. *)
Inductive reply : Type :=
  | SendResponse (response : Response)
  | SendError (statusCode : Z) (message : string).

(** The [status] field of the error envelope of [sendError]. *)
Definition envelopeStatus (statusCode : Z) : string :=
  if decide (statusCode = 400%Z) then "INVALID_ARGUMENT" else "INTERNAL".

(** [handleRequest] from the resolved route on (lines 141-226): the reply,
    the server afterwards and the upstream calls made.  [None] only if
    the rotation loop ran out of fuel. *)
Definition handleRoute (send : network) (rnd : random_source) (server : t)
    (reqMethod : string) (reqHeaders : gmap string string)
    (body : option string) (routeInfo : Route)
    : option (reply * t * list call) :=
  let apiType := routeApiType routeInfo in
  let authHeader :=
    if decide (apiType = "gemini") then reqHeaders !! "x-goog-api-key"
    else reqHeaders !! "authorization" in
  let customStatusCodes := parseStatusCodesFromAuth authHeader in
  if negb (validateAccessKey (config server) (providerName routeInfo) authHeader)
  then
    Some (SendError 401
            ("Invalid or missing ACCESS_KEY for provider '"
             +:+ providerName routeInfo +:+ "'"),
          server, [])
  else
    match forwardedHeaders reqHeaders apiType authHeader with
    | inl _ => Some (SendError 500 "Internal server error", server, [])
    | inr headers =>
        match getProviderClient server (providerName routeInfo)
                (provider routeInfo) (legacy routeInfo) with
        | (None, server') =>
            Some (SendError 503
                    ("Provider '" +:+ providerName routeInfo
                     +:+ "' not configured"),
                  server', [])
        | (Some (slot, client), server') =>
            match makeRequest client send rnd reqMethod
                    (routePath routeInfo) body headers customStatusCodes with
            | None => None
            | Some r =>
                let server'' :=
                  writeBack slot
                    {| kind := kind client; rotator := keyRotator r;
                       clientBaseUrl := clientBaseUrl client |} server' in
                match outcome r with
                | Return response =>
                    Some (SendResponse response, server'', attempts r)
                | Throw _ =>
                    Some (SendError 500 "Internal server error",
                          server'', attempts r)
                end
            end
        end
    end.

End ProxyServer.

(** * Notions used by the statements *)

Module Notions.
Import RequestKeyContext.

(** The random source whose every draw is 0. *)
Definition zeros : random_source := λ _, Draw 0 0.

(** The random source whose every draw is 1/2. *)
Definition halves : random_source := λ _, Draw 1 0.

(** The index read by the [i]-th iteration of the loop of [getNextKey]
    that started at index [ci]. *)
Fixpoint probe (len ci i : nat) : nat :=
  match i with
  | 0 => ci
  | S i' => probe len ((ci + 1) mod len) i'
  end.

(** What holds of every context a request can reach. *)
Record invariant (c : t) : Prop := {
  tried_in_pool :
    ∀ key, key ∈ triedKeys c → ∃ s, key = Str s ∧ s ∈ apiKeys c;
  index_in_range :
    apiKeys c ≠ [] → currentIndex c < length (apiKeys c)
}.

(** C2 as the specification states it, for one pool and one hint. *)
Definition smartShuffle_as_specified (rnd : random_source)
    (keys : list string) (hint : option jskey) : Prop :=
  smartShuffle rnd keys hint ≡ₚ keys
  ∧ length (smartShuffle rnd keys hint) = length keys
  ∧ (∀ k, hint = Some (Str k) → k ∈ keys →
          smartShuffle rnd keys hint !! (length keys - 1) = Some k)
  ∧ NoDup (smartShuffle rnd keys hint).

(** "The last recorded rotation-triggering upstream response": among the
    responses to the calls [made], numbered from [n], the last one whose
    status is a rotation code; [acc] if there is none. *)
Fixpoint recordedFrom (send : network) (rotationStatusCodes : gset Z)
    (n : nat) (made : list call) (acc : option Response) : option Response :=
  match made with
  | [] => acc
  | c :: made' =>
      recordedFrom send rotationStatusCodes (S n) made'
        match send n c with
        | Resolved response =>
            if decide (statusCode response ∈ rotationStatusCodes)
            then Some response else acc
        | Rejected _ => acc
        end
  end.

Definition recorded (send : network) (rotationStatusCodes : gset Z)
    (made : list call) : option Response :=
  recordedFrom send rotationStatusCodes 0 made None.

(** What the rotation loop keeps true between two iterations. *)
Record between (send : network) (rotationStatusCodes : gset Z)
    (c : RequestKeyContext.t) (lastResponse : option Response)
    (made : list call) : Prop := {
  between_context : invariant c;
  between_limited : rateLimitedKeys c ⊆ triedKeys c;
  between_recorded : lastResponse = recorded send rotationStatusCodes made
}.

(** The rotation path of the Gemini client: no truthy [x-goog-api-key]
    among the headers handed to [makeRequest]. *)
Definition rotationPath (headers : gmap string string) : Prop :=
  match headers !! "x-goog-api-key" with
  | Some (String _ _) => False
  | _ => True
  end.

End Notions.

Module RotationNotions.
Import RequestKeyContext Notions.

(** An upstream answer with the given status and body. *)
Definition answer (status : Z) (text : string) : Response :=
  {| statusCode := status; headers := []; data := text |}.

(** An upstream that answers every attempt with 429. *)
Definition alwaysLimited : network :=
  λ n _, Resolved (answer 429 (if n is 0 then "first" else "second")).

(** The pool of scenario 1: three keys, the second one hinted. *)
Definition hinted : KeyRotator.t :=
  {| KeyRotator.apiKeys := ["K1"; "K2"; "K3"];
     KeyRotator.lastFailedKey := Some (Str "K2") |}.

(** C3 for one finished request. *)
Definition returnsAsSpecified (rotationStatusCodes : gset Z)
    (result : option run) : Prop :=
  ∃ r cf,
    result = Some r ∧ context r = Some cf
    ∧ ∀ response,
        outcome r = Return response →
        statusCode response ∉ rotationStatusCodes
        ∨ allTriedKeysRateLimited cf = true.

(** The first half of C4 for one finished request. *)
Definition exhaustsAsSpecified (send : network)
    (rotationStatusCodes : gset Z) (synthetic : Response)
    (rotator : KeyRotator.t) (result : option run) : Prop :=
  ∃ r cf,
    result = Some r ∧ context r = Some cf
    ∧ (allTriedKeysRateLimited cf = true →
       (getNextKey cf).1 = None
       ∧ outcome r
         = Return (default synthetic
                     (recorded send rotationStatusCodes (attempts r)))
       ∧ keyRotator r
         = KeyRotator.updateLastFailedKey (getLastFailedKey cf) rotator).

(** The second half of C4: two attempts, the second answer returned, the
    second key remembered. *)
Definition bothLimited (send : network) (result : option run) : Prop :=
  ∃ r first second response,
    result = Some r
    ∧ attempts r = [first; second]
    ∧ sentKey first ≠ sentKey second
    ∧ send 1 second = Resolved response
    ∧ outcome r = Return response
    ∧ KeyRotator.lastFailedKey (keyRotator r) = Some (sentKey second).

(** What the code does in scenario 1. *)
Definition keepsHint (text : string) (result : option run) : Prop :=
  ∃ r first,
    result = Some r
    ∧ outcome r = Return (answer 200 text)
    ∧ attempts r = [first]
    ∧ sentKey first ≠ Str "K2"
    ∧ KeyRotator.lastFailedKey (keyRotator r) = Some (Str "K2").

End RotationNotions.

Module DispatchNotions.
Import ProxyServer.






End DispatchNotions.

Module HeaderNotions.
Import ProxyServer.

(** C9 for one header: cleaning twice is cleaning once. *)
Definition cleansOnce (authHeader : option string) : Prop :=
  cleanAuthHeader (cleanAuthHeader authHeader) = cleanAuthHeader authHeader.

(** No text of the header matches either directive pattern. *)
Definition directiveFree (authHeader : option string) : Prop :=
  match authHeader with
  | None => True
  | Some s =>
      Directive.find "STATUS_CODES" s = None
      ∧ Directive.find "ACCESS_KEY" s = None
  end.

End HeaderNotions.

Module SegmentNotions.
Import ProxyServer HeaderNotions.

(** The two directives. *)
Inductive tag : Type := StatusCodes | AccessKey.

Definition keyword (k : tag) : string :=
  match k with
  | StatusCodes => "STATUS_CODES"
  | AccessKey => "ACCESS_KEY"
  end.

(** A string with every letter folded as the [i] flag folds it. *)
Fixpoint foldString (s : string) : string :=
  match s with
  | EmptyString => EmptyString
  | String c s' => String (JS.fold_case c) (foldString s')
  end.

(** A header written as the documentation shows it: plain text and
    complete directives, one after the other. *)
Inductive segment : Type :=
  | Text (s : string)
  | Bracketed (k : tag) (spelling value : string).

(** Plain text holds no opening bracket; a directive spells its keyword
    in any letter case and has a non-empty value without brackets. *)
Definition wellFormed (seg : segment) : Prop :=
  match seg with
  | Text s => JS.includes s "[" = false
  | Bracketed k spelling value =>
      foldString spelling = keyword k
      ∧ value ≠ EmptyString
      ∧ JS.includes value "[" = false
      ∧ JS.includes value "]" = false
  end.

Definition isText (seg : segment) : bool :=
  match seg with Text _ => true | Bracketed _ _ _ => false end.

Definition isTag (k : tag) (seg : segment) : bool :=
  match seg, k with
  | Bracketed StatusCodes _ _, StatusCodes => true
  | Bracketed AccessKey _ _, AccessKey => true
  | _, _ => false
  end.

Fixpoint render (segs : list segment) : string :=
  match segs with
  | [] => EmptyString
  | Text s :: segs' => s +:+ render segs'
  | Bracketed _ spelling value :: segs' =>
      "[" +:+ spelling +:+ ":" +:+ value +:+ "]" +:+ render segs'
  end.

(** The text of a directive. *)
Definition bracketed (spelling value : string) : string :=
  String "[" (spelling +:+ ":") +:+ value +:+ "]".

(** The header without its directives. *)
Definition plainText (segs : list segment) : string :=
  render (List.filter isText segs).

(** The name under which the auth header travels, per flavor. *)
Definition authName (apiType : string) : string :=
  if decide (apiType = "gemini") then "x-goog-api-key" else "authorization".

(** C8 for one header of one flavor, the request carrying no other
    header: no directive is left, and the cleaned header is forwarded
    under the flavor's name unless it was dropped. *)
Definition forwardsAsSpecified (apiType : string) (authHeader : string)
    : Prop :=
  directiveFree (cleanAuthHeader (Some authHeader))
  ∧ forwardedHeaders ∅ apiType (Some authHeader)
    = inr match cleanAuthHeader (Some authHeader) with
          | Some cleaned => {[ authName apiType := cleaned ]}
          | None => ∅
          end.

End SegmentNotions.

Module TermNotions.
Import ProxyServer.



(** A term made of ASCII letters only. *)
Definition isLetter (c : ascii) : bool :=
  bool_decide (65 ≤ JS.code c ≤ 90) || bool_decide (97 ≤ JS.code c ≤ 122).




End TermNotions.

(** * Tactics *)

(** Reduce the projections of an explicit context, and nothing else. *)
Ltac context_simpl :=
  cbn [RequestKeyContext.apiKeys RequestKeyContext.currentIndex
       RequestKeyContext.triedKeys RequestKeyContext.rateLimitedKeys
       RequestKeyContext.lastFailedKeyForThisRequest
       RequestKeyContext.markKeyAsRateLimited RequestKeyContext.advance
       length lookup list_lookup].

(** ** Statistics and masking (keyRotator.js) *)

(** [maskApiKey], the same text in every class: a falsy key or one shorter
    than eight characters is hidden whole; otherwise the first four and
    the last four characters are shown. *)
Definition maskApiKey (key : jskey) : string :=
  match key with
  | Undefined => "***"
  | Str s =>
      if bool_decide (String.length s < 8) then "***"
      else substring 0 4 s +:+ "..." +:+ substring (String.length s - 4) 4 s
  end.

Module Stats.

(** The object returned by [getStats]. *)
Record t : Type := {
  totalKeys : nat;
  triedKeys : nat;
  rateLimitedKeys : nat;
  hasUntriedKeys : bool
}.

Definition getStats (c : RequestKeyContext.t) : t :=
  {| totalKeys := length (RequestKeyContext.apiKeys c);
     triedKeys := size (RequestKeyContext.triedKeys c);
     rateLimitedKeys := size (RequestKeyContext.rateLimitedKeys c);
     hasUntriedKeys :=
       bool_decide (size (RequestKeyContext.triedKeys c)
                    < length (RequestKeyContext.apiKeys c)) |}.

End Stats.

(** ** What [sendRequest] puts on the wire *)

Module Wire.

(** [s.startsWith(prefix)] *)
Definition startsWith (s prefix : string) : bool :=
  bool_decide (substring 0 (String.length prefix) s = prefix).

(** [s.substring(n)] *)
Definition from (n : nat) (s : string) : string :=
  substring n (String.length s - n) s.

(** The key inside a template literal. *)
Definition show (key : jskey) : string :=
  match key with
  | Undefined => "undefined"
  | Str s => s
  end.

(** Lines 84-91 of openaiClient.js: the URL handed to [new URL]. *)
Definition openaiUrl (baseUrl path : string) : string :=
  if bool_decide (path = EmptyString) || bool_decide (path = "/") then baseUrl
  else if startsWith path "/" then
    if JS.endsWith baseUrl "/" then baseUrl +:+ from 1 path
    else baseUrl +:+ path
  else
    if JS.endsWith baseUrl "/" then baseUrl +:+ path
    else baseUrl +:+ "/" +:+ path.

(** Lines 96-104 of openaiClient.js: [finalHeaders] before the
    [Content-Length] is added.  The spread copies [headers] over the
    default content type. *)
Definition openaiHeaders (headers : gmap string string) (apiKey : jskey)
    : gmap string string :=
  let finalHeaders := headers ∪ {[ "Content-Type" := "application/json" ]} in
  match headers !! "authorization" with
  | Some (String _ _) => finalHeaders
  | _ => <[ "Authorization" := "Bearer " +:+ show apiKey ]> finalHeaders
  end.

End Wire.

(** ** The configuration (config.js)

    The text of the .env file is the JavaScript string read from it, its
    characters being those up to U+00FF.  An object used as a map
    ([envVars]) is a [gmap]; the order in which [Object.entries] lists it
    is a parameter of what iterates over it. *)

Module Text.

(** [s.indexOf(c)] for a one-character needle; [None] is -1. *)
Fixpoint indexOf (c : ascii) (s : string) : option nat :=
  match s with
  | EmptyString => None
  | String d s' => if bool_decide (d = c) then Some 0 else S <$> indexOf c s'
  end.

(** [s.replace(needle, '')] for a string needle: the first occurrence is
    taken out. *)
Fixpoint removeFirst (needle s : string) : string :=
  if Wire.startsWith s needle then Wire.from (String.length needle) s
  else match s with
       | EmptyString => EmptyString
       | String c s' => String c (removeFirst needle s')
       end.

(** [parts.join(sep)] *)
Fixpoint join (sep : string) (parts : list string) : string :=
  match parts with
  | [] => EmptyString
  | [part] => part
  | part :: parts' => part +:+ sep +:+ join sep parts'
  end.

(** [toLowerCase] on the letters up to U+00FF: A-Z, and the accented
    capitals but the multiplication sign. *)
Definition lower (c : ascii) : ascii :=
  let n := JS.code c in
  if bool_decide (65 ≤ n ≤ 90) || bool_decide (192 ≤ n ≤ 214)
     || bool_decide (216 ≤ n ≤ 222)
  then ascii_of_nat (n + 32) else c.

Fixpoint toLowerCase (s : string) : string :=
  match s with
  | EmptyString => EmptyString
  | String c s' => String (lower c) (toLowerCase s')
  end.

(** Truthiness of a property that is a string or missing. *)
Definition truthy (value : option string) : bool :=
  match value with
  | Some (String _ _) => true
  | _ => false
  end.

Definition newline : ascii := ascii_of_nat 10.

End Text.

Module Config.

(** A provider as the configuration holds it. *)
Record ProviderConfig : Type := {
  apiType : string;
  keys : list string;
  baseUrl : option string;
  accessKey : option string;
  defaultModel : option string
}.

Record t : Type := {
  port : option Z;
  adminPassword : string;
  providers : gmap string ProviderConfig;
  geminiApiKeys : list string;
  openaiApiKeys : list string;
  legacyBaseUrl : option string
}.

(** [envVars[key] = value] on an object literal: the name [__proto__]
    reaches the prototype setter, which ignores a string. *)
Definition assign (key value : string) (envVars : gmap string string)
    : gmap string string :=
  if decide (key = "__proto__") then envVars else <[key := value]> envVars.

(** The body of [for (const line of lines)]. *)
Definition parseLine (envVars : gmap string string) (line : string)
    : gmap string string :=
  let trimmedLine := JS.trim line in
  if bool_decide (trimmedLine = EmptyString)
     || Wire.startsWith trimmedLine "#"
  then envVars
  else
    match Text.indexOf "=" trimmedLine with
    | None => envVars
    | Some equalIndex =>
        let key := JS.trim (substring 0 equalIndex trimmedLine) in
        let value := JS.trim (Wire.from (equalIndex + 1) trimmedLine) in
        assign key value envVars
    end.

Definition parseEnvFile (content : string) : gmap string string :=
  foldl parseLine ∅ (JS.split Text.newline content).

Definition parseApiKeys (keysString : option string) : list string :=
  match keysString with
  | None | Some EmptyString => []
  | Some s =>
      filter (λ key, 0 < String.length key) (JS.trim <$> JS.split "," s)
  end.

(** The API type and the provider name read from the name of a
    variable that ends in [suffix]. *)
Definition named (key suffix : string) : string * string :=
  let parts := JS.split "_" (Text.removeFirst suffix key) in
  let apiType := Text.toLowerCase (hd EmptyString parts) in
  let provider :=
    if decide (length parts = 1) then apiType
    else Text.toLowerCase (Text.join "_" (tl parts)) in
  (apiType, provider).

Definition blank (apiType : string) : ProviderConfig :=
  {| apiType := apiType; keys := []; baseUrl := None; accessKey := None;
     defaultModel := None |}.

(** [if (!providerConfigs.has(provider)) providerConfigs.set(...)]
    followed by an update of the entry. *)
Definition update (provider apiType : string)
    (change : ProviderConfig → ProviderConfig)
    (providerConfigs : gmap string ProviderConfig)
    : gmap string ProviderConfig :=
  <[provider := change (default (blank apiType) (providerConfigs !! provider))]>
    providerConfigs.

(** The body of [for (const [key, value] of Object.entries(envVars))]. *)
Definition parseEntry (providerConfigs : gmap string ProviderConfig)
    (entry : string * string) : gmap string ProviderConfig :=
  let '(key, value) := entry in
  if negb (Text.truthy (Some value)) then providerConfigs
  else if JS.endsWith key "_API_KEYS" then
    let '(apiType, provider) := named key "_API_KEYS" in
    update provider apiType
      (λ c, {| apiType := apiType; keys := parseApiKeys (Some value);
               baseUrl := baseUrl c; accessKey := accessKey c;
               defaultModel := defaultModel c |})
      providerConfigs
  else if JS.endsWith key "_BASE_URL" then
    let '(apiType, provider) := named key "_BASE_URL" in
    update provider apiType
      (λ c, {| apiType := Config.apiType c; keys := keys c;
               baseUrl := Some (JS.trim value); accessKey := accessKey c;
               defaultModel := defaultModel c |})
      providerConfigs
  else if JS.endsWith key "_ACCESS_KEY" then
    let '(apiType, provider) := named key "_ACCESS_KEY" in
    update provider apiType
      (λ c, {| apiType := Config.apiType c; keys := keys c;
               baseUrl := baseUrl c; accessKey := Some (JS.trim value);
               defaultModel := defaultModel c |})
      providerConfigs
  else if JS.endsWith key "_DEFAULT_MODEL" then
    let '(apiType, provider) := named key "_DEFAULT_MODEL" in
    update provider apiType
      (λ c, {| apiType := Config.apiType c; keys := keys c;
               baseUrl := baseUrl c; accessKey := accessKey c;
               defaultModel := Some (JS.trim value) |})
      providerConfigs
  else providerConfigs.

(** The second loop of [parseProviders]: a provider with keys is
    registered, with the default base URL of its API type if it has
    none. *)
Definition register (c : ProviderConfig) : option ProviderConfig :=
  match keys c with
  | [] => None
  | _ :: _ =>
      if Text.truthy (baseUrl c) then Some c
      else
        let withBaseUrl (url : string) :=
          {| apiType := apiType c; keys := keys c; baseUrl := Some url;
             accessKey := accessKey c; defaultModel := defaultModel c |} in
        if decide (apiType c = "openai")
        then Some (withBaseUrl "https://api.openai.com/v1")
        else if decide (apiType c = "gemini")
        then Some (withBaseUrl "https://generativelanguage.googleapis.com/v1")
        else Some c
  end.

(** [entries] is [Object.entries(envVars)]; the result is [this.providers],
    empty before the call. *)
Definition parseProviders (entries : list (string * string))
    : gmap string ProviderConfig :=
  omap register (foldl parseEntry ∅ entries).

(** The three fields set by [parseBackwardCompatibility]. *)
Definition legacyKeys (envVars : gmap string string) (name : string)
    : list string :=
  parseApiKeys (envVars !! name).

Definition legacyBase (envVars : gmap string string) : option string :=
  match envVars !! "BASE_URL" with
  | Some (String c s) =>
      match JS.trim (String c s) with
      | EmptyString => None
      | url => Some url
      end
  | _ => None
  end.

(** The default providers it creates over what [parseProviders] left. *)
Definition parseBackwardCompatibility (envVars : gmap string string)
    (providers : gmap string ProviderConfig)
    : gmap string ProviderConfig :=
  let withOpenai :=
    match legacyKeys envVars "OPENAI_API_KEYS" with
    | [] => providers
    | openaiApiKeys =>
        <["openai" :=
            {| apiType := "openai"; keys := openaiApiKeys;
               baseUrl :=
                 Some (default "https://api.openai.com/v1"
                         (legacyBase envVars));
               accessKey := None; defaultModel := None |}]> providers
    end in
  match legacyKeys envVars "GEMINI_API_KEYS" with
  | [] => withOpenai
  | geminiApiKeys =>
      <["gemini" :=
          {| apiType := "gemini"; keys := geminiApiKeys;
             baseUrl := Some "https://generativelanguage.googleapis.com/v1";
             accessKey := None; defaultModel := None |}]> withOpenai
  end.

(** [loadConfig]: [file] is the text of the .env file, [None] when there
    is no such file; [order] is how [Object.entries] lists an object. *)
Definition loadConfig
    (order : gmap string string → list (string * string))
    (file : option string) : Error + t :=
  match file with
  | None => inl {| message := ".env file not found" |}
  | Some envContent =>
      let envVars := parseEnvFile envContent in
      let missingFields :=
        (if Text.truthy (envVars !! "PORT") then [] else ["PORT"])
        ++ (if Text.truthy (envVars !! "ADMIN_PASSWORD") then []
            else ["ADMIN_PASSWORD"]) in
      match missingFields with
      | _ :: _ =>
          inl {| message :=
                   "Required fields missing: "
                   +:+ Text.join ", " missingFields |}
      | [] =>
          inr {| port := JS.parseInt (default EmptyString (envVars !! "PORT"));
                 adminPassword :=
                   default EmptyString (envVars !! "ADMIN_PASSWORD");
                 providers :=
                   parseBackwardCompatibility envVars
                     (parseProviders (order envVars));
                 geminiApiKeys := legacyKeys envVars "GEMINI_API_KEYS";
                 openaiApiKeys := legacyKeys envVars "OPENAI_API_KEYS";
                 legacyBaseUrl := legacyBase envVars |}
      end
  end.

Definition getProvider (config : t) (providerName : string)
    : option ProviderConfig :=
  providers config !! providerName.

Definition hasGeminiKeys (config : t) : bool :=
  bool_decide (0 < length (geminiApiKeys config)).

Definition hasOpenaiKeys (config : t) : bool :=
  bool_decide (0 < length (openaiApiKeys config)).

Definition getGeminiBaseUrl (config : t) : string :=
  default "https://generativelanguage.googleapis.com" (legacyBaseUrl config).

Definition getOpenaiBaseUrl (config : t) : string :=
  default "https://api.openai.com" (legacyBaseUrl config).

End Config.

(** ** Start-up (index.js) and routing (server.js) *)

Module Startup.
Import ProxyServer.

(** A provider as the dispatcher reads it.  The base URL is read only
    when a client is created, that is for the API types [openai] and
    [gemini], for which the configuration always holds one. *)
Definition provide (c : Config.ProviderConfig) : Provider :=
  {| apiType := Config.apiType c; keys := Config.keys c;
     baseUrl := default EmptyString (Config.baseUrl c);
     accessKey := Config.accessKey c |}.

(** The legacy clients, as [main] and [reinitializeClients] make them. *)
Definition legacyGeminiClient (config : Config.t) : option Client :=
  if Config.hasGeminiKeys config then
    Some {| kind := Gemini;
            rotator := KeyRotator.new (Config.geminiApiKeys config);
            clientBaseUrl := Config.getGeminiBaseUrl config |}
  else None.

Definition legacyOpenaiClient (config : Config.t) : option Client :=
  if Config.hasOpenaiKeys config then
    Some {| kind := OpenAI;
            rotator := KeyRotator.new (Config.openaiApiKeys config);
            clientBaseUrl := Config.getOpenaiBaseUrl config |}
  else None.

(** [new ProxyServer(config, geminiClient, openaiClient)] in [main]. *)
Definition main (config : Config.t) : ProxyServer.t :=
  {| config := provide <$> Config.providers config;
     geminiClient := legacyGeminiClient config;
     openaiClient := legacyOpenaiClient config;
     providerClients := ∅ |}.



End Startup.

(** ** The URL of a Gemini request (geminiClient.js, lines 106-134) *)

Module Version.

(** The longest prefix of [s] without a slash: what [[^\/]+] takes. *)
Fixpoint run (s : string) : string :=
  match s with
  | EmptyString => EmptyString
  | String c s' =>
      if bool_decide (c = "/"%char) then EmptyString else String c (run s')
  end.

(** [path.match(/^\/v[^\/]+\//)], the trailing slash taken off:
    [pathVersionMatch[0].slice(0, -1)]. *)
Definition pathVersion (path : string) : option string :=
  match path with
  | String "/" (String "v" rest) =>
      let segment := run rest in
      if bool_decide (segment ≠ EmptyString)
         && Wire.startsWith (Wire.from (String.length segment) rest) "/"
      then Some (String "/" (String "v" segment))
      else None
  | _ => None
  end.

(** [/\/v[^\/]+$/] anchored at the start of [s]: the whole of [s] is a
    slash, a [v] and at least one character, none of them a slash. *)
Definition versionHere (s : string) : bool :=
  match s with
  | String "/" (String "v" rest) =>
      bool_decide (rest ≠ EmptyString) && negb (JS.includes rest "/")
  | _ => false
  end.

(** [baseUrl.match(/\/v[^\/]+$/)]: the leftmost match. *)
Fixpoint baseVersion (baseUrl : string) : option string :=
  if versionHere baseUrl then Some baseUrl
  else match baseUrl with
       | EmptyString => None
       | String _ rest => baseVersion rest
       end.

(** [s.indexOf(pattern)]; [None] is -1. *)
Fixpoint search (pattern s : string) : option nat :=
  if Wire.startsWith s pattern then Some 0
  else match s with
       | EmptyString => None
       | String _ s' => S <$> search pattern s'
       end.

(** The replacement text of [String.prototype.replace] for a string
    pattern, which has no capture groups: [$$] is a dollar sign, [$&]
    the matched text, [$`] what precedes it, [$'] what follows it, and
    any other character stands for itself. *)
Fixpoint substitute (matched before after template : string) : string :=
  match template with
  | EmptyString => EmptyString
  | String "$" (String "$" t) =>
      String "$" (substitute matched before after t)
  | String "$" (String "&" t) =>
      matched +:+ substitute matched before after t
  | String "$" (String "`" t) =>
      before +:+ substitute matched before after t
  | String "$" (String "'" t) =>
      after +:+ substitute matched before after t
  | String c t => String c (substitute matched before after t)
  end.

(** [s.replace(pattern, replacement)] for a string pattern: the first
    occurrence is replaced. *)
Definition replace (pattern replacement s : string) : string :=
  match search pattern s with
  | None => s
  | Some position =>
      let before := substring 0 position s in
      let after := Wire.from (position + String.length pattern) s in
      before +:+ substitute pattern before after replacement +:+ after
  end.

(** The URL handed to [new URL]. *)
Definition geminiUrl (baseUrl path : string) : string :=
  if bool_decide (path = EmptyString) || bool_decide (path = "/")
  then baseUrl
  else if Wire.startsWith path "/" then
    let '(effectiveBaseUrl, path') :=
      match pathVersion path, baseVersion baseUrl with
      | Some pathVersion, Some baseVersion =>
          if decide (pathVersion = baseVersion) then (baseUrl, path)
          else (replace baseVersion pathVersion baseUrl,
                Wire.from (String.length pathVersion) path)
      | _, _ => (baseUrl, path)
      end in
    if JS.endsWith effectiveBaseUrl "/"
    then effectiveBaseUrl +:+ Wire.from 1 path'
    else effectiveBaseUrl +:+ path'
  else
    if JS.endsWith baseUrl "/" then baseUrl +:+ path
    else baseUrl +:+ "/" +:+ path.

End Version.


(** ** The request log and the stored responses (server.js) *)

Module Monitoring.

(** An entry of [logBuffer]. *)
Record LogEntry : Type := {
  timestamp : string;
  requestId : string;
  method : string;
  endpoint : string;
  provider : string;
  status : option Z;
  responseTime : option Z;
  error : option string;
  clientIp : option string
}.

(** [value || fallback] for a value that is a string or missing. *)
Definition orElse (value : option string) (fallback : string) : string :=
  match value with
  | Some (String c s) => String c s
  | _ => fallback
  end.

(** [logApiRequest]; [now] is [new Date().toISOString()]. *)
Definition logApiRequest (now : string)
    (requestId method endpoint provider : option string)
    (status responseTime : option Z) (error clientIp : option string)
    (logBuffer : list LogEntry) : list LogEntry :=
  let logEntry :=
    {| timestamp := now;
       requestId := orElse requestId "unknown";
       method := orElse method "UNKNOWN";
       endpoint := orElse endpoint "unknown";
       provider := orElse provider "unknown";
       status := status; responseTime := responseTime;
       error := error; clientIp := clientIp |} in
  let pushed := logBuffer ++ [logEntry] in
  if decide (100 < length pushed) then tail pushed else pushed.

(** [this.logBuffer.slice(-100)] in [handleGetLogs]. *)
Definition recentLogs (logBuffer : list LogEntry) : list LogEntry :=
  drop (length logBuffer - 100) logBuffer.

(** A JavaScript [Map] whose order matters: the entries in the order
    their keys were first set. *)
Section storage.
Context {V : Type}.

Fixpoint mapSet (key : string) (value : V) (entries : list (string * V))
    : list (string * V) :=
  match entries with
  | [] => [(key, value)]
  | (k, v) :: entries' =>
      if decide (k = key) then (k, value) :: entries'
      else (k, v) :: mapSet key value entries'
  end.

Fixpoint mapGet (key : string) (entries : list (string * V)) : option V :=
  match entries with
  | [] => None
  | (k, v) :: entries' =>
      if decide (k = key) then Some v else mapGet key entries'
  end.

(** [responseStorage.delete(key)] *)
Fixpoint mapDelete (key : string) (entries : list (string * V))
    : list (string * V) :=
  match entries with
  | [] => []
  | (k, v) :: entries' =>
      if decide (k = key) then entries'
      else (k, v) :: mapDelete key entries'
  end.

Definition storeResponseData (testId : string) (responseData : V)
    (responseStorage : list (string * V)) : list (string * V) :=
  let stored := mapSet testId responseData responseStorage in
  if decide (100 < length stored) then
    match stored with
    | [] => stored
    | (firstKey, _) :: _ => mapDelete firstKey stored
    end
  else stored.
End storage.

End Monitoring.

(** ** The admin login (server.js) *)

Module Admin.

(** The fields of the server the login reads and writes. *)
Record t : Type := {
  failedLoginAttempts : nat;
  loginBlockedUntil : option Z;
  adminSessionToken : option string
}.

(** The server as its constructor leaves it. *)
Definition initial : t :=
  {| failedLoginAttempts := 0; loginBlockedUntil := None;
     adminSessionToken := None |}.

(** What [getAdminPassword] returns: [null] when the file cannot be
    read, [undefined] when it sets no password, or the password. *)
Inductive password : Type :=
  | Unreadable
  | Unset
  | Secret (s : string).

(** [getAdminPassword], from the content of the [.env] file, if it can
    be read. *)
Definition getAdminPassword (file : option string) : password :=
  match file with
  | None => Unreadable
  | Some envContent =>
      match Config.parseEnvFile envContent !! "ADMIN_PASSWORD" with
      | Some adminPassword => Secret adminPassword
      | None => Unset
      end
  end.

(** [data.password] of the parsed body: missing, [null], a string, or
    a value of another type. *)
Inductive guess : Type :=
  | Missing
  | Null
  | Text (s : string)
  | Other.

(** [JSON.parse(body)]: it throws, or gives [null], on which reading
    a property throws; or it gives a value whose property is read. *)
Inductive parsed : Type :=
  | Malformed
  | Data (password : guess).

(** [data.password === adminPassword] *)
Definition matches (given : guess) (adminPassword : password) : bool :=
  match given, adminPassword with
  | Missing, Unset => true
  | Null, Unreadable => true
  | Text s, Secret s' => bool_decide (s = s')
  | _, _ => false
  end.

(** What is written to the client. *)
Inductive loginReply : Type :=
  | StillBlocked (remainingMinutes blockedUntil remainingSeconds : Z)
  | LoggedIn (adminSession : string) (expires : Z)
  | NowBlocked (blockedUntil : Z)
  | InvalidPassword (attemptsRemaining : Z)
  | InvalidRequest.

(** The status of each. *)
Definition loginStatus (reply : loginReply) : Z :=
  match reply with
  | StillBlocked _ _ _ => 429
  | LoggedIn _ _ => 200
  | NowBlocked _ => 429
  | InvalidPassword _ => 401
  | InvalidRequest => 400
  end.

(** [Math.ceil(a / b)] for integers, [b] positive. *)
Definition ceilDiv (a b : Z) : Z := (- ((- a) / b))%Z.

(** [handleAdminLogin].  [clock] gives the calls of [Date.now()] in
    the order they are made, [fresh] is what [generateSessionToken]
    returns, [file] the content of the [.env] file; the expiry of the
    cookie is kept as a time stamp. *)
Definition handleAdminLogin (clock : nat → Z) (fresh : string)
    (file : option string) (body : parsed) (server : t)
    : loginReply * t :=
  let '(blocked, calls) :=
    match loginBlockedUntil server with
    | Some blockedUntil =>
        if decide (blockedUntil = 0%Z) then (None, 0)
        else if decide (clock 0%nat < blockedUntil)%Z then (Some blockedUntil, 1)
        else (None, 1)
    | None => (None, 0)
    end in
  match blocked with
  | Some blockedUntil =>
      let remainingSeconds := ceilDiv (blockedUntil - clock calls) 1000 in
      let remainingMinutes := ceilDiv remainingSeconds 60 in
      (StillBlocked remainingMinutes blockedUntil remainingSeconds, server)
  | None =>
      match body with
      | Malformed => (InvalidRequest, server)
      | Data given =>
          if matches given (getAdminPassword file) then
            (LoggedIn fresh (clock calls + 24 * 60 * 60 * 1000)%Z,
             {| failedLoginAttempts := 0; loginBlockedUntil := None;
                adminSessionToken := Some fresh |})
          else
            let failed := S (failedLoginAttempts server) in
            if decide (5 ≤ failed) then
              let blockedUntil := (clock calls + 5 * 60 * 1000)%Z in
              (NowBlocked blockedUntil,
               {| failedLoginAttempts := failed;
                  loginBlockedUntil := Some blockedUntil;
                  adminSessionToken := adminSessionToken server |})
            else
              (InvalidPassword (5 - Z.of_nat failed)%Z,
               {| failedLoginAttempts := failed;
                  loginBlockedUntil := loginBlockedUntil server;
                  adminSessionToken := adminSessionToken server |})
      end
  end.

(** The handler of [POST /admin/logout]. *)
Definition logout (server : t) : t :=
  {| failedLoginAttempts := failedLoginAttempts server;
     loginBlockedUntil := loginBlockedUntil server;
     adminSessionToken := None |}.




End Admin.

(** * Notions for the attempts of one request *)

Module TraceNotions.
Import RequestKeyContext Notions.

(** The attempts of a request with what each settled to: the [i]-th call
    is the [i]-th [sendRequest] of the request. *)
Definition settled (send : network) (made : list call)
    : list (call * attempt) :=
  imap (λ i c, (c, send i c)) made.

(** An attempt after which the loop goes on: the promise was rejected, or
    the status of the answer is a rotation code. *)
Definition goesOn (rotationStatusCodes : gset Z) (a : attempt) : bool :=
  match a with
  | Resolved response => bool_decide (statusCode response ∈ rotationStatusCodes)
  | Rejected _ => true
  end.

(** The error of a rejected attempt. *)
Definition rejection (p : call * attempt) : option Error :=
  match p.2 with
  | Rejected error => Some error
  | Resolved _ => None
  end.

(** The key of an attempt answered with a rotation code. *)
Definition limitedKey (rotationStatusCodes : gset Z) (p : call * attempt)
    : option jskey :=
  match p.2 with
  | Resolved response =>
      if decide (statusCode response ∈ rotationStatusCodes)
      then Some (sentKey p.1) else None
  | Rejected _ => None
  end.

(** The answer of an attempt answered with a rotation code. *)
Definition limitedResponse (rotationStatusCodes : gset Z)
    (p : call * attempt) : option Response :=
  match p.2 with
  | Resolved response =>
      if decide (statusCode response ∈ rotationStatusCodes)
      then Some response else None
  | Rejected _ => None
  end.

(** What the rotation loop keeps true of the attempts made so far. *)
Record tracing (send : network) (method path : string)
    (body : option string) (headers : gmap string string)
    (rotationStatusCodes : gset Z)
    (c : RequestKeyContext.t) (lastError : option Error)
    (lastResponse : option Response) (made : list call) : Prop := {
  tracing_context : invariant c;
  tracing_tried : triedKeys c = list_to_set (sentKey <$> made);
  tracing_distinct : NoDup (sentKey <$> made);
  tracing_request :
    Forall (λ a, a = Rotation.request method path body headers (sentKey a))
      made;
  tracing_goesOn :
    Forall (λ p, goesOn rotationStatusCodes p.2 = true) (settled send made);
  tracing_error : lastError = last (omap rejection (settled send made));
  tracing_response :
    lastResponse
    = last (omap (limitedResponse rotationStatusCodes) (settled send made));
  tracing_limited :
    rateLimitedKeys c
    = list_to_set (omap (limitedKey rotationStatusCodes) (settled send made));
  tracing_lastFailed :
    lastFailedKeyForThisRequest c
    = last (omap (limitedKey rotationStatusCodes) (settled send made))
}.

(** How a finished run of the rotation relates to its attempts. *)
Record traced (send : network) (method path : string)
    (body : option string) (headers : gmap string string)
    (rotationStatusCodes : gset Z) (synthetic : Response)
    (rotator : KeyRotator.t) (pool : list string) (r : run) : Prop := {
  traced_context :
    ∃ cf, context r = Some cf
          ∧ length (RequestKeyContext.apiKeys cf) = length pool
          ∧ size (triedKeys cf) = length (attempts r)
          ∧ size (rateLimitedKeys cf)
            = length (omap (limitedKey rotationStatusCodes)
                        (settled send (attempts r)));
  traced_distinct : NoDup (sentKey <$> attempts r);
  traced_pool :
    Forall (λ a, ∃ s, sentKey a = Str s ∧ s ∈ pool) (attempts r);
  traced_request :
    Forall (λ a, a = Rotation.request method path body headers (sentKey a))
      (attempts r);
  traced_end :
    (∃ made a response,
       attempts r = made ++ [a]
       ∧ Forall (λ p, goesOn rotationStatusCodes p.2 = true)
           (settled send made)
       ∧ send (length made) a = Resolved response
       ∧ (statusCode response ∉ rotationStatusCodes)
       ∧ outcome r = Return response
       ∧ keyRotator r = rotator)
    ∨ (Forall (λ p, goesOn rotationStatusCodes p.2 = true)
         (settled send (attempts r))
       ∧ (∀ s, s ∈ pool → Str s ∈ sentKey <$> attempts r)
       ∧ keyRotator r
         = KeyRotator.updateLastFailedKey
             (last (omap (limitedKey rotationStatusCodes)
                      (settled send (attempts r))))
             rotator
       ∧ outcome r
         = match last (omap (limitedResponse rotationStatusCodes)
                         (settled send (attempts r))),
                 last (omap rejection (settled send (attempts r))) with
           | Some response, None => Return response
           | _, Some error => Throw error
           | None, None =>
               Throw {| message :=
                          "All API keys exhausted without clear error" |}
           end)
}.

(** The attempts are the caller's request, sent with pairwise distinct
    keys of the pool. *)
Definition attemptsPoolKeys (method path : string) (body : option string)
    (headers : gmap string string) (pool : list string)
    (result : option run) : Prop :=
  ∃ r, result = Some r
       ∧ NoDup (sentKey <$> attempts r)
       ∧ Forall (λ a, ∃ s, s ∈ pool
                        ∧ a = SendRequest method path body headers (Str s)
                                false)
           (attempts r)
       ∧ length (attempts r) ≤ length pool.


(** A returned response is the upstream's answer to one of the attempts. *)
Definition returnsAnAnswer (send : network) (result : option run) : Prop :=
  ∃ r, result = Some r
       ∧ ∀ response,
           outcome r = Return response →
           ∃ i a, attempts r !! i = Some a
                  ∧ send i a = Resolved response.


(** A returned response whose status is a rotation code: every attempt
    was answered with a rotation code, every key of the pool was
    attempted, and the response is the answer to the last attempt. *)
Definition returnsLastLimited (send : network)
    (rotationStatusCodes : gset Z) (pool : list string)
    (result : option run) : Prop :=
  ∃ r, result = Some r
       ∧ ∀ response,
           outcome r = Return response →
           statusCode response ∈ rotationStatusCodes →
           (∀ i a, attempts r !! i = Some a →
                   ∃ answer, send i a = Resolved answer
                             ∧ statusCode answer ∈ rotationStatusCodes)
           ∧ (∃ a, last (attempts r) = Some a
                   ∧ send (length (attempts r) - 1) a = Resolved response).

(** The request gives up only after every key of the pool was
    attempted. *)
Definition triesEveryKey (send : network) (rotationStatusCodes : gset Z)
    (pool : list string) (result : option run) : Prop :=
  ∃ r, result = Some r
       ∧ (Forall (λ p, goesOn rotationStatusCodes p.2 = true)
            (settled send (attempts r)) →
          ∀ s, s ∈ pool → Str s ∈ sentKey <$> attempts r).

(** The key pool after the request. *)
Definition remembersLastLimited (send : network)
    (rotationStatusCodes : gset Z) (rotator : KeyRotator.t)
    (result : option run) : Prop :=
  ∃ r, result = Some r
       ∧ KeyRotator.apiKeys (keyRotator r) = KeyRotator.apiKeys rotator
       ∧ KeyRotator.lastFailedKey (keyRotator r)
         = if forallb (λ p, goesOn rotationStatusCodes p.2)
                (settled send (attempts r))
           then last (omap (limitedKey rotationStatusCodes)
                        (settled send (attempts r)))
           else KeyRotator.lastFailedKey rotator.

(** What [getStats] reports of the context a finished request leaves. *)
Definition statsCountAttempts (send : network)
    (rotationStatusCodes : gset Z) (pool : list string)
    (result : option run) : Prop :=
  ∃ r cf,
    result = Some r ∧ context r = Some cf
    ∧ Stats.getStats cf
      = {| Stats.totalKeys := length pool;
           Stats.triedKeys := length (attempts r);
           Stats.rateLimitedKeys :=
             length (omap (limitedKey rotationStatusCodes)
                       (settled send (attempts r)));
           Stats.hasUntriedKeys :=
             bool_decide (length (attempts r) < length pool) |}.

End TraceNotions.

Module AccessNotions.
Import ProxyServer SegmentNotions.







End AccessNotions.

Module WireNotions.
Import ProxyServer.

(** The two names under which a credential can stand among the final
    headers of the OpenAI client: the forwarded one and the client's
    own. *)
Definition credentials (finalHeaders : gmap string string)
    : option string * option string :=
  (finalHeaders !! "authorization", finalHeaders !! "Authorization").

(** The credential each attempt of an OpenAI-flavored request carries:
    what the request brought, when something is left of its
    [authorization] header after cleaning, and a key of the pool
    otherwise. *)
Definition carriesCredential (brought : option string)
    (pool : list string) (a : call) : Prop :=
  match brought with
  | Some (String c v) =>
      credentials (Wire.openaiHeaders (sentHeaders a) (sentKey a))
      = (Some (String c v), None)
  | _ =>
      ∃ s, s ∈ pool
           ∧ sentKey a = Str s
           ∧ credentials (Wire.openaiHeaders (sentHeaders a) (sentKey a))
             = (None, Some ("Bearer " +:+ s))
  end.


(** A server with one client of each flavor in its cache. *)
Definition acme : Provider :=
  {| apiType := "openai"; keys := ["K1"; "K2"];
     baseUrl := "https://api.acme.test/v1"; accessKey := None |}.

Definition gem : Provider :=
  {| apiType := "gemini"; keys := ["G1"; "G2"];
     baseUrl := "https://gem.test/v1beta"; accessKey := None |}.

Definition acmeClient : Client :=
  {| kind := OpenAI; rotator := KeyRotator.new (keys acme);
     clientBaseUrl := baseUrl acme |}.

Definition gemClient : Client :=
  {| kind := Gemini; rotator := KeyRotator.new (keys gem);
     clientBaseUrl := baseUrl gem |}.

Definition twoProviders : ProxyServer.t :=
  {| config := {[ "acme" := acme; "gem" := gem ]};
     geminiClient := None; openaiClient := None;
     providerClients := {[ "acme" := acmeClient; "gem" := gemClient ]} |}.

Definition acmeRoute : Route :=
  {| providerName := "acme"; routeApiType := "openai";
     routePath := "/chat/completions"; provider := Some acme;
     legacy := false |}.



(** An upstream that answers every attempt with 200. *)
Definition fine : network :=
  λ _ _, Resolved (RotationNotions.answer 200 "ok").

End WireNotions.

Module ConfigNotions.
Import Config.

(** A key as [parseApiKeys] yields it: not empty, without white space
    around it, without a comma. *)
Definition keyLike (key : string) : Prop :=
  key ≠ EmptyString ∧ JS.trim key = key ∧ JS.includes key "," = false.

(** A provider the dispatcher can serve from: it has a key, its keys
    are key-like, and it has a base URL if its API type is one a client
    exists for. *)
Definition usable (c : ProviderConfig) : Prop :=
  keys c ≠ []
  ∧ Forall keyLike (keys c)
  ∧ (apiType c = "openai" ∨ apiType c = "gemini" →
     Text.truthy (baseUrl c) = true).

(** The default provider made from the keys of [GEMINI_API_KEYS]. *)
Definition defaultGemini (keys : list string) : ProviderConfig :=
  {| apiType := "gemini"; keys := keys;
     baseUrl := Some "https://generativelanguage.googleapis.com/v1";
     accessKey := None; defaultModel := None |}.

(** The default provider made from the keys of [OPENAI_API_KEYS]. *)
Definition defaultOpenai (keys : list string) (legacyBaseUrl : option string)
    : ProviderConfig :=
  {| apiType := "openai"; keys := keys;
     baseUrl := Some (default "https://api.openai.com/v1" legacyBaseUrl);
     accessKey := None; defaultModel := None |}.



(** A .env file in the old format, with an access key for the default
    provider. *)
Definition oldFormat : string :=
  "PORT=8990" +:+ String Text.newline
  ("ADMIN_PASSWORD=pw" +:+ String Text.newline
   ("OPENAI_API_KEYS=sk-1, sk-2" +:+ String Text.newline
    "OPENAI_ACCESS_KEY=s3cret")).

(** A .env file in the new format. *)
Definition newFormat : string :=
  "PORT=8990" +:+ String Text.newline
  ("ADMIN_PASSWORD=pw" +:+ String Text.newline
   ("OPENAI_GROQ_API_KEYS=gsk-1,gsk-2" +:+ String Text.newline
    "OPENAI_GROQ_BASE_URL=https://api.groq.com/openai/v1")).

End ConfigNotions.

Module OrderNotions.
Import RequestKeyContext Notions.

(** Every key that stands before the current index has been tried. *)
Definition swept (c : RequestKeyContext.t) : Prop :=
  ∀ j, j < currentIndex c → keyAt c j ∈ triedKeys c.

(** The attempts follow the order of [keys]: an attempt is made with
    the key at some index, after every key at a smaller index has been
    sent. *)
Definition inOrder (keys : list string) (made : list call) : Prop :=
  ∀ i a,
    made !! i = Some a →
    ∃ idx s,
      keys !! idx = Some s ∧ sentKey a = Str s
      ∧ ∀ j s', j < idx → keys !! j = Some s' →
                Str s' ∈ sentKey <$> take i made.

(** What the rotation loop keeps true of the order of its attempts. *)
Record ordering (c : RequestKeyContext.t) (made : list call) : Prop := {
  ordering_context : invariant c;
  ordering_tried : triedKeys c = list_to_set (sentKey <$> made);
  ordering_swept : swept c;
  ordering_made : inOrder (apiKeys c) made
}.

(** The key [hint] is sent only after every other key of the pool. *)
Definition sendsLast (hint : string) (pool : list string)
    (result : option run) : Prop :=
  ∃ r, result = Some r
       ∧ ∀ i a,
           attempts r !! i = Some a → sentKey a = Str hint →
           ∀ s, s ∈ pool → s ≠ hint →
                Str s ∈ sentKey <$> take i (attempts r).

(** A pool that remembers that K1 failed. *)
Definition afterK1 : KeyRotator.t :=
  {| KeyRotator.apiKeys := ["K1"; "K2"; "K3"];
     KeyRotator.lastFailedKey := Some (Str "K1") |}.

End OrderNotions.

Module UrlNotions.

(** A version name: not empty, without a slash. *)
Definition versionName (name : string) : Prop :=
  name ≠ EmptyString ∧ JS.includes name "/" = false.

(** The text of a version segment. *)
Definition versioned (name : string) : string := String "/" (String "v" name).

End UrlNotions.

Module MonitoringNotions.
Import Monitoring.

(** One call of [logApiRequest], by its arguments. *)
Record logging : Type := {
  at_ : string;
  id : option string;
  verb : option string;
  target : option string;
  source : option string;
  code : option Z;
  took : option Z;
  failure : option string;
  from : option string
}.

Definition logOne (logBuffer : list LogEntry) (l : logging) : list LogEntry :=
  logApiRequest (at_ l) (id l) (verb l) (target l) (source l) (code l)
    (took l) (failure l) (from l) logBuffer.

(** The entry a call adds. *)
Definition entryOf (l : logging) : LogEntry :=
  {| timestamp := at_ l;
     requestId := orElse (id l) "unknown";
     method := orElse (verb l) "UNKNOWN";
     endpoint := orElse (target l) "unknown";
     provider := orElse (source l) "unknown";
     status := code l; responseTime := took l;
     error := failure l; clientIp := from l |}.

(** A call as [handleRequest] makes it when a request comes in. *)
Definition incoming : logging :=
  {| at_ := "2024-01-15T10:30:45.123Z"; id := Some "abc123";
     verb := Some "POST"; target := Some "/chat/completions";
     source := Some "acme"; code := None; took := None;
     failure := None; from := None |}.

(** The state of a [Map] as the server keeps it: each key once, and at
    most 100 of them. *)
Definition bounded {V} (entries : list (string * V)) : Prop :=
  NoDup entries.*1 ∧ length entries ≤ 100.

End MonitoringNotions.

Module AdminNotions.
Import Admin.

(** One request to [/admin/login], by what it depends on. *)
Record attempt : Type := {
  clock : nat → Z;
  fresh : string;
  file : option string;
  body : parsed
}.

(** The requests that write the fields of the login. *)
Inductive request : Type :=
  | Login (a : attempt)
  | Logout.

(** The replies to the login requests of a sequence of requests, and
    the server after them. *)
Fixpoint logins (requests : list request) (server : Admin.t)
    : list loginReply * Admin.t :=
  match requests with
  | [] => ([], server)
  | Login a :: requests' =>
      let '(reply, server') :=
        handleAdminLogin (clock a) (fresh a) (file a) (body a) server in
      let '(replies, server'') := logins requests' server' in
      (reply :: replies, server'')
  | Logout :: requests' => logins requests' (logout server)
  end.

(** The number of replies "invalid password" since the last successful
    login, the latest reply first. *)
Fixpoint invalidSince (latestFirst : list loginReply) : nat :=
  match latestFirst with
  | [] => 0
  | LoggedIn _ _ :: _ => 0
  | InvalidPassword _ :: earlier => S (invalidSince earlier)
  | _ :: earlier => invalidSince earlier
  end.

(** What holds between two requests, [invalid] being the number of
    replies "invalid password" since the last successful login. *)
Definition counting (server : Admin.t) (invalid : nat) : Prop :=
  (failedLoginAttempts server < 5
   ∧ loginBlockedUntil server = None
   ∧ invalid = failedLoginAttempts server)
  ∨ (5 ≤ failedLoginAttempts server
     ∧ loginBlockedUntil server ≠ None
     ∧ invalid ≤ 4).




End AdminNotions.

Module EnvNotions.

(** The lines of an env file as the admin panel writes them: comments,
    empty lines and assignments. *)
Inductive entry : Type :=
  | Note (text : string)
  | Empty
  | Assign (key value : string).

Definition line (e : entry) : string :=
  match e with
  | Note text => String "#" text
  | Empty => EmptyString
  | Assign key value => key +:+ String "=" value
  end.

Definition render (entries : list entry) : string :=
  Text.join (String Text.newline EmptyString) (line <$> entries).

(** The assignments, in the order of the file. *)
Definition assignments (entries : list entry) : list (string * string) :=
  omap (λ e, match e with
             | Assign key value => Some (key, value)
             | _ => None
             end) entries.

(** A line that reads back as it was written: nothing spans lines; a
    name has no equals sign, is no comment and is not [__proto__]; name
    and value have no white space around them. *)
Definition plain (e : entry) : Prop :=
  match e with
  | Note text => JS.includes text Text.newline = false
  | Empty => True
  | Assign key value =>
      JS.trim key = key ∧ JS.trim value = value
      ∧ JS.includes key "=" = false
      ∧ JS.includes key Text.newline = false
      ∧ JS.includes value Text.newline = false
      ∧ Wire.startsWith key "#" = false
      ∧ key ≠ "__proto__"
  end.

(** A file with a comment, an empty line and a name set twice. *)
Definition twice : list entry :=
  [Note " API Key Rotator Configuration"; Empty; Assign "PORT" "8990";
   Assign "OPENAI_ACME_API_KEYS" "sk-1,sk-2"; Assign "PORT" "9000"].

End EnvNotions.

(** * Properties of the request key context *)

Section shuffle.
Import RequestKeyContext.
Implicit Types (keys shuffled : list string) (rnd : random_source).

Lemma floor_mul_lt (r : draw) (n : nat) : 0 < n → floor_mul r n < n.
Proof.
  intros Hn. unfold floor_mul.
  apply Nat.Div0.div_lt_upper_bound. nia.
Qed.

Lemma swap_Permutation shuffled i j : swap shuffled i j ≡ₚ shuffled.
Proof.
  unfold swap.
  destruct (shuffled !! i) as [x|] eqn:Hi; [|done].
  destruct (shuffled !! j) as [y|] eqn:Hj; [|done].
  by apply Permutation_insert_swap.
Qed.

Lemma swap_length shuffled i j : length (swap shuffled i j) = length shuffled.
Proof. apply Permutation_length, swap_Permutation. Qed.

(** Inside the array the swap is the pair of writes of the source. *)
Lemma swap_in_range shuffled i j :
  i < length shuffled → j < length shuffled →
  ∃ x y, shuffled !! i = Some x ∧ shuffled !! j = Some y
         ∧ swap shuffled i j = <[j:=x]> (<[i:=y]> shuffled).
Proof.
  intros [x Hx]%lookup_lt_is_Some_2 [y Hy]%lookup_lt_is_Some_2.
  exists x, y. unfold swap. by rewrite Hx, Hy.
Qed.

Lemma fisherYates_Permutation rnd calls i shuffled :
  fisherYates rnd calls i shuffled ≡ₚ shuffled.
Proof.
  revert calls shuffled.
  induction i as [|i IH]; intros calls shuffled; simpl; [done|].
  by rewrite IH, swap_Permutation.
Qed.

Lemma indexOf_Some l key i : indexOf l key = Some i → l !! i = Some key.
Proof.
  revert i. induction l as [|x l IH]; intros i; simpl; [done|].
  case_decide as Hx; [intros [= <-]; by subst|].
  destruct (indexOf l key) as [i'|]; simpl; [|done].
  intros [= <-]. by apply IH.
Qed.

Lemma indexOf_None l key : indexOf l key = None → key ∉ l.
Proof.
  induction l as [|x l IH]; simpl; [intros _; apply not_elem_of_nil|].
  case_decide as Hx; [done|].
  destruct (indexOf l key); simpl; [done|].
  intros _ [->|?]%elem_of_cons; [done|]. by apply IH.
Qed.

Lemma smartShuffle_Permutation rnd keys lastFailedKey :
  smartShuffle rnd keys lastFailedKey ≡ₚ keys.
Proof.
  unfold smartShuffle.
  pose proof (fisherYates_Permutation rnd 0 (length keys - 1) keys) as Hp.
  destruct lastFailedKey as [[|k]|]; [done| |done].
  destruct (truthy_str k && includes keys k); [|done].
  destruct (indexOf _ k) as [i|] eqn:Hi; [|done].
  apply indexOf_Some in Hi.
  etrans; [|exact Hp].
  rewrite Permutation_app_comm. simpl.
  symmetry. by apply delete_Permutation.
Qed.

Lemma smartShuffle_last rnd keys k :
  k ≠ EmptyString → k ∈ keys →
  last (smartShuffle rnd keys (Some (Str k))) = Some k.
Proof.
  intros Hk Hin. unfold smartShuffle, includes.
  rewrite bool_decide_eq_true_2 by done.
  destruct k as [|c k]; [done|]. simpl.
  destruct (indexOf _ _) as [i|] eqn:Hi; [apply last_snoc|].
  apply indexOf_None in Hi. exfalso. apply Hi.
  by rewrite fisherYates_Permutation.
Qed.

Lemma smartShuffle_length rnd keys lastFailedKey :
  length (smartShuffle rnd keys lastFailedKey) = length keys.
Proof. apply Permutation_length, smartShuffle_Permutation. Qed.

(** [attemptOrder[n-1]] is the hint. *)
Lemma smartShuffle_lookup_last rnd keys k :
  k ≠ EmptyString → k ∈ keys →
  smartShuffle rnd keys (Some (Str k)) !! (length keys - 1) = Some k.
Proof.
  intros Hk Hin.
  rewrite <-(smartShuffle_length rnd keys (Some (Str k))).
  rewrite Nat.sub_1_r, <-last_lookup. by apply smartShuffle_last.
Qed.

Lemma smartShuffle_NoDup rnd keys lastFailedKey :
  NoDup keys → NoDup (smartShuffle rnd keys lastFailedKey).
Proof. intros Hnd. by rewrite smartShuffle_Permutation. Qed.

(** A hint that is falsy or not in the pool leaves the shuffle as it is. *)
Lemma smartShuffle_no_hint rnd keys lastFailedKey :
  (∀ k, lastFailedKey = Some (Str k) → k = EmptyString ∨ k ∉ keys) →
  smartShuffle rnd keys lastFailedKey
  = fisherYates rnd 0 (length keys - 1) keys.
Proof.
  intros H. unfold smartShuffle.
  destruct lastFailedKey as [[|k]|]; [done| |done].
  destruct (H k eq_refl) as [->|Hk]; [done|].
  unfold includes. rewrite bool_decide_eq_false_2 by done.
  by rewrite andb_false_r.
Qed.
End shuffle.

Section context.
Import RequestKeyContext Notions.
Implicit Types (c : t) (key : jskey).



Lemma probe_mod len ci i :
  0 < len → ci < len → probe len ci i = (ci + i) mod len.
Proof.
  intros Hlen. revert ci. induction i as [|i IH]; intros ci Hci; simpl.
  - rewrite Nat.add_0_r. by rewrite Nat.mod_small.
  - rewrite IH by (apply Nat.mod_upper_bound; lia).
    rewrite Nat.Div0.add_mod_idemp_l. f_equal. lia.
Qed.

Lemma probe_covers len ci j :
  ci < len → j < len → ∃ i, i < len ∧ probe len ci i = j.
Proof.
  intros Hci Hj. exists ((j + len - ci) mod len). split.
  - apply Nat.mod_upper_bound. lia.
  - rewrite probe_mod by lia.
    rewrite Nat.Div0.add_mod_idemp_r.
    replace (ci + (j + len - ci)) with (j + 1 * len) by lia.
    rewrite Nat.Div0.mod_add. apply Nat.mod_small. lia.
Qed.

Lemma scan_spec n c res c' :
  scan n c = (res, c') →
  apiKeys c' = apiKeys c
  ∧ rateLimitedKeys c' = rateLimitedKeys c
  ∧ lastFailedKeyForThisRequest c' = lastFailedKeyForThisRequest c
  ∧ (match res with
     | Some key =>
         (key ∉ triedKeys c) ∧ triedKeys c' = {[key]} ∪ triedKeys c
         ∧ ∃ i, i < n
                ∧ currentIndex c' = probe (length (apiKeys c)) (currentIndex c) i
                ∧ key = keyAt c (currentIndex c')
     | None =>
         triedKeys c' = triedKeys c
         ∧ currentIndex c' = probe (length (apiKeys c)) (currentIndex c) n
         ∧ ∀ i, i < n →
                keyAt c (probe (length (apiKeys c)) (currentIndex c) i)
                ∈ triedKeys c
     end).
Proof.
  revert c. induction n as [|n IH]; intros c; simpl.
  - intros [= <- <-]. repeat split; auto. intros i Hi. lia.
  - case_decide as Hkey.
    + intros Hscan. apply IH in Hscan as (Hk & Hr & Hl & Hres).
      simpl in *. repeat split; auto.
      destruct res as [key|].
      * destruct Hres as (Hfresh & Htried & i & Hi & Hidx & Hkeyat).
        repeat split; auto. exists (S i). split; [lia|]. simpl. split; auto.
      * destruct Hres as (Htried & Hidx & Hall).
        repeat split; auto.
        intros [|i] Hi; simpl; [done|]. apply Hall. lia.
    + intros [= <- <-]. simpl. repeat split; auto.
      exists 0. repeat split; auto. lia.
Qed.

Lemma size_keys_le (l : list string) :
  size (list_to_set (Str <$> l) : gset jskey) ≤ length l.
Proof.
  induction l as [|x l IH].
  - by rewrite fmap_nil, list_to_set_nil, size_empty.
  - rewrite fmap_cons, list_to_set_cons, size_union_alt.
    rewrite size_singleton.
    assert (size (list_to_set (Str <$> l) ∖ {[Str x]} : gset jskey)
            ≤ size (list_to_set (Str <$> l) : gset jskey)) as Hle.
    { apply subseteq_size, subseteq_difference_l. done. }
    simpl. lia.
Qed.

Lemma getNextKey_spec c res c' :
  getNextKey c = (res, c') →
  apiKeys c' = apiKeys c
  ∧ rateLimitedKeys c' = rateLimitedKeys c
  ∧ lastFailedKeyForThisRequest c' = lastFailedKeyForThisRequest c
  ∧ (match res with
     | Some key => (key ∉ triedKeys c) ∧ triedKeys c' = {[key]} ∪ triedKeys c
                   ∧ size (triedKeys c) < length (apiKeys c)
                   ∧ key = keyAt c (currentIndex c')
     | None => triedKeys c' = triedKeys c
     end).
Proof.
  unfold getNextKey. case_decide as Hsize.
  - intros [= <- <-]. auto.
  - intros Hscan. apply scan_spec in Hscan as (Hk & Hr & Hl & Hres).
    repeat split; auto. destruct res as [key|].
    + destruct Hres as (? & ? & i & ? & ? & ?). repeat split; auto. lia.
    + by destruct Hres.
Qed.

Lemma getNextKey_index c res c' :
  invariant c → getNextKey c = (res, c') →
  apiKeys c ≠ [] → currentIndex c' < length (apiKeys c).
Proof.
  intros [_ Hidx] Hget Hne. specialize (Hidx Hne).
  assert (0 < length (apiKeys c)) by (destruct (apiKeys c); simpl; [done|lia]).
  unfold getNextKey in Hget. case_decide.
  - by injection Hget as <- <-.
  - apply scan_spec in Hget as (_ & _ & _ & Hres). destruct res.
    + destruct Hres as (_ & _ & i & _ & -> & _).
      rewrite probe_mod by done. by apply Nat.mod_upper_bound; lia.
    + destruct Hres as (_ & -> & _).
      rewrite probe_mod by done. by apply Nat.mod_upper_bound; lia.
Qed.

(** A key handed out is a string of the pool, never [undefined]. *)
Lemma getNextKey_in_pool c key c' :
  invariant c → getNextKey c = (Some key, c') →
  ∃ s, key = Str s ∧ s ∈ apiKeys c.
Proof.
  intros Hinv Hget.
  pose proof (getNextKey_spec _ _ _ Hget) as (_ & _ & _ & _ & _ & Hsize & ->).
  assert (apiKeys c ≠ []) as Hne by (intros Heq; rewrite Heq in Hsize; simpl in Hsize; lia).
  pose proof (getNextKey_index _ _ _ Hinv Hget Hne) as Hidx.
  unfold keyAt. destruct (apiKeys c !! currentIndex c') as [s|] eqn:Hs.
  - exists s. split; [done|]. by eapply list_elem_of_lookup_2.
  - apply lookup_ge_None in Hs. lia.
Qed.

Lemma getNextKey_invariant c res c' :
  invariant c → getNextKey c = (res, c') → invariant c'.
Proof.
  intros Hinv Hget.
  pose proof (getNextKey_spec _ _ _ Hget) as (Hk & _ & _ & Hres).
  split.
  - rewrite Hk. destruct res as [key|].
    + destruct Hres as (_ & -> & _).
      intros k [->%elem_of_singleton|Hin]%elem_of_union.
      * by eapply getNextKey_in_pool.
      * by apply Hinv.
    + rewrite Hres. apply Hinv.
  - rewrite Hk. by eapply getNextKey_index.
Qed.

Lemma markKeyAsRateLimited_invariant key c :
  invariant c → invariant (markKeyAsRateLimited key c).
Proof.
  intros [Ht Hi]. split; simpl; [done|].
  intros Hne. apply Nat.mod_upper_bound.
  destruct (apiKeys c); simpl; [done|lia].
Qed.

Lemma new_invariant rnd keys lastFailedKey :
  invariant (new rnd keys lastFailedKey).
Proof.
  split; simpl.
  - intros key Hkey. by apply not_elem_of_empty in Hkey.
  - intros Hne. destruct (smartShuffle _ _ _); simpl; [done|lia].
Qed.

Lemma getNextKey_null_iff c :
  invariant c →
  (getNextKey c).1 = None ↔ ∀ s, s ∈ apiKeys c → Str s ∈ triedKeys c.
Proof.
  intros Hinv. destruct (getNextKey c) as [res c'] eqn:Hget. simpl. split.
  - intros ->. unfold getNextKey in Hget. case_decide as Hsize.
    + (* as many tried keys as cells: the tried set is the whole pool *)
      assert (triedKeys c ⊆ list_to_set (Str <$> apiKeys c)) as Hsub.
      { intros key (s & -> & Hs)%(tried_in_pool _ Hinv).
        apply elem_of_list_to_set, list_elem_of_fmap. eauto. }
      pose proof (size_keys_le (apiKeys c)) as Hle.
      apply set_subseteq_size_eq in Hsub; [|lia].
      intros s Hs. rewrite Hsub.
      apply elem_of_list_to_set, list_elem_of_fmap. eauto.
    + apply scan_spec in Hget as (_ & _ & _ & _ & _ & Hall).
      intros s [j Hj]%list_elem_of_lookup.
      assert (apiKeys c ≠ []) as Hne by (by intros Heq; rewrite Heq in Hj).
      pose proof (index_in_range _ Hinv Hne) as Hci.
      pose proof (lookup_lt_Some _ _ _ Hj) as Hjlt.
      destruct (probe_covers _ _ _ Hci Hjlt) as (i & Hi & Hprobe).
      specialize (Hall i Hi). rewrite Hprobe in Hall.
      unfold keyAt in Hall. by rewrite Hj in Hall.
  - intros Hall. destruct res as [key|]; [|done]. exfalso.
    destruct (getNextKey_in_pool _ _ _ Hinv Hget) as (s & -> & Hs).
    apply getNextKey_spec in Hget as (_ & _ & _ & Hfresh & _).
    by apply Hfresh, Hall.
Qed.
End context.

Section sequences.
Import RequestKeyContext Notions.
Implicit Types (c : t) (key : jskey) (ops : list operation).

Lemma markKeyAsRateLimited_tried key c :
  triedKeys (markKeyAsRateLimited key c) = triedKeys c.
Proof. done. Qed.

Lemma getNextKey_tried_mono c :
  triedKeys c ⊆ triedKeys (getNextKey c).2.
Proof.
  destruct (getNextKey c) as [res c'] eqn:Hget. simpl.
  apply getNextKey_spec in Hget as (_ & _ & _ & Hres).
  destruct res as [key|].
  - destruct Hres as (_ & -> & _). apply union_subseteq_r.
  - by rewrite Hres.
Qed.

Lemma perform_apiKeys ops c : apiKeys (perform ops c).2 = apiKeys c.
Proof.
  revert c. induction ops as [|[|key] ops IH]; intros c; simpl; [done| |].
  - destruct (getNextKey c) as [res c'] eqn:Hget.
    specialize (IH c'). destruct (perform ops c') as [keys c'']. simpl in *.
    rewrite IH. by apply getNextKey_spec in Hget as (-> & _).
  - by rewrite IH.
Qed.

Lemma perform_tried_mono ops c : triedKeys c ⊆ triedKeys (perform ops c).2.
Proof.
  revert c. induction ops as [|[|key] ops IH]; intros c; simpl; [done| |].
  - pose proof (getNextKey_tried_mono c) as Hmono.
    destruct (getNextKey c) as [res c']. specialize (IH c').
    destruct (perform ops c') as [keys c'']. simpl in *. by etrans.
  - apply (IH (markKeyAsRateLimited key c)).
Qed.

Lemma perform_invariant ops c : invariant c → invariant (perform ops c).2.
Proof.
  revert c. induction ops as [|[|key] ops IH]; intros c Hinv; simpl; [done| |].
  - destruct (getNextKey c) as [res c'] eqn:Hget.
    apply getNextKey_invariant in Hget; [|done]. specialize (IH c' Hget).
    by destruct (perform ops c') as [keys c''].
  - by apply IH, markKeyAsRateLimited_invariant.
Qed.

(** Every key handed out by a sequence was untried when the sequence
    started, and no key is handed out twice. *)
Lemma perform_served ops c :
  NoDup (served (perform ops c).1)
  ∧ ∀ key, key ∈ served (perform ops c).1 →
           (key ∉ triedKeys c) ∧ key ∈ triedKeys (perform ops c).2.
Proof.
  revert c. induction ops as [|[|key] ops IH]; intros c; simpl.
  - split; [constructor|]. intros key Hkey. by apply not_elem_of_nil in Hkey.
  - pose proof (perform_tried_mono ops (getNextKey c).2) as Hmono.
    destruct (getNextKey c) as [res c'] eqn:Hget. simpl in Hmono.
    destruct (IH c') as [Hnd Hin].
    destruct (perform ops c') as [keys c'']. simpl in *.
    apply getNextKey_spec in Hget as (_ & _ & _ & Hres).
    destruct res as [k|]; unfold served in *; simpl.
    + destruct Hres as (Hfresh & Htried & _). split.
      * constructor; [|done]. intros [Hk _]%Hin.
        apply Hk. rewrite Htried. by apply elem_of_union_l, elem_of_singleton.
      * intros key [->|Hkey]%elem_of_cons.
        { split; [done|]. apply Hmono. rewrite Htried.
          by apply elem_of_union_l, elem_of_singleton. }
        destruct (Hin key Hkey) as [Hk Hk']. split; [|done].
        intros Hc. apply Hk. rewrite Htried. by apply elem_of_union_r.
    + split; [done|]. intros key Hkey. rewrite <-Hres. by apply Hin.
  - apply (IH (markKeyAsRateLimited key c)).
Qed.

(** Once every key of the pool is tried, [getNextKey] answers [null] for
    the rest of the request. *)
Lemma perform_exhausted ops c :
  invariant c → (∀ s, s ∈ apiKeys c → Str s ∈ triedKeys c) →
  ∀ result, result ∈ (perform ops c).1 → result = None.
Proof.
  revert c. induction ops as [|[|key] ops IH]; intros c Hinv Hall; simpl.
  - intros result Hr. by apply not_elem_of_nil in Hr.
  - pose proof (proj2 (getNextKey_null_iff c Hinv) Hall) as Hnull.
    destruct (getNextKey c) as [res c'] eqn:Hget. simpl in Hnull. subst res.
    pose proof (getNextKey_invariant _ _ _ Hinv Hget) as Hinv'.
    apply getNextKey_spec in Hget as (Hk & _ & _ & Ht).
    specialize (IH c' Hinv'). rewrite Hk, Ht in IH. specialize (IH Hall).
    destruct (perform ops c') as [keys c'']. simpl in *.
    intros result [->|Hr]%elem_of_cons; [done|]. by apply IH.
  - apply (IH (markKeyAsRateLimited key c));
      [by apply markKeyAsRateLimited_invariant|done].
Qed.

(** The [while] loop of [getNextKey] returns within one evaluation of its
    condition per cell and one more, with the result of [scan]. *)
Lemma iterate_scan n c :
  n ≤ length (apiKeys c) →
  iterate (S n) (length (apiKeys c) - n) c = Some (scan n c).
Proof.
  revert c. induction n as [|n IH]; intros c Hn.
  - simpl. unfold iteration. rewrite decide_False by lia. done.
  - cbn [iterate scan]. unfold iteration. rewrite decide_True by lia.
    case_decide; [|done].
    replace (S (length (apiKeys c) - S n)) with (length (apiKeys c) - n) by lia.
    match goal with |- _ = Some (scan n ?c1) => apply (IH c1) end.
    simpl. lia.
Qed.
End sequences.

Section claims_context.
Import RequestKeyContext Notions.



(** C2 (counterexample): a pool that lists a key twice keeps it twice in
    the attempt order, and the empty string, being falsy, is not moved to
    the tail. *)
Lemma smartShuffle_as_specified_fails :
  ¬ smartShuffle_as_specified zeros ["a"; "a"] None
  ∧ ¬ smartShuffle_as_specified halves [EmptyString; "b"]
        (Some (Str EmptyString)).
Proof.
  split.
  - intros (_ & _ & _ & Hnd). vm_compute in Hnd.
    apply NoDup_cons_1_1 in Hnd. apply Hnd. left.
  - intros (_ & _ & Hlast & _).
    specialize (Hlast EmptyString eq_refl (list_elem_of_here _ _)).
    vm_compute in Hlast. discriminate Hlast.
Qed.

(** C2 (amended): the attempt order is a rearrangement of the pool; a
    hint that is a non-empty string of the pool is its last element; a
    pool without repeated keys gives an order without repeated keys. *)
Theorem smartShuffle_rearranges (rnd : random_source) (keys : list string)
    (hint : option jskey) :
  smartShuffle rnd keys hint ≡ₚ keys
  ∧ length (smartShuffle rnd keys hint) = length keys
  ∧ (∀ k, hint = Some (Str k) → k ≠ EmptyString → k ∈ keys →
          smartShuffle rnd keys hint !! (length keys - 1) = Some k)
  ∧ (NoDup keys → NoDup (smartShuffle rnd keys hint)).
Proof.
  split; [apply smartShuffle_Permutation|].
  split; [apply smartShuffle_length|]. split.
  - intros k -> Hk Hin. by apply smartShuffle_lookup_last.
  - apply smartShuffle_NoDup.
Qed.

Lemma smartShuffle_rearranges_witness :
  smartShuffle zeros ["K1"; "K2"; "K3"] (Some (Str "K2")) !! 2 = Some "K2"
  ∧ NoDup (smartShuffle zeros ["K1"; "K2"; "K3"] (Some (Str "K2"))).
Proof.
  destruct (smartShuffle_rearranges zeros ["K1"; "K2"; "K3"] (Some (Str "K2")))
    as (_ & _ & Hlast & Hnd).
  split.
  - apply (Hlast "K2"); [reflexivity|discriminate|].
    apply list_elem_of_further, list_elem_of_here.
  - apply Hnd. apply (bool_decide_unpack _). vm_compute. reflexivity.
Defined.

(** C5: in every context a request can reach — a fresh context after any
    sequence of operations — [getNextKey] returns no key that is already
    tried, the keys handed out so far are pairwise distinct, no later
    operation removes a tried key, and [getNextKey] returns [null]
    exactly when every key of the attempt order is tried. *)
Theorem getNextKey_serves_untried (rnd : random_source) (keys : list string)
    (hint : option jskey) (ops : list operation) :
  let c := (perform ops (new rnd keys hint)).2 in
  (∀ key c', getNextKey c = (Some key, c') →
             (key ∉ triedKeys c) ∧ triedKeys c' = {[key]} ∪ triedKeys c)
  ∧ NoDup (served (perform ops (new rnd keys hint)).1)
  ∧ (∀ ops', triedKeys c ⊆ triedKeys (perform ops' c).2)
  ∧ ((getNextKey c).1 = None ↔ ∀ s, s ∈ apiKeys c → Str s ∈ triedKeys c).
Proof.
  intros c. split; [|split; [|split]].
  - intros key c' Hget.
    by apply getNextKey_spec in Hget as (_ & _ & _ & ? & ? & _).
  - apply perform_served.
  - intros ops'. apply perform_tried_mono.
  - apply getNextKey_null_iff, perform_invariant, new_invariant.
Qed.

Lemma getNextKey_serves_untried_witness :
  (Str "K1" ∉ triedKeys (new zeros ["K1"] None))
  ∧ triedKeys (getNextKey (new zeros ["K1"] None)).2
    = {[Str "K1"]} ∪ triedKeys (new zeros ["K1"] None).
Proof.
  destruct (getNextKey_serves_untried zeros ["K1"] None []) as (Hfresh & _).
  apply (Hfresh (Str "K1")). reflexivity.
Defined.

(** C10: for every key list, repeated values included, the loop of
    [getNextKey] returns within one evaluation of its condition per cell
    of the list and one more; the keys handed out during a request are
    pairwise distinct; and once every value of the list is tried, every
    later call returns [null]. *)
Theorem getNextKey_terminates (rnd : random_source) (keys : list string)
    (hint : option jskey) (ops : list operation) :
  let c := (perform ops (new rnd keys hint)).2 in
  (∃ result,
     iterate (S (length (apiKeys c))) 0 c = Some result
     ∧ getNextKey c
       = if decide (length (apiKeys c) ≤ size (triedKeys c))
         then (None, c) else result)
  ∧ NoDup (served (perform ops (new rnd keys hint)).1)
  ∧ ((∀ s, s ∈ keys → Str s ∈ triedKeys c) →
     ∀ ops' result, result ∈ (perform ops' c).1 → result = None).
Proof.
  intros c. split; [|split].
  - exists (scan (length (apiKeys c)) c). split; [|done].
    pose proof (iterate_scan (length (apiKeys c)) c) as Hit.
    rewrite Nat.sub_diag in Hit. by apply Hit.
  - apply perform_served.
  - intros Hall ops' result. apply perform_exhausted.
    + apply perform_invariant, new_invariant.
    + intros s Hs. apply Hall. unfold c in Hs.
      rewrite perform_apiKeys in Hs. simpl in Hs.
      by rewrite smartShuffle_Permutation in Hs.
Qed.

Lemma getNextKey_terminates_witness :
  Forall (λ result, result = None)
    (perform [GetNextKey; GetNextKey]
       (perform [GetNextKey; GetNextKey]
          (new zeros ["a"; "a"; "b"] None)).2).1.
Proof.
  destruct (getNextKey_terminates zeros ["a"; "a"; "b"] None
              [GetNextKey; GetNextKey]) as (_ & _ & Hnull).
  apply Forall_forall. apply Hnull.
  intros s Hs. apply (bool_decide_unpack _).
  apply list_elem_of_In in Hs. simpl in Hs.
  destruct Hs as [<-|[<-|[<-|[]]]]; vm_compute; reflexivity.
Defined.
End claims_context.

(** * Properties of the rotation loop *)

Section rotation.
Import Notions.
Variable send : network.
Variables (method path : string) (body : option string).
Variable headers : gmap string string.
Variable rotationStatusCodes : gset Z.
Variable synthetic : Response.

Abbreviation request := (Rotation.request method path body headers).
Abbreviation loop :=
  (Rotation.loop send method path body headers rotationStatusCodes synthetic).
Abbreviation exhausted := (Rotation.exhausted synthetic).
Abbreviation recordedFrom := (recordedFrom send rotationStatusCodes).
Abbreviation recorded := (recorded send rotationStatusCodes).
Abbreviation between := (between send rotationStatusCodes).

Implicit Types (c : RequestKeyContext.t) (made : list call).

Lemma recordedFrom_snoc n made acc call :
  recordedFrom n (made ++ [call]) acc
  = match send (n + length made) call with
    | Resolved response =>
        if decide (statusCode response ∈ rotationStatusCodes)
        then Some response else recordedFrom n made acc
    | Rejected _ => recordedFrom n made acc
    end.
Proof.
  revert n acc. induction made as [|c0 made IH]; intros n acc; simpl.
  - by rewrite Nat.add_0_r.
  - rewrite IH. by replace (S n + length made) with (n + S (length made)) by lia.
Qed.

(** The loop never runs out of the fuel [rotate] gives it: each turn that
    goes on has handed out one more key. *)
Lemma loop_total fuel c lastError lastResponse made rotator :
  length (RequestKeyContext.apiKeys c)
    - size (RequestKeyContext.triedKeys c) < fuel →
  is_Some (loop fuel c lastError lastResponse made rotator).
Proof.
  revert c lastError lastResponse made.
  induction fuel as [|fuel IH]; intros c lastError lastResponse made Hfuel;
    [lia|].
  simpl. destruct (RequestKeyContext.getNextKey c) as [[key|] c'] eqn:Hget;
    [|by eexists].
  apply getNextKey_spec in Hget as (Hk & _ & _ & Hfresh & Htried & Hsize & _).
  assert (size (RequestKeyContext.triedKeys c')
          = S (size (RequestKeyContext.triedKeys c))) as Hgrow.
  { rewrite Htried, size_union, size_singleton; [done|].
    by apply disjoint_singleton_l. }
  destruct (send _ _) as [response|error].
  - case_decide; [|by eexists]. apply IH. simpl. rewrite Hk. lia.
  - apply IH. rewrite Hk. lia.
Qed.

(** The run of the loop, from a state between two iterations: either it
    returns from inside the loop, leaving the key pool as it was, or it
    ends in the code after the loop. *)
Lemma loop_spec fuel c lastError lastResponse made rotator r :
  between c lastResponse made →
  loop fuel c lastError lastResponse made rotator = Some r →
  ∃ cf, context r = Some cf
    ∧ invariant cf
    ∧ RequestKeyContext.rateLimitedKeys cf ⊆ RequestKeyContext.triedKeys cf
    ∧ ((∃ response key,
          outcome r = Return response
          ∧ (statusCode response ∉ rotationStatusCodes)
          ∧ keyRotator r = rotator
          ∧ key ∈ RequestKeyContext.triedKeys cf
          ∧ (key ∉ RequestKeyContext.rateLimitedKeys cf))
       ∨ (∃ lastError' made',
            (RequestKeyContext.getNextKey cf).1 = None
            ∧ r = exhausted cf lastError' (recorded made') made' rotator)).
Proof.
  revert c lastError lastResponse made.
  induction fuel as [|fuel IH]; intros c lastError lastResponse made Hbetween;
    [done|].
  destruct Hbetween as [Hinv Hlim Hrec]. simpl.
  destruct (RequestKeyContext.getNextKey c) as [[key|] c'] eqn:Hget.
  - pose proof (getNextKey_invariant _ _ _ Hinv Hget) as Hinv'.
    pose proof (getNextKey_spec _ _ _ Hget)
      as (Hk & Hr & _ & Hfresh & Htried & _).
    assert (RequestKeyContext.rateLimitedKeys c'
            ⊆ RequestKeyContext.triedKeys c') as Hlim'.
    { rewrite Hr, Htried. by apply union_subseteq_r'. }
    destruct (send (length made) (request key)) as [response|error] eqn:Hsend.
    + case_decide as Hcode.
      * apply IH. split.
        -- by apply markKeyAsRateLimited_invariant.
        -- simpl. apply union_least; [|done].
           apply singleton_subseteq_l. rewrite Htried.
           by apply elem_of_union_l, elem_of_singleton.
        -- unfold Notions.recorded. rewrite recordedFrom_snoc. simpl.
           rewrite Hsend. by rewrite decide_True.
      * intros [= <-]. simpl. exists c'. do 3 (split; [done|]).
        left. exists response, key. do 3 (split; [done|]). split.
        -- rewrite Htried. by apply elem_of_union_l, elem_of_singleton.
        -- rewrite Hr. intros Hc. by apply Hfresh, Hlim.
    + apply IH. split; [done..|].
      unfold Notions.recorded. rewrite recordedFrom_snoc. simpl.
      by rewrite Hsend.
  - pose proof (getNextKey_invariant _ _ _ Hinv Hget) as Hinv'.
    pose proof (getNextKey_spec _ _ _ Hget) as (Hk & Hr & Hl & Htried).
    intros [= <-]. exists c'.
    assert (RequestKeyContext.rateLimitedKeys c'
            ⊆ RequestKeyContext.triedKeys c') as Hlim'
      by (by rewrite Hr, Htried).
    split.
    { unfold Rotation.exhausted.
      destruct (RequestKeyContext.allTriedKeysRateLimited c'); [done|].
      by destruct lastError. }
    do 2 (split; [done|]). right. exists lastError, made.
    split; [|by rewrite Hrec].
    apply getNextKey_null_iff; [done|].
    rewrite Hk, Htried. apply getNextKey_null_iff; [done|]. by rewrite Hget.
Qed.
End rotation.

Section rotate.
Import Notions.
Variable send : network.
Variables (method path : string) (body : option string).
Variable headers : gmap string string.
Variable rotationStatusCodes : gset Z.
Variable synthetic : Response.

Abbreviation rotate :=
  (Rotation.rotate send method path body headers rotationStatusCodes synthetic).

(** The rotation path always completes. *)
Lemma rotate_total rnd rotator : is_Some (rotate rnd rotator).
Proof.
  unfold Rotation.rotate. apply loop_total.
  cbn [KeyRotator.createRequestContext RequestKeyContext.new
       RequestKeyContext.apiKeys RequestKeyContext.triedKeys].
  rewrite size_empty. lia.
Qed.

Lemma rotate_spec rnd rotator :
  ∃ r cf,
    rotate rnd rotator = Some r
    ∧ context r = Some cf
    ∧ invariant cf
    ∧ RequestKeyContext.rateLimitedKeys cf ⊆ RequestKeyContext.triedKeys cf
    ∧ ((∃ response key,
          outcome r = Return response
          ∧ (statusCode response ∉ rotationStatusCodes)
          ∧ keyRotator r = rotator
          ∧ key ∈ RequestKeyContext.triedKeys cf
          ∧ (key ∉ RequestKeyContext.rateLimitedKeys cf))
       ∨ (∃ lastError made,
            (RequestKeyContext.getNextKey cf).1 = None
            ∧ r = Rotation.exhausted synthetic cf lastError
                    (recorded send rotationStatusCodes made) made rotator)).
Proof.
  destruct (rotate_total rnd rotator) as [r Hr]. exists r.
  pose proof Hr as Hloop. unfold Rotation.rotate in Hloop.
  eapply loop_spec in Hloop; [|split; [apply new_invariant|done|done]].
  destruct Hloop as (cf & ? & ? & ? & ?). by exists cf.
Qed.
End rotate.

Section scenarios.
Import Notions.
Variable send : network.
Variables (method path : string) (body : option string).
Variable headers : gmap string string.
Variable rotationStatusCodes : gset Z.
Variable synthetic : Response.

Abbreviation request := (Rotation.request method path body headers).
Abbreviation rotate :=
  (Rotation.rotate send method path body headers rotationStatusCodes synthetic).

Abbreviation loop :=
  (Rotation.loop send method path body headers rotationStatusCodes synthetic).

Implicit Types (c : RequestKeyContext.t) (made : list call).

(** [getNextKey] hands out the key under the index when it is untried. *)
Lemma getNextKey_at c k :
  size (RequestKeyContext.triedKeys c) < length (RequestKeyContext.apiKeys c) →
  RequestKeyContext.apiKeys c !! RequestKeyContext.currentIndex c = Some k →
  Str k ∉ RequestKeyContext.triedKeys c →
  RequestKeyContext.getNextKey c
  = (Some (Str k),
     {| RequestKeyContext.apiKeys := RequestKeyContext.apiKeys c;
        RequestKeyContext.currentIndex := RequestKeyContext.currentIndex c;
        RequestKeyContext.triedKeys :=
          {[Str k]} ∪ RequestKeyContext.triedKeys c;
        RequestKeyContext.rateLimitedKeys := RequestKeyContext.rateLimitedKeys c;
        RequestKeyContext.lastFailedKeyForThisRequest :=
          RequestKeyContext.lastFailedKeyForThisRequest c |}).
Proof.
  intros Hsize Hk Hfresh. unfold RequestKeyContext.getNextKey.
  rewrite decide_False by lia.
  destruct (length (RequestKeyContext.apiKeys c)) as [|n] eqn:Hlen; [lia|].
  cbn [RequestKeyContext.scan]. unfold RequestKeyContext.keyAt.
  rewrite Hk. by rewrite decide_False.
Qed.

(** The three ways one turn of the loop can go. *)
Lemma loop_rotates fuel c c' key response lastError lastResponse made rotator :
  RequestKeyContext.getNextKey c = (Some key, c') →
  send (length made) (request key) = Resolved response →
  statusCode response ∈ rotationStatusCodes →
  loop (S fuel) c lastError lastResponse made rotator
  = loop fuel (RequestKeyContext.markKeyAsRateLimited key c') lastError
      (Some response) (made ++ [request key]) rotator.
Proof. intros Hget Hsend Hcode. simpl. rewrite Hget, Hsend. by rewrite decide_True. Qed.

Lemma loop_returns fuel c c' key response lastError lastResponse made rotator :
  RequestKeyContext.getNextKey c = (Some key, c') →
  send (length made) (request key) = Resolved response →
  statusCode response ∉ rotationStatusCodes →
  loop (S fuel) c lastError lastResponse made rotator
  = Some {| outcome := Return response; keyRotator := rotator;
            attempts := made ++ [request key]; context := Some c' |}.
Proof. intros Hget Hsend Hcode. simpl. rewrite Hget, Hsend. by rewrite decide_False. Qed.

Lemma loop_exhausts fuel c c' lastError lastResponse made rotator :
  RequestKeyContext.getNextKey c = (None, c') →
  loop (S fuel) c lastError lastResponse made rotator
  = Some (Rotation.exhausted synthetic c' lastError lastResponse made rotator).
Proof. intros Hget. simpl. by rewrite Hget. Qed.

(** A first attempt that is answered with a status outside the rotation
    codes ends the request: one call, and the key pool as it was. *)
Lemma rotate_first_success rnd rotator k rest response :
  RequestKeyContext.smartShuffle rnd (KeyRotator.apiKeys rotator)
    (KeyRotator.lastFailedKey rotator) = k :: rest →
  send 0 (request (Str k)) = Resolved response →
  statusCode response ∉ rotationStatusCodes →
  ∃ cf, rotate rnd rotator
        = Some {| outcome := Return response; keyRotator := rotator;
                  attempts := [request (Str k)]; context := Some cf |}.
Proof.
  intros Hshuffle Hsend Hcode.
  unfold Rotation.rotate, KeyRotator.createRequestContext, RequestKeyContext.new.
  rewrite Hshuffle. context_simpl. eexists.
  erewrite loop_returns; [reflexivity| |exact Hsend|exact Hcode].
  apply getNextKey_at; context_simpl.
  - rewrite size_empty. lia.
  - done.
  - apply not_elem_of_empty.
Qed.

(** Two distinct keys, every attempt answered with a rotation code: both
    keys are tried, the second answer is returned and the second key is
    the one remembered. *)
Lemma rotate_two_keys_all_limited rnd rotator K1 K2 :
  KeyRotator.apiKeys rotator = [K1; K2] → K1 ≠ K2 →
  (∀ n sent, ∃ response, send n sent = Resolved response
                      ∧ statusCode response ∈ rotationStatusCodes) →
  ∃ first second response cf,
    rotate rnd rotator
    = Some {| outcome := Return response;
              keyRotator :=
                KeyRotator.updateLastFailedKey (Some (sentKey second)) rotator;
              attempts := [first; second]; context := Some cf |}
    ∧ send 1 second = Resolved response
    ∧ sentKey first ≠ sentKey second
    ∧ RequestKeyContext.allTriedKeysRateLimited cf = true.
Proof.
  intros Hkeys Hne Hsend.
  pose proof (smartShuffle_Permutation rnd (KeyRotator.apiKeys rotator)
                (KeyRotator.lastFailedKey rotator)) as Hperm.
  rewrite Hkeys in Hperm.
  assert (∃ a b, RequestKeyContext.smartShuffle rnd [K1; K2]
                   (KeyRotator.lastFailedKey rotator) = [a; b] ∧ a ≠ b)
    as (a & b & Hshuffle & Hab).
  { assert (NoDup [K1; K2]) as Hnd.
    { apply NoDup_cons. split; [by intros ->%list_elem_of_singleton|].
      apply NoDup_singleton. }
    rewrite <-Hperm in Hnd.
    pose proof (Permutation_length Hperm) as Hlen.
    destruct (RequestKeyContext.smartShuffle _ _ _) as [|a [|b [|? ?]]];
      simpl in Hlen; try lia.
    exists a, b. split; [done|].
    apply NoDup_cons in Hnd as [Hnotin _].
    intros ->. apply Hnotin. apply list_elem_of_here. }
  destruct (Hsend 0 (request (Str a))) as (r1 & Hs1 & Hc1).
  destruct (Hsend 1 (request (Str b))) as (r2 & Hs2 & Hc2).
  assert (size ({[Str b]} ∪ ({[Str a]} ∪ ∅) : gset jskey) = 2) as Hsize.
  { rewrite (right_id_L ∅ (∪)).
    rewrite size_union by (apply disjoint_singleton_l;
                           intros [= ->]%elem_of_singleton; done).
    by rewrite !size_singleton. }
  exists (request (Str a)), (request (Str b)), r2.
  unfold Rotation.rotate, KeyRotator.createRequestContext, RequestKeyContext.new.
  rewrite Hkeys, Hshuffle. context_simpl. eexists.
  erewrite loop_rotates; [| |exact Hs1|exact Hc1]; cycle 1.
  { apply getNextKey_at; context_simpl;
      [rewrite size_empty; lia|done|apply not_elem_of_empty]. }
  erewrite loop_rotates; [| |exact Hs2|exact Hc2]; cycle 1.
  { apply getNextKey_at; context_simpl.
    - rewrite (right_id_L ∅ (∪)), size_singleton. lia.
    - done.
    - rewrite (right_id_L ∅ (∪)). by intros [= ->]%elem_of_singleton. }
  erewrite loop_exhausts; cycle 1.
  { unfold RequestKeyContext.getNextKey. context_simpl.
    rewrite Hsize. by rewrite decide_True by lia. }
  unfold Rotation.exhausted, RequestKeyContext.allTriedKeysRateLimited,
    RequestKeyContext.getLastFailedKey. context_simpl.
  rewrite Hsize. rewrite !bool_decide_eq_true_2 by lia.
  split; [reflexivity|]. split; [done|]. split; [by intros [= ->]|].
  context_simpl. rewrite Hsize. by rewrite !bool_decide_eq_true_2 by lia.
Qed.
End scenarios.

Section claims_rotation.
Import Notions RotationNotions.

Lemma gemini_rotation_path send rnd rotator method path body headers
    customStatusCodes :
  rotationPath headers →
  GeminiClient.makeRequest send rnd rotator method path body headers
    customStatusCodes
  = Rotation.rotate send method path body headers
      (Rotation.rotationCodes customStatusCodes) GeminiClient.synthetic
      rnd rotator.
Proof.
  unfold rotationPath, GeminiClient.makeRequest.
  by destruct (headers !! "x-goog-api-key") as [[|? ?]|].
Qed.

Lemma rotate_returns_as_specified send method path body headers codes
    synthetic rnd rotator :
  returnsAsSpecified codes
    (Rotation.rotate send method path body headers codes synthetic rnd rotator).
Proof.
  destruct (rotate_spec send method path body headers codes synthetic
              rnd rotator) as (r & cf & Hr & Hcf & _ & _ & Hcases).
  exists r, cf. split; [done|]. split; [done|].
  intros response Hout.
  destruct Hcases as [(response' & key & Hout' & Hcode & _)
                     |(lastError & made & _ & ->)].
  - left. congruence.
  - right. unfold Rotation.exhausted in Hout.
    destruct (RequestKeyContext.allTriedKeysRateLimited cf); [done|].
    by destruct lastError.
Qed.

Lemma rotate_exhausts_as_specified send method path body headers codes
    synthetic rnd rotator :
  exhaustsAsSpecified send codes synthetic rotator
    (Rotation.rotate send method path body headers codes synthetic rnd rotator).
Proof.
  destruct (rotate_spec send method path body headers codes synthetic
              rnd rotator) as (r & cf & Hr & Hcf & _ & Hsub & Hcases).
  exists r, cf. split; [done|]. split; [done|].
  intros Hall.
  destruct Hcases as [(response' & key & _ & _ & _ & Hin & Hnotin)
                     |(lastError & made & Hnull & ->)].
  - (* a key tried and not rate limited: the two sets differ in size *)
    exfalso. unfold RequestKeyContext.allTriedKeysRateLimited in Hall.
    apply andb_true_iff in Hall as [_ Hsize%bool_decide_eq_true].
    assert (RequestKeyContext.rateLimitedKeys cf
            ⊂ RequestKeyContext.triedKeys cf) as Hstrict.
    { split; [done|]. intros Hsup. by apply Hnotin, Hsup. }
    apply subset_size in Hstrict. lia.
  - split; [done|]. unfold Rotation.exhausted. rewrite Hall. done.
Qed.

(** C3: a response returned on the rotation path either has a status
    outside the rotation codes, or is returned while
    [allTriedKeysRateLimited()] holds of the request context. *)
Theorem returned_status_or_all_limited (send : network)
    (rnd : random_source) (rotator : KeyRotator.t) (method path : string)
    (body : option string) (headers : gmap string string)
    (customStatusCodes : option (gset Z)) :
  returnsAsSpecified (Rotation.rotationCodes customStatusCodes)
    (OpenAIClient.makeRequest send rnd rotator method path body headers
       customStatusCodes)
  ∧ (rotationPath headers →
     returnsAsSpecified (Rotation.rotationCodes customStatusCodes)
       (GeminiClient.makeRequest send rnd rotator method path body headers
          customStatusCodes)).
Proof.
  split.
  - apply rotate_returns_as_specified.
  - intros Hpath. rewrite gemini_rotation_path by done.
    apply rotate_returns_as_specified.
Qed.

Lemma returned_status_or_all_limited_witness :
  returnsAsSpecified {[ 429%Z ]}
    (GeminiClient.makeRequest (λ _ _, Resolved (answer 429 "slow down"))
       zeros (KeyRotator.new ["K1"; "K2"]) "POST" "/models" None ∅ None).
Proof.
  apply (returned_status_or_all_limited
           (λ _ _, Resolved (answer 429 "slow down")) zeros
           (KeyRotator.new ["K1"; "K2"]) "POST" "/models" None ∅ None).
  unfold rotationPath. rewrite lookup_empty. exact I.
Defined.

(** C4: when every tried key was rate limited, the loop has used up the
    keys and [makeRequest] returns the last recorded rotation-triggering
    response, or the synthetic response of its flavor, whose status is
    429, and hands the last failed key to the pool; with two distinct
    keys that are both answered 429, there are two attempts, the second
    answer is returned and the second key is remembered. *)
Theorem exhausted_returns_last_recorded (send : network)
    (rnd : random_source) (rotator : KeyRotator.t) (method path : string)
    (body : option string) (headers : gmap string string)
    (customStatusCodes : option (gset Z)) :
  let codes := Rotation.rotationCodes customStatusCodes in
  let openai :=
    OpenAIClient.makeRequest send rnd rotator method path body headers
      customStatusCodes in
  let gemini :=
    GeminiClient.makeRequest send rnd rotator method path body headers
      customStatusCodes in
  (exhaustsAsSpecified send codes OpenAIClient.synthetic rotator openai
   ∧ statusCode OpenAIClient.synthetic = 429%Z)
  ∧ (rotationPath headers →
     exhaustsAsSpecified send codes GeminiClient.synthetic rotator gemini
     ∧ statusCode GeminiClient.synthetic = 429%Z)
  ∧ (∀ K1 K2,
       KeyRotator.apiKeys rotator = [K1; K2] → K1 ≠ K2 →
       429%Z ∈ codes →
       (∀ n sent, ∃ response, send n sent = Resolved response
                              ∧ statusCode response = 429%Z) →
       bothLimited send openai
       ∧ (rotationPath headers → bothLimited send gemini)).
Proof.
  intros codes openai gemini. split; [|split].
  - split; [apply rotate_exhausts_as_specified|done].
  - intros Hpath. split; [|done]. unfold gemini.
    rewrite gemini_rotation_path by done.
    apply rotate_exhausts_as_specified.
  - intros K1 K2 Hkeys Hne Hcode Hsend.
    assert (∀ synthetic,
              bothLimited send
                (Rotation.rotate send method path body headers codes
                   synthetic rnd rotator)) as Hboth.
    { intros synthetic.
      destruct (rotate_two_keys_all_limited send method path body headers
                  codes synthetic rnd rotator K1 K2 Hkeys Hne)
        as (first & second & response & cf & Hrun & Hsecond & Hdiff & _).
      { intros n sent. destruct (Hsend n sent) as (response & ? & Hst).
        exists response. split; [done|]. by rewrite Hst. }
      eexists _, first, second, response. split; [exact Hrun|]. done. }
    split; [apply Hboth|].
    intros Hpath. unfold gemini. rewrite gemini_rotation_path by done.
    apply Hboth.
Qed.

Lemma exhausted_returns_last_recorded_witness :
  bothLimited alwaysLimited
    (OpenAIClient.makeRequest alwaysLimited zeros (KeyRotator.new ["K1"; "K2"])
       "POST" "/chat/completions" None ∅ None)
  ∧ bothLimited alwaysLimited
      (GeminiClient.makeRequest alwaysLimited zeros
         (KeyRotator.new ["K1"; "K2"]) "POST" "/models" None ∅ None)
  ∧ exhaustsAsSpecified alwaysLimited {[ 429%Z ]} GeminiClient.synthetic
      (KeyRotator.new ["K1"; "K2"])
      (GeminiClient.makeRequest alwaysLimited zeros
         (KeyRotator.new ["K1"; "K2"]) "POST" "/models" None ∅ None).
Proof.
  assert (rotationPath ∅) as Hpath
    by (unfold rotationPath; rewrite lookup_empty; exact I).
  split; [|split].
  - destruct (exhausted_returns_last_recorded alwaysLimited zeros
                (KeyRotator.new ["K1"; "K2"]) "POST" "/chat/completions"
                None ∅ None) as (_ & _ & Hscenario).
    refine (proj1 (Hscenario "K1" "K2" _ _ _ _)).
    + reflexivity.
    + discriminate.
    + exact (proj2 (elem_of_singleton 429%Z 429%Z) eq_refl).
    + intros n sent. eexists. split; reflexivity.
  - destruct (exhausted_returns_last_recorded alwaysLimited zeros
                (KeyRotator.new ["K1"; "K2"]) "POST" "/models"
                None ∅ None) as (_ & _ & Hscenario).
    refine (proj2 (Hscenario "K1" "K2" _ _ _ _) Hpath).
    + reflexivity.
    + discriminate.
    + exact (proj2 (elem_of_singleton 429%Z 429%Z) eq_refl).
    + intros n sent. eexists. split; reflexivity.
  - destruct (exhausted_returns_last_recorded alwaysLimited zeros
                (KeyRotator.new ["K1"; "K2"]) "POST" "/models"
                None ∅ None) as (_ & Hgemini & _).
    apply Hgemini. exact Hpath.
Defined.

(** C1 (what the code does at the failing input): with the pool
    [K1, K2, K3], the hint K2 and a first attempt answered 200, the
    request makes one attempt with a key other than K2 and returns the
    answer, and the pool's [lastFailedKey] is still K2 afterwards: the
    return inside the loop does not call [updateLastFailedKey]. *)
Theorem success_keeps_lastFailedKey (rnd : random_source) (text : string) :
  keepsHint text
    (OpenAIClient.makeRequest (λ _ _, Resolved (answer 200 text)) rnd hinted
       "POST" "/chat/completions" None ∅ None)
  ∧ keepsHint text
      (GeminiClient.makeRequest (λ _ _, Resolved (answer 200 text)) rnd hinted
         "POST" "/models/m:generateContent" None ∅ None).
Proof.
  assert (∃ a rest,
            RequestKeyContext.smartShuffle rnd (KeyRotator.apiKeys hinted)
              (KeyRotator.lastFailedKey hinted) = a :: rest
            ∧ a ≠ "K2") as (a & rest & Hshuffle & Ha).
  { assert ("K2" ∈ ["K1"; "K2"; "K3"]) as Hin
      by apply list_elem_of_further, list_elem_of_here.
    assert (NoDup ["K1"; "K2"; "K3"]) as Hpool
      by (apply (bool_decide_unpack _); by vm_compute).
    pose proof (smartShuffle_length rnd ["K1"; "K2"; "K3"] (Some (Str "K2")))
      as Hlen.
    pose proof (smartShuffle_lookup_last rnd ["K1"; "K2"; "K3"] "K2"
                  ltac:(done) Hin) as Hlast.
    pose proof (smartShuffle_NoDup rnd ["K1"; "K2"; "K3"] (Some (Str "K2"))
                  Hpool) as Hnd.
    change (KeyRotator.apiKeys hinted) with ["K1"; "K2"; "K3"].
    change (KeyRotator.lastFailedKey hinted) with (Some (Str "K2")).
    destruct (RequestKeyContext.smartShuffle _ _ _) as [|a [|b [|c [|? ?]]]];
      simpl in Hlen; try lia.
    simpl in Hlast. injection Hlast as ->. exists a, [b; "K2"]. split; [done|].
    apply NoDup_cons in Hnd as [Hnotin _]. intros ->. apply Hnotin.
    apply list_elem_of_further, list_elem_of_here. }
  assert (∀ method path synthetic,
            keepsHint text
              (Rotation.rotate (λ _ _, Resolved (answer 200 text)) method
                 path None ∅ (Rotation.rotationCodes None) synthetic rnd
                 hinted)) as Hrun.
  { intros method path synthetic.
    destruct (rotate_first_success (λ _ _, Resolved (answer 200 text))
                method path None ∅ (Rotation.rotationCodes None) synthetic
                rnd hinted a rest (answer 200 text) Hshuffle eq_refl)
      as (cf & Hrotate).
    { change (200%Z ∉ ({[ 429%Z ]} : gset Z)).
      by intros [=]%elem_of_singleton. }
    eexists _, _. split; [exact Hrotate|]. simpl. repeat split; try done.
    by intros [= ->]. }
  split; [apply Hrun|].
  rewrite gemini_rotation_path; [apply Hrun|].
  unfold rotationPath. by rewrite lookup_empty.
Qed.
End claims_rotation.

(** * Properties of the dispatcher *)

Section empty_pool.
Import Notions RotationNotions DispatchNotions ProxyServer.






End empty_pool.

(** * Properties of the string operations *)

Section trim.
Import JS.
Implicit Types (s t : string) (c : ascii).

Lemma trimStart_length s : String.length (trimStart s) ≤ String.length s.
Proof.
  induction s as [|c s IH]; simpl; [done|].
  destruct (isWhiteSpace c); simpl; lia.
Qed.

Lemma trimEnd_length s : String.length (trimEnd s) ≤ String.length s.
Proof.
  induction s as [|c s IH]; simpl; [done|].
  destruct (trimEnd s); [destruct (isWhiteSpace c)|]; simpl in *; lia.
Qed.

Lemma trim_length s : String.length (trim s) ≤ String.length s.
Proof.
  unfold trim. etrans; [apply trimEnd_length|apply trimStart_length].
Qed.

Lemma trimEnd_idem s : trimEnd (trimEnd s) = trimEnd s.
Proof.
  induction s as [|c s IH]; simpl; [done|].
  destruct (trimEnd s) as [|d t] eqn:Ht.
  - destruct (isWhiteSpace c) eqn:Hc; simpl; [done|]. by rewrite Hc.
  - cbn [trimEnd] in *. fold trimEnd in *. rewrite IH. done.
Qed.

(** A string that starts with a character that is not white space still
    does so after [trimEnd]. *)
Lemma trimStart_trimEnd s : trimStart s = s → trimStart (trimEnd s) = trimEnd s.
Proof.
  destruct s as [|c s]; simpl; [done|].
  destruct (isWhiteSpace c) eqn:Hc.
  - intros Heq. pose proof (trimStart_length s) as Hlen.
    rewrite Heq in Hlen. simpl in Hlen. lia.
  - intros _. destruct (trimEnd s); simpl; by rewrite Hc.
Qed.

Lemma trimStart_idem s : trimStart (trimStart s) = trimStart s.
Proof.
  induction s as [|c s IH]; simpl; [done|].
  destruct (isWhiteSpace c) eqn:Hc; [done|]. simpl. by rewrite Hc.
Qed.

Lemma trim_idem s : trim (trim s) = trim s.
Proof.
  unfold trim.
  rewrite (trimStart_trimEnd (trimStart s)) by apply trimStart_idem.
  apply trimEnd_idem.
Qed.
End trim.

Section directive.
Import Directive.
Implicit Types (kw s t v : string) (c : ascii).

(** Only an opening bracket folds onto the opening bracket. *)
Lemma fold_case_bracket c : JS.fold_case "[" = JS.fold_case c → c = "["%char.
Proof.
  destruct c as [[] [] [] [] [] [] [] []]; vm_compute; intros H;
    first [reflexivity | discriminate H].
Qed.

Lemma matchAt_bracket kw c s :
  c ≠ "["%char → matchAt kw (String c s) = None.
Proof.
  intros Hc. unfold matchAt, opener. simpl.
  case_bool_decide as Hfold; [|done].
  by apply fold_case_bracket in Hfold.
Qed.

Lemma removeFrom_length kw k s :
  String.length (removeFrom kw k s) ≤ String.length s - k.
Proof.
  revert k. induction s as [|c s IH]; intros k; [simpl; lia|].
  cbn [removeFrom]. destruct k as [|k].
  - destruct (matchAt kw (String c s)) as [[v rest]|].
    + specialize (IH (String.length (opener kw) + String.length v)).
      cbn [String.length]. lia.
    + cbn [String.length]. specialize (IH 0). lia.
  - cbn [String.length]. apply IH.
Qed.

Lemma removeAll_length kw s :
  String.length (removeAll kw s) ≤ String.length s.
Proof. unfold removeAll. pose proof (removeFrom_length kw 0 s). lia. Qed.

(** Nothing to remove: the text is returned as it is; something to
    remove: the text gets shorter. *)
Lemma removeAll_none kw s : find kw s = None → removeAll kw s = s.
Proof.
  unfold removeAll. induction s as [|c s IH]; simpl; [done|].
  destruct (matchAt kw (String c s)) as [[v rest]|]; [done|].
  intros Hfind. by rewrite IH.
Qed.

Lemma removeAll_some kw s :
  is_Some (find kw s) → String.length (removeAll kw s) < String.length s.
Proof.
  unfold removeAll. induction s as [|c s IH].
  - simpl. unfold matchAt, opener. simpl. by intros [? ?].
  - cbn [find removeFrom].
    destruct (matchAt kw (String c s)) as [[v rest]|].
    + intros _. cbn [String.length].
      pose proof (removeFrom_length kw
                    (String.length (opener kw) + String.length v) s). lia.
    + intros Hfind. cbn [String.length]. apply IH in Hfind. lia.
Qed.

Lemma find_empty kw : find kw EmptyString = None.
Proof. done. Qed.
End directive.

Section cleaning.
Import ProxyServer HeaderNotions.
Implicit Types (h cleaned : string).

(** What [cleanAuthHeader] returns for a header that is a non-empty
    string. *)
Lemma cleanAuthHeader_string h :
  h ≠ EmptyString →
  cleanAuthHeader (Some h)
  = let cleaned :=
      JS.trim (Directive.removeAll "ACCESS_KEY"
                 (Directive.removeAll "STATUS_CODES" h)) in
    if bool_decide (cleaned = "Bearer") || bool_decide (cleaned = "Bearer ")
    then None else Some cleaned.
Proof. by destruct h. Qed.

(** The result is trimmed, and is never the bare scheme. *)
Lemma cleanAuthHeader_trimmed h cleaned :
  cleanAuthHeader (Some h) = Some cleaned →
  JS.trim cleaned = cleaned ∧ cleaned ≠ "Bearer".
Proof.
  destruct h as [|c h]; [by intros [= <-]|].
  rewrite cleanAuthHeader_string by done. cbv zeta.
  case_bool_decide as Hb; [done|]. case_bool_decide; [done|].
  intros [= <-]. split; [apply trim_idem|done].
Qed.

(** A trimmed header other than the bare scheme is left as it is exactly
    when it holds no directive. *)
Lemma cleanAuthHeader_fixed cleaned :
  JS.trim cleaned = cleaned → cleaned ≠ "Bearer" →
  cleanAuthHeader (Some cleaned) = Some cleaned ↔ directiveFree (Some cleaned).
Proof.
  intros Htrim Hbearer. destruct (decide (cleaned = EmptyString)) as [->|Hne].
  { split; [by split|done]. }
  rewrite cleanAuthHeader_string by done. cbv zeta. simpl. split.
  - intros Hclean.
    destruct (bool_decide _ || bool_decide _); [done|].
    injection Hclean as Hclean.
    pose proof (trim_length
                  (Directive.removeAll "ACCESS_KEY"
                     (Directive.removeAll "STATUS_CODES" cleaned))) as H1.
    pose proof (removeAll_length "ACCESS_KEY"
                  (Directive.removeAll "STATUS_CODES" cleaned)) as H2.
    pose proof (removeAll_length "STATUS_CODES" cleaned) as H3.
    rewrite Hclean in H1.
    destruct (Directive.find "STATUS_CODES" cleaned) as [v|] eqn:Hsc.
    { pose proof (removeAll_some "STATUS_CODES" cleaned) as H4.
      rewrite Hsc in H4. specialize (H4 (mk_is_Some _ _ eq_refl)). lia. }
    split; [done|].
    destruct (Directive.find "ACCESS_KEY" cleaned) as [v|] eqn:Hak; [|done].
    rewrite (removeAll_none _ _ Hsc) in H2.
    rewrite (removeAll_none _ _ Hsc) in H1.
    pose proof (removeAll_some "ACCESS_KEY" cleaned) as H4.
    rewrite Hak in H4. specialize (H4 (mk_is_Some _ _ eq_refl)). lia.
  - intros [Hsc Hak].
    rewrite (removeAll_none _ _ Hsc), (removeAll_none _ _ Hak), Htrim.
    rewrite bool_decide_eq_false_2 by done.
    rewrite bool_decide_eq_false_2; [done|].
    intros ->. by vm_compute in Htrim.
Qed.
End cleaning.

Section segments.
Import Directive ProxyServer HeaderNotions SegmentNotions.
Implicit Types (kw s t v rest : string) (c : ascii) (k : tag)
  (segs : list segment).

Lemma append_cons c s t : String c s +:+ t = String c (s +:+ t).
Proof. done. Qed.

Lemma append_nil t : EmptyString +:+ t = t.
Proof. done. Qed.

Lemma append_assoc s t rest : (s +:+ t) +:+ rest = s +:+ (t +:+ rest).
Proof.
  induction s as [|c s IH]; [done|]. by rewrite !append_cons, IH.
Qed.

Lemma append_length s t :
  String.length (s +:+ t) = String.length s + String.length t.
Proof.
  induction s as [|c s IH]; [done|]. rewrite append_cons. simpl. by rewrite IH.
Qed.

Lemma foldString_length s : String.length (foldString s) = String.length s.
Proof. induction s as [|c s IH]; simpl; [done|]. by rewrite IH. Qed.

Lemma fold_case_idem c : JS.fold_case (JS.fold_case c) = JS.fold_case c.
Proof. destruct c as [[] [] [] [] [] [] [] []]; by vm_compute. Qed.

Lemma includes_foldString s :
  JS.includes (foldString s) "[" = JS.includes s "[".
Proof.
  induction s as [|c s IH]; simpl; [done|]. rewrite IH. f_equal.
  apply bool_decide_ext. split.
  - intros Hc. apply fold_case_bracket. by rewrite Hc.
  - by intros ->.
Qed.

Lemma includes_app s t c :
  JS.includes (s +:+ t) c = JS.includes s c || JS.includes t c.
Proof.
  induction s as [|d s IH]; [done|]. rewrite append_cons. simpl.
  by rewrite IH, orb_assoc.
Qed.

(** Text without an opening bracket is copied. *)
Lemma removeFrom_text kw t rest :
  JS.includes t "[" = false →
  removeFrom kw 0 (t +:+ rest) = t +:+ removeFrom kw 0 rest.
Proof.
  induction t as [|c t IH]; [done|]. cbn [JS.includes].
  intros [Hc Ht]%orb_false_elim. apply bool_decide_eq_false in Hc.
  rewrite !append_cons. cbn [removeFrom].
  rewrite matchAt_bracket by done. by rewrite IH.
Qed.

(** The characters of a match are dropped. *)
Lemma removeFrom_skip kw t rest :
  removeFrom kw (String.length t) (t +:+ rest) = removeFrom kw 0 rest.
Proof.
  induction t as [|c t IH]; [done|]. rewrite append_cons. apply IH.
Qed.

Lemma literal_fold lit t rest :
  foldString lit = foldString t → literal lit (t +:+ rest) = Some rest.
Proof.
  revert t. induction lit as [|p lit IH]; intros [|c t]; try done.
  cbn [foldString]. intros [= Hc Ht]. rewrite append_cons. cbn [literal].
  rewrite bool_decide_eq_true_2 by done. by apply IH.
Qed.

Lemma untilClose_value v rest :
  JS.includes v "]" = false →
  untilClose (v +:+ String "]" rest) = Some (v, rest).
Proof.
  induction v as [|c v IH]; [done|]. cbn [JS.includes].
  intros [Hc Hv]%orb_false_elim. apply bool_decide_eq_false in Hc.
  rewrite append_cons. cbn [untilClose].
  rewrite bool_decide_eq_false_2 by done. by rewrite IH.
Qed.

Lemma foldString_keyword k : foldString (keyword k) = keyword k.
Proof. by destruct k. Qed.

Lemma foldString_app s t : foldString (s +:+ t) = foldString s +:+ foldString t.
Proof.
  induction s as [|c s IH]; [done|]. rewrite !append_cons. simpl.
  by rewrite append_cons, IH.
Qed.

Lemma foldString_idem s : foldString (foldString s) = foldString s.
Proof.
  induction s as [|c s IH]; simpl; [done|]. by rewrite fold_case_idem, IH.
Qed.

Lemma render_bracketed k spelling value segs :
  render (Bracketed k spelling value :: segs)
  = bracketed spelling value +:+ render segs.
Proof.
  unfold bracketed. cbn [render].
  by rewrite !append_cons, !append_nil, !append_assoc, !append_cons, !append_nil.
Qed.

(** A complete directive of the pattern's kind is matched whole. *)
Lemma matchAt_bracketed k spelling value rest :
  wellFormed (Bracketed k spelling value) →
  matchAt (keyword k) (bracketed spelling value +:+ rest)
  = Some (value, rest).
Proof.
  intros (Hspell & Hvalue & _ & Hclose). unfold matchAt, bracketed.
  rewrite !append_assoc.
  rewrite (literal_fold (opener (keyword k)) (String "[" (spelling +:+ ":"))).
  - rewrite append_cons, append_nil.
    rewrite untilClose_value by done. by destruct value.
  - unfold opener. rewrite !append_cons, !append_nil. simpl.
    rewrite !foldString_app. by rewrite Hspell, foldString_keyword.
Qed.

(** A directive of the other kind is not matched. *)
Lemma matchAt_other k k' spelling rest :
  k ≠ k' → foldString spelling = keyword k' →
  matchAt (keyword k) (String "[" (spelling +:+ rest)) = None.
Proof.
  intros Hk Hspell. unfold matchAt, opener.
  destruct spelling as [|c spelling]; [by destruct k'|].
  simpl in Hspell. rewrite !append_cons.
  destruct k, k'; try done; injection Hspell as Hc _; simpl;
    rewrite Hc; by vm_compute.
Qed.

Lemma bracketed_length k spelling value :
  foldString spelling = keyword k →
  String.length (bracketed spelling value)
  = S (String.length (opener (keyword k)) + String.length value).
Proof.
  intros Hspell. unfold bracketed, opener.
  rewrite !append_cons, !append_nil. cbn [String.length].
  rewrite !append_length. cbn [String.length].
  rewrite <-(foldString_length spelling), Hspell. lia.
Qed.

(** One pass removes the directives of its kind and nothing else. *)
Lemma removeAll_render k segs :
  Forall wellFormed segs →
  removeAll (keyword k) (render segs)
  = render (List.filter (λ seg, negb (isTag k seg)) segs).
Proof.
  unfold removeAll. induction 1 as [|seg segs Hseg _ IH]; [done|].
  destruct seg as [t|k' spelling value].
  - cbn [render List.filter isTag negb].
    rewrite removeFrom_text by done. by rewrite IH.
  - rewrite render_bracketed.
    assert (k = k' ∨ k ≠ k') as [<-|Hk]
      by (destruct k, k'; (by left) || (by right)).
    + assert (isTag k (Bracketed k spelling value) = true) as Htag
        by by destruct k.
      cbn [List.filter]. rewrite Htag. cbn [negb]. rewrite <-IH.
      pose proof (matchAt_bracketed k spelling value (render segs) Hseg)
        as Hmatch.
      destruct Hseg as (Hspell & _).
      pose proof (bracketed_length k spelling value Hspell) as Hlen.
      destruct (bracketed spelling value) as [|c body] eqn:Hbody;
        [done|].
      rewrite append_cons in *. cbn [removeFrom]. rewrite Hmatch.
      change (String.length (String c body))
        with (S (String.length body)) in Hlen.
      replace (String.length (opener (keyword k)) + String.length value)
        with (String.length body) by lia.
      apply removeFrom_skip.
    + assert (isTag k (Bracketed k' spelling value) = false) as Htag
        by by destruct k, k'.
      cbn [List.filter]. rewrite Htag. cbn [negb].
      rewrite render_bracketed, <-IH.
      destruct Hseg as (Hspell & _ & Hopen & _).
      unfold bracketed. rewrite !append_cons. cbn [removeFrom].
      rewrite !append_assoc.
      rewrite (matchAt_other k k') by done. f_equal.
      rewrite <-!append_assoc. apply removeFrom_text.
      rewrite !includes_app, Hopen.
      rewrite <-includes_foldString, Hspell. by destruct k'.
Qed.

Lemma filter_tags segs :
  List.filter (λ seg, negb (isTag AccessKey seg))
    (List.filter (λ seg, negb (isTag StatusCodes seg)) segs)
  = List.filter isText segs.
Proof.
  induction segs as [|[t|[] spelling value] segs IH]; simpl; by rewrite ?IH.
Qed.

Lemma filter_wellFormed (keep : segment → bool) segs :
  Forall wellFormed segs → Forall wellFormed (List.filter keep segs).
Proof.
  induction 1 as [|seg segs Hseg _ IH]; simpl; [done|].
  destruct (keep seg); [by constructor|done].
Qed.

(** A header written with complete directives is cleaned to its plain
    text, trimmed. *)
Lemma cleanAuthHeader_render segs :
  Forall wellFormed segs → render segs ≠ EmptyString →
  cleanAuthHeader (Some (render segs))
  = if decide (JS.trim (plainText segs) = "Bearer") then None
    else Some (JS.trim (plainText segs)).
Proof.
  intros Hwf Hne. rewrite cleanAuthHeader_string by done. cbv zeta.
  rewrite (removeAll_render StatusCodes) by done.
  rewrite (removeAll_render AccessKey) by by apply filter_wellFormed.
  rewrite filter_tags. fold (plainText segs).
  case_decide as Hb; [by rewrite bool_decide_eq_true_2|].
  rewrite bool_decide_eq_false_2 by done.
  rewrite bool_decide_eq_false_2; [done|].
  intros Hsp. pose proof (trim_idem (plainText segs)) as Hidem.
  rewrite Hsp in Hidem. by vm_compute in Hidem.
Qed.
End segments.

Section forwarding.
Import ProxyServer HeaderNotions SegmentNotions.

(** The headers handed to the client: the whitelisted ones, and the
    cleaned auth header when it is a non-empty string. *)
Lemma forwardedHeaders_spec (reqHeaders : gmap string string)
    (apiType : string) (authHeader : option string) :
  apiType = "gemini" ∨ apiType = "openai" →
  ∃ base,
    extractRelevantHeaders reqHeaders apiType = inr base
    ∧ forwardedHeaders reqHeaders apiType authHeader
      = inr match cleanAuthHeader authHeader with
            | Some (String c cleaned) =>
                <[authName apiType := String c cleaned]> base
            | _ => base
            end.
Proof.
  intros Hflavor. unfold forwardedHeaders, authName.
  assert (∃ base, extractRelevantHeaders reqHeaders apiType = inr base)
    as [base Hbase].
  { unfold extractRelevantHeaders.
    destruct Hflavor as [-> | ->]; simpl; eauto. }
  exists base. split; [done|]. rewrite Hbase.
  destruct authHeader as [[|c h]|]; [done| |done].
  destruct (cleanAuthHeader (Some (String c h))) as [[|d cleaned]|]; [done| |done].
  by case_decide.
Qed.

(** C8 (counterexample): the header of the README's Gemini example is
    cleaned to the empty string, which is not put among the forwarded
    headers; and a directive can be left in a cleaned header. *)
Lemma forwarding_as_specified_fails :
  ¬ forwardsAsSpecified "gemini" "[STATUS_CODES:429][ACCESS_KEY:your-access-key]"
  ∧ ¬ forwardsAsSpecified "openai" "Bearer [STATUS_CODES[ACCESS_KEY:x]:1]".
Proof.
  split.
  - intros [_ Hforward].
    assert (forwardedHeaders ∅ "gemini"
              (Some "[STATUS_CODES:429][ACCESS_KEY:your-access-key]")
            = inr ∅) as Heval by by vm_compute.
    assert (cleanAuthHeader
              (Some "[STATUS_CODES:429][ACCESS_KEY:your-access-key]")
            = Some EmptyString) as Hclean by by vm_compute.
    rewrite Heval, Hclean in Hforward.
    assert (({[authName "gemini" := EmptyString]} : gmap string string) ≠ ∅) as Hne
      by apply map_non_empty_singleton.
    apply Hne. congruence.
  - intros [Hfree _].
    assert (cleanAuthHeader (Some "Bearer [STATUS_CODES[ACCESS_KEY:x]:1]")
            = Some "Bearer [STATUS_CODES:1]") as Hclean by by vm_compute.
    rewrite Hclean in Hfree. destruct Hfree as [Hsc _].
    by vm_compute in Hsc.
Qed.

(** C8 (amended): a falsy header is returned as it is; a header written
    as plain text and complete directives is cleaned to its plain text,
    trimmed, and dropped when that is the bare scheme; whatever the
    header, a cleaned result is trimmed and is not the bare scheme; and
    the dispatcher puts the cleaned header among the forwarded headers,
    under the name of the flavor, when it is a non-empty string. *)
Theorem cleaned_header_forwarding (reqHeaders : gmap string string)
    (apiType : string) (authHeader : option string) (segs : list segment) :
  (cleanAuthHeader None = None
   ∧ cleanAuthHeader (Some EmptyString) = Some EmptyString)
  ∧ (Forall wellFormed segs → render segs ≠ EmptyString →
     cleanAuthHeader (Some (render segs))
     = if decide (JS.trim (plainText segs) = "Bearer") then None
       else Some (JS.trim (plainText segs)))
  ∧ (∀ h cleaned,
       authHeader = Some h → cleanAuthHeader authHeader = Some cleaned →
       JS.trim cleaned = cleaned ∧ cleaned ≠ "Bearer" ∧ cleaned ≠ "Bearer ")
  ∧ (apiType = "gemini" ∨ apiType = "openai" →
     ∃ base,
       extractRelevantHeaders reqHeaders apiType = inr base
       ∧ forwardedHeaders reqHeaders apiType authHeader
         = inr match cleanAuthHeader authHeader with
               | Some (String c cleaned) =>
                   <[authName apiType := String c cleaned]> base
               | _ => base
               end).
Proof.
  split; [done|]. split; [apply cleanAuthHeader_render|]. split.
  - intros h cleaned -> Hclean.
    apply cleanAuthHeader_trimmed in Hclean as [Htrim Hbearer].
    repeat split; [done..|]. intros ->. by vm_compute in Htrim.
  - apply forwardedHeaders_spec.
Qed.

Lemma cleaned_header_forwarding_witness :
  cleanAuthHeader
    (Some (render [Text "Bearer ";
                   Bracketed StatusCodes "status_codes" "500,502-504";
                   Bracketed AccessKey "ACCESS_KEY" "topsecret";
                   Text "sk-abc"]))
  = Some "Bearer sk-abc"
  ∧ forwardedHeaders ∅ "openai"
      (Some "Bearer [STATUS_CODES:500,502-504][ACCESS_KEY:topsecret]sk-abc")
    = inr {[ "authorization" := "Bearer sk-abc" ]}
  ∧ JS.trim "Bearer sk-abc" = "Bearer sk-abc".
Proof.
  destruct (cleaned_header_forwarding ∅ "openai"
              (Some "Bearer [STATUS_CODES:500,502-504][ACCESS_KEY:topsecret]sk-abc")
              [Text "Bearer ";
               Bracketed StatusCodes "status_codes" "500,502-504";
               Bracketed AccessKey "ACCESS_KEY" "topsecret";
               Text "sk-abc"]) as (_ & Hclean & Htrimmed & Hforward).
  split; [|split].
  - rewrite Hclean; [reflexivity| |discriminate].
    repeat constructor; discriminate.
  - destruct Hforward as (base & Hbase & ->); [by right|].
    injection Hbase as <-. reflexivity.
  - refine (proj1 (Htrimmed _ "Bearer sk-abc" eq_refl _)). reflexivity.
Defined.
End forwarding.

Section twice.
Import Directive ProxyServer HeaderNotions SegmentNotions.
Implicit Types (s : string) (segs : list segment).

Lemma trimStart_includes s c :
  JS.includes s c = false → JS.includes (JS.trimStart s) c = false.
Proof.
  induction s as [|d s IH]; [done|]. cbn [JS.trimStart].
  destruct (JS.isWhiteSpace d); [|done]. cbn [JS.includes].
  intros [_ Hs]%orb_false_elim. by apply IH.
Qed.

Lemma trimEnd_includes s c :
  JS.includes s c = false → JS.includes (JS.trimEnd s) c = false.
Proof.
  induction s as [|d s IH]; [done|]. cbn [JS.trimEnd JS.includes].
  intros [Hd Hs]%orb_false_elim. specialize (IH Hs).
  destruct (JS.trimEnd s); [destruct (JS.isWhiteSpace d)|];
    cbn [JS.includes] in *; by rewrite ?Hd, ?IH.
Qed.

Lemma find_no_bracket kw s : JS.includes s "[" = false → find kw s = None.
Proof.
  induction s as [|c s IH]; [done|]. cbn [JS.includes find].
  intros [Hc Hs]%orb_false_elim. apply bool_decide_eq_false in Hc.
  rewrite matchAt_bracket by done. by apply IH.
Qed.

Lemma plainText_no_bracket segs :
  Forall wellFormed segs → JS.includes (plainText segs) "[" = false.
Proof.
  unfold plainText. induction 1 as [|[t|k spelling value] segs Hseg _ IH];
    [done| |done].
  cbn [List.filter isText render]. by rewrite includes_app, Hseg, IH.
Qed.

(** C9 (counterexample): removing the access-key directive from inside a
    status-code directive puts a new status-code directive together;
    the second cleaning removes it. *)
Lemma cleaning_twice_differs :
  cleanAuthHeader (Some "[STATUS_CODES[ACCESS_KEY:x]:1]")
  = Some "[STATUS_CODES:1]"
  ∧ cleanAuthHeader (Some "[STATUS_CODES:1]") = Some EmptyString
  ∧ ¬ cleansOnce (Some "[STATUS_CODES[ACCESS_KEY:x]:1]").
Proof.
  split; [by vm_compute|]. split; [by vm_compute|].
  unfold cleansOnce. by vm_compute.
Qed.

(** C9 (amended): cleaning an auth header twice yields the same result
    as cleaning it once exactly when the once-cleaned header holds no
    directive; that is so for every header written as plain text and
    complete directives. *)
Theorem cleaning_twice (authHeader : option string) (segs : list segment) :
  (cleansOnce authHeader ↔ directiveFree (cleanAuthHeader authHeader))
  ∧ (Forall wellFormed segs → cleansOnce (Some (render segs))).
Proof.
  assert (∀ header,
            cleansOnce header ↔ directiveFree (cleanAuthHeader header))
    as Hiff.
  { intros header. unfold cleansOnce.
    destruct header as [h|]; [|done].
    destruct (cleanAuthHeader (Some h)) as [cleaned|] eqn:Hclean; [|done].
    apply cleanAuthHeader_trimmed in Hclean as [Htrim Hbearer].
    by apply cleanAuthHeader_fixed. }
  split; [apply Hiff|].
  intros Hwf. apply Hiff.
  destruct (decide (render segs = EmptyString)) as [->|Hne]; [by split|].
  rewrite cleanAuthHeader_render by done. case_decide; [done|].
  assert (JS.includes (JS.trim (plainText segs)) "[" = false) as Hopen.
  { apply trimEnd_includes, trimStart_includes.
    by apply plainText_no_bracket. }
  split; by apply find_no_bracket.
Qed.

Lemma cleaning_twice_witness :
  cleansOnce (Some "Bearer [STATUS_CODES:500,502-504][ACCESS_KEY:topsecret]sk-abc")
  ∧ cleansOnce
      (Some (render [Text "Bearer ";
                     Bracketed AccessKey "access_key" "topsecret"])).
Proof.
  split.
  - apply (cleaning_twice
             (Some "Bearer [STATUS_CODES:500,502-504][ACCESS_KEY:topsecret]sk-abc")
             []).
    vm_compute. split; reflexivity.
  - apply (cleaning_twice None
             [Text "Bearer "; Bracketed AccessKey "access_key" "topsecret"]).
    repeat constructor; discriminate.
Defined.
End twice.

(** * Properties of the status-code parser *)

Section numbers.
Import JS TermNotions.
Implicit Types (s rest : string) (c : ascii) (d : Decimal.uint).






End numbers.

Section parseInt.
Import JS TermNotions.
Implicit Types (s t rest : string) (c : ascii) (d : Decimal.uint).



End parseInt.

Section pieces.
Import JS TermNotions.
Implicit Types (s t pre suffix : string) (c : ascii).

Lemma append_nil_r s : s +:+ EmptyString = s.
Proof. induction s as [|c s IH]; [done|]. by rewrite append_cons, IH. Qed.

Lemma substring_app_l s t : substring 0 (String.length s) (s +:+ t) = s.
Proof.
  induction s as [|c s IH]; [by destruct t|].
  rewrite append_cons. cbn [String.length substring]. by rewrite IH.
Qed.

Lemma substring_app_r s t :
  substring (String.length s) (String.length t) (s +:+ t) = t.
Proof.
  induction s as [|c s IH]; [|by rewrite append_cons].
  rewrite append_nil. cbn [String.length].
  induction t as [|c t IHt]; [done|]. cbn [String.length substring].
  by rewrite IHt.
Qed.

(** A string is its first [k] characters followed by the others. *)
Lemma substring_split s k :
  k ≤ String.length s →
  s = substring 0 k s +:+ substring k (String.length s - k) s.
Proof.
  revert k. induction s as [|c s IH]; intros k Hk.
  - cbn [String.length] in Hk. by replace k with 0 by lia.
  - destruct k as [|k].
    + rewrite Nat.sub_0_r.
      pose proof (substring_app_l (String c s) EmptyString) as Hs.
      rewrite (append_nil_r (String c s)) in Hs. by rewrite Hs.
    + cbn [String.length] in *. cbn [substring]. rewrite append_cons.
      f_equal. apply IH. lia.
Qed.

Lemma endsWith_iff s suffix :
  endsWith s suffix = true ↔ ∃ pre, s = pre +:+ suffix.
Proof.
  unfold endsWith. rewrite andb_true_iff, !bool_decide_eq_true. split.
  - intros [Hlen Hsub].
    exists (substring 0 (String.length s - String.length suffix) s).
    etrans;
      [apply (substring_split s (String.length s - String.length suffix)); lia|].
    f_equal.
    replace (String.length s - (String.length s - String.length suffix))
      with (String.length suffix) by lia.
    exact Hsub.
  - intros [pre ->]. rewrite append_length. split; [lia|].
    replace (String.length pre + String.length suffix - String.length suffix)
      with (String.length pre) by lia.
    apply substring_app_r.
Qed.

Lemma endsWith_app pre suffix : endsWith (pre +:+ suffix) suffix = true.
Proof. apply endsWith_iff. by exists pre. Qed.

(** A suffix brings its characters with it. *)
Lemma endsWith_includes s suffix c :
  includes s c = false → includes suffix c = true →
  endsWith s suffix = false.
Proof.
  intros Hs Hsuffix. apply not_true_is_false.
  intros [pre ->]%endsWith_iff.
  rewrite includes_app, Hsuffix, orb_true_r in Hs. discriminate Hs.
Qed.


Lemma split_whole c s : includes s c = false → split c s = [s].
Proof.
  induction s as [|d s IH]; [done|]. cbn [includes split].
  intros [Hd Hs]%orb_false_elim. rewrite Hd. by rewrite IH.
Qed.

Lemma split_app c s t :
  includes s c = false → split c (s +:+ String c t) = s :: split c t.
Proof.
  induction s as [|d s IH].
  - intros _. rewrite append_nil. cbn [split].
    by rewrite bool_decide_eq_true_2.
  - cbn [includes]. intros [Hd Hs]%orb_false_elim.
    rewrite append_cons. cbn [split]. rewrite Hd. by rewrite IH.
Qed.






Lemma letter_not_digit c : isLetter c = true → digit 10 c = None.
Proof.
  destruct c as [[] [] [] [] [] [] [] []]; vm_compute; intros H;
    first [reflexivity | discriminate H].
Qed.

End pieces.

Section terms.
Import JS Directive ProxyServer SegmentNotions TermNotions.
Implicit Types (s t pre post spec part : string) (c : ascii)
  (codes : gset Z) (x : Z).

Lemma elem_of_addRange x (first last : Z) codes :
  x ∈ addRange first last codes ↔ (first ≤ x ≤ last)%Z ∨ x ∈ codes.
Proof.
  unfold addRange. rewrite elem_of_union, elem_of_list_to_set, elem_of_seqZ.
  split; (intros [?|?]; [left; lia|by right]).
Qed.











End terms.

Section claims_terms.
Import JS Directive ProxyServer SegmentNotions TermNotions.



End claims_terms.

(** * The attempts of one request *)

Section trace.
Import Notions TraceNotions.
Variable send : network.
Variables (method path : string) (body : option string).
Variable headers : gmap string string.
Variable rotationStatusCodes : gset Z.
Variable synthetic : Response.

Abbreviation request := (Rotation.request method path body headers).
Abbreviation loop :=
  (Rotation.loop send method path body headers rotationStatusCodes synthetic).
Abbreviation rotate :=
  (Rotation.rotate send method path body headers rotationStatusCodes synthetic).
Abbreviation tracing :=
  (tracing send method path body headers rotationStatusCodes).
Abbreviation traced :=
  (traced send method path body headers rotationStatusCodes synthetic).
Abbreviation limitedKeys made :=
  (omap (limitedKey rotationStatusCodes) (settled send made)).
Abbreviation rejections made := (omap rejection (settled send made)).

Implicit Types (c : RequestKeyContext.t) (made : list call).

Lemma settled_snoc made a :
  settled send (made ++ [a])
  = settled send made ++ [(a, send (length made) a)].
Proof.
  unfold settled. rewrite imap_app. simpl. by rewrite Nat.add_0_r.
Qed.

Lemma settled_length made : length (settled send made) = length made.
Proof. unfold settled. by rewrite length_imap. Qed.

Lemma settled_lookup made i p :
  settled send made !! i = Some p ↔
  ∃ a, made !! i = Some a ∧ p = (a, send i a).
Proof.
  unfold settled. rewrite list_lookup_imap.
  destruct (made !! i) as [a|]; simpl; split.
  - intros [= <-]. by exists a.
  - by intros (? & [= <-] & ->).
  - done.
  - by intros (? & ? & _).
Qed.

Lemma omap_settled_snoc {B} (f : call * attempt → option B) made a :
  omap f (settled send (made ++ [a]))
  = omap f (settled send made) ++ option_list (f (a, send (length made) a)).
Proof.
  rewrite settled_snoc, omap_app. simpl. by destruct (f _).
Qed.

(** The keys answered with a rotation code are among the keys sent, in
    the same order. *)
Lemma limitedKeys_sublist made :
  limitedKeys made `sublist_of` sentKey <$> made.
Proof.
  induction made as [|a made IH] using rev_ind; [done|].
  rewrite settled_snoc, omap_app, fmap_app. simpl.
  apply sublist_app; [done|].
  unfold limitedKey. simpl. destruct (send _ _); [|by apply sublist_nil_l].
  case_decide; [done|by apply sublist_nil_l].
Qed.

(** Every attempt that lets the loop go on was rejected or limited, not
    both. *)
Lemma goesOn_count made :
  Forall (λ p, goesOn rotationStatusCodes p.2 = true) (settled send made) →
  length (limitedKeys made) + length (rejections made) = length made.
Proof.
  induction made as [|a made IH] using rev_ind; [done|].
  rewrite settled_snoc, Forall_app, Forall_singleton.
  intros [Hmade Ha]. specialize (IH Hmade).
  rewrite !omap_app, !length_app.
  set (n1 := length (limitedKeys made)) in *.
  set (n2 := length (rejections made)) in *.
  unfold limitedKey, rejection. simpl in *.
  destruct (send _ _) as [response|error]; simpl in *.
  - apply bool_decide_eq_true in Ha. rewrite decide_True by done. simpl. lia.
  - simpl. lia.
Qed.

Lemma limitedResponse_length made :
  length (omap (limitedResponse rotationStatusCodes) (settled send made))
  = length (limitedKeys made).
Proof.
  induction made as [|a made IH] using rev_ind; [done|].
  rewrite settled_snoc, !omap_app, !length_app, IH.
  set (n1 := length (limitedKeys made)). f_equal.
  unfold limitedKey, limitedResponse. simpl.
  destruct (send _ _); [|done]. case_decide; done.
Qed.

Lemma last_length {A} (l : list A) : last l = None ↔ length l = 0.
Proof. destruct l using rev_ind; [done|]. rewrite last_snoc, length_app. simpl. split; [done|lia]. Qed.

(** The code after the loop, when the context and the attempts agree. *)
Lemma exhausted_traced c lastError lastResponse made rotator :
  tracing c lastError lastResponse made →
  (RequestKeyContext.getNextKey c).1 = None →
  traced rotator (RequestKeyContext.apiKeys c)
    (Rotation.exhausted synthetic c lastError lastResponse made rotator).
Proof.
  intros [Hinv Htried Hnd Hreq Hon Herr Hresp Hlim Hlast] Hnull.
  assert (size (RequestKeyContext.triedKeys c) = length made) as Hsize.
  { rewrite Htried, size_list_to_set, length_fmap; done. }
  assert (size (RequestKeyContext.rateLimitedKeys c)
          = length (limitedKeys made)) as Hsize'.
  { rewrite Hlim, size_list_to_set; [done|].
    eapply sublist_NoDup; [done|apply limitedKeys_sublist]. }
  pose proof (goesOn_count made Hon) as Hcount.
  assert (Forall (λ a, ∃ s, sentKey a = Str s ∧ s ∈ RequestKeyContext.apiKeys c)
            made) as Hpool.
  { apply Forall_forall. intros a Ha.
    apply (tried_in_pool _ Hinv). rewrite Htried.
    apply elem_of_list_to_set, list_elem_of_fmap. by exists a. }
  assert (∀ s, s ∈ RequestKeyContext.apiKeys c → Str s ∈ sentKey <$> made)
    as Hall.
  { intros s Hs.
    pose proof (proj1 (getNextKey_null_iff _ Hinv) Hnull s Hs) as Hin.
    rewrite Htried in Hin. by apply elem_of_list_to_set in Hin. }
  unfold Rotation.exhausted, RequestKeyContext.allTriedKeysRateLimited,
    RequestKeyContext.getLastFailedKey.
  rewrite Hsize, Hsize', Hlast.
  pose proof (limitedResponse_length made) as Hlen.
  destruct (last (rejections made)) as [error|] eqn:Hrej.
  - assert (length (rejections made) ≠ 0) as Hne.
    { intros H0. apply last_length in H0. congruence. }
    rewrite (bool_decide_eq_false_2 (length (limitedKeys made) = length made))
      by lia.
    rewrite andb_false_r, Herr.
    split; [by exists c|done..|]. right. simpl. rewrite Hrej.
    do 3 (split; [done|]).
    by destruct (last (omap (limitedResponse rotationStatusCodes) _)).
  - apply last_length in Hrej as Hrej'.
    rewrite Herr.
    destruct (decide (length made = 0)) as [Hz|Hnz].
    + rewrite (bool_decide_eq_false_2 (0 < length made)) by lia. simpl.
      split; [by exists c|done..|]. right. simpl. rewrite Hrej.
      do 3 (split; [done|]).
      destruct (last (omap (limitedResponse rotationStatusCodes) _)) eqn:Hl;
        [|done].
      assert (length (omap (limitedResponse rotationStatusCodes)
                        (settled send made)) ≠ 0) as Hne.
      { intros H0. apply last_length in H0. congruence. }
      lia.
    + rewrite (bool_decide_eq_true_2 (0 < length made)) by lia.
      rewrite (bool_decide_eq_true_2 (length (limitedKeys made) = length made))
        by lia.
      simpl. split; [by exists c|done..|]. right. simpl. rewrite Hrej, Hresp.
      do 3 (split; [done|]).
      destruct (last (omap (limitedResponse rotationStatusCodes) _)) eqn:Hl;
        [done|].
      apply last_length in Hl. lia.
Qed.

Lemma loop_traced fuel c lastError lastResponse made rotator r :
  tracing c lastError lastResponse made →
  loop fuel c lastError lastResponse made rotator = Some r →
  traced rotator (RequestKeyContext.apiKeys c) r.
Proof.
  revert c lastError lastResponse made.
  induction fuel as [|fuel IH]; intros c lastError lastResponse made Htr;
    [done|].
  simpl.
  destruct (RequestKeyContext.getNextKey c) as [[key|] c'] eqn:Hget.
  - destruct Htr as [Hinv Htried Hnd Hreq Hon Herr Hresp Hlim Hlast].
    pose proof (getNextKey_invariant _ _ _ Hinv Hget) as Hinv'.
    pose proof (getNextKey_spec _ _ _ Hget)
      as (Hk & Hr & Hl & Hfresh & Htried' & _).
    pose proof (getNextKey_in_pool _ _ _ Hinv Hget) as (s & -> & Hs).
    assert (NoDup (sentKey <$> made ++ [request (Str s)])) as Hnd'.
    { rewrite fmap_app. apply NoDup_app. split; [done|]. split.
      - intros k Hk1 ->%list_elem_of_singleton. apply Hfresh.
        rewrite Htried. by apply elem_of_list_to_set.
      - apply NoDup_singleton. }
    assert (RequestKeyContext.triedKeys c'
            = list_to_set (sentKey <$> made ++ [request (Str s)])) as Htr'.
    { rewrite Htried', Htried, fmap_app, list_to_set_app_L. simpl.
      rewrite (right_id_L ∅ (∪)). apply (comm_L (∪)). }
    assert (Forall (λ a, a = request (sentKey a)) (made ++ [request (Str s)]))
      as Hreq'.
    { apply Forall_app. split; [done|]. by apply Forall_singleton. }
    destruct (send (length made) (request (Str s))) as [response|error]
      eqn:Hsend.
    + case_decide as Hcode.
      * intros Hloop. apply IH in Hloop;
          [cbn [RequestKeyContext.markKeyAsRateLimited
                RequestKeyContext.apiKeys] in Hloop; by rewrite <-Hk|].
        split.
        -- by apply markKeyAsRateLimited_invariant.
        -- done.
        -- done.
        -- done.
        -- rewrite settled_snoc, Forall_app, Forall_singleton.
           split; [done|]. simpl. rewrite Hsend. simpl.
           by apply bool_decide_eq_true.
        -- rewrite omap_settled_snoc, Hsend. simpl. by rewrite app_nil_r.
        -- rewrite omap_settled_snoc, Hsend. unfold limitedResponse at 2.
           simpl. rewrite decide_True by done. simpl.
           by rewrite last_snoc.
        -- rewrite omap_settled_snoc, Hsend. unfold limitedKey at 2.
           simpl. rewrite decide_True by done. simpl.
           rewrite list_to_set_app_L, Hr, Hlim. simpl.
           rewrite (right_id_L ∅ (∪)). apply (comm_L (∪)).
        -- rewrite omap_settled_snoc, Hsend. unfold limitedKey at 2.
           simpl. rewrite decide_True by done. simpl.
           by rewrite last_snoc.
      * intros [= <-]. rewrite <-Hk. split; simpl; [|done| |done|].
        -- exists c'. split; [done|]. split; [done|]. split.
           ++ rewrite Htr', size_list_to_set, length_fmap; done.
           ++ rewrite omap_settled_snoc, Hsend. unfold limitedKey at 2.
              simpl. rewrite decide_False by done. simpl.
              rewrite app_nil_r, Hr, Hlim, size_list_to_set; [done|].
              eapply sublist_NoDup; [exact Hnd|apply limitedKeys_sublist].
        -- apply Forall_forall. intros a Ha.
           apply (tried_in_pool _ Hinv'). rewrite Htr'.
           apply elem_of_list_to_set, list_elem_of_fmap. by exists a.
        -- left. by exists made, (request (Str s)), response.
    + intros Hloop. apply IH in Hloop; [by rewrite <-Hk|]. split.
      * done.
      * done.
      * done.
      * done.
      * rewrite settled_snoc, Forall_app, Forall_singleton.
        split; [done|]. simpl. by rewrite Hsend.
      * rewrite omap_settled_snoc, Hsend. simpl. by rewrite last_snoc.
      * rewrite omap_settled_snoc, Hsend. simpl. by rewrite app_nil_r.
      * rewrite omap_settled_snoc, Hsend. simpl. by rewrite app_nil_r, Hr.
      * rewrite omap_settled_snoc, Hsend. simpl. by rewrite app_nil_r, Hl.
  - intros [= <-].
    pose proof (getNextKey_spec _ _ _ Hget) as (Hk & Hr & Hl & Htried').
    rewrite <-Hk. apply exhausted_traced.
    + destruct Htr. split; try done.
      * by eapply getNextKey_invariant.
      * congruence.
      * congruence.
      * congruence.
    + destruct Htr as [Hinv ?]. apply getNextKey_null_iff.
      { by eapply getNextKey_invariant. }
      rewrite Hk, Htried'. apply getNextKey_null_iff; [done|]. by rewrite Hget.
Qed.

(** The whole rotation: the run exists, and its attempts are keys of the
    pool. *)
Lemma rotate_traced rnd rotator :
  ∃ r, rotate rnd rotator = Some r
       ∧ traced rotator (KeyRotator.apiKeys rotator) r.
Proof.
  destruct (rotate_total send method path body headers rotationStatusCodes
              synthetic rnd rotator) as [r Hr].
  exists r. split; [done|].
  unfold Rotation.rotate in Hr. apply loop_traced in Hr.
  - destruct Hr as [H0 H1 H2 H3 H4]. split; [|done| |done|].
    + destruct H0 as (cf & ? & Hlen & ?). exists cf. split; [done|].
      split; [|done]. rewrite Hlen. simpl. apply smartShuffle_length.
    + eapply Forall_impl; [exact H2|]. intros a (s & Hs & Hin).
      exists s. split; [done|]. simpl in Hin.
      by rewrite smartShuffle_Permutation in Hin.
    + destruct H4 as [H4|(H4 & H5 & H6)]; [by left|right].
      split; [done|]. split; [|done].
      intros s Hs. apply H5. simpl.
      by rewrite smartShuffle_Permutation.
  - split; try done; try apply new_invariant.
    + apply NoDup_nil_2.
Qed.
End trace.

Section attempts.
Import Notions TraceNotions.
Variable send : network.
Variables (method path : string) (body : option string).
Variable headers : gmap string string.
Variable rotationStatusCodes : gset Z.
Variable synthetic : Response.

Abbreviation rotate :=
  (Rotation.rotate send method path body headers rotationStatusCodes synthetic).
Abbreviation traced :=
  (traced send method path body headers rotationStatusCodes synthetic).
Abbreviation onward :=
  (Forall (λ p : call * attempt, goesOn rotationStatusCodes p.2 = true)).

Lemma goesOn_Resolved response :
  goesOn rotationStatusCodes (Resolved response) = false ↔
  statusCode response ∉ rotationStatusCodes.
Proof. simpl. by rewrite bool_decide_eq_false. Qed.

(** A run that ended inside the loop has a last attempt that did not let
    the loop go on. *)
Lemma onward_snoc made a response :
  send (length made) a = Resolved response →
  statusCode response ∉ rotationStatusCodes →
  ¬ onward (settled send (made ++ [a])).
Proof.
  intros Hsend Hcode. rewrite settled_snoc, Forall_app, Forall_singleton.
  simpl. rewrite Hsend. intros [_ Hon]. simpl in Hon.
  by apply bool_decide_eq_true in Hon.
Qed.

Lemma onward_lookup made :
  onward (settled send made) ↔
  ∀ i a, made !! i = Some a → goesOn rotationStatusCodes (send i a) = true.
Proof.
  rewrite Forall_lookup. split.
  - intros H i a Ha. apply (H i (a, send i a)).
    apply settled_lookup. by exists a.
  - intros H i p (a & Ha & ->)%settled_lookup. by apply H.
Qed.

Lemma last_omap_Some {A B} (f : A → option B) (l : list A) y :
  last (omap f l) = Some y → ∃ i x, l !! i = Some x ∧ f x = Some y.
Proof.
  intros Hl. rewrite last_lookup in Hl.
  apply list_elem_of_lookup_2, list_elem_of_omap in Hl as (x & Hx & Hf).
  apply list_elem_of_lookup_1 in Hx as [i Hi]. by exists i, x.
Qed.

(** When every attempt was answered with a rotation code, the last of
    the answers kept is the answer to the last attempt. *)
Lemma last_limitedResponse made :
  onward (settled send made) →
  omap rejection (settled send made) = [] →
  last (omap (limitedResponse rotationStatusCodes) (settled send made))
  = last made ≫= λ a,
      match send (length made - 1) a with
      | Resolved response => Some response
      | Rejected _ => None
      end.
Proof.
  destruct made as [|a made _] using rev_ind; [done|].
  rewrite !omap_settled_snoc, last_snoc, length_app. simpl.
  replace (length made + 1 - 1) with (length made) by lia.
  rewrite settled_snoc, Forall_app, Forall_singleton. simpl.
  intros [_ Hon] Hrej. apply app_eq_nil in Hrej as [_ Hrej].
  destruct (send (length made) a) as [response|error]; [|done].
  simpl in *. apply bool_decide_eq_true in Hon.
  unfold limitedResponse. simpl. rewrite decide_True by done. simpl.
  by rewrite last_snoc.
Qed.

Lemma rotate_attemptsPoolKeys rnd rotator :
  attemptsPoolKeys method path body headers (KeyRotator.apiKeys rotator)
    (rotate rnd rotator).
Proof.
  destruct (rotate_traced send method path body headers rotationStatusCodes
              synthetic rnd rotator) as (r & Hr & [_ Hnd Hpool Hreq _]).
  exists r. split; [done|]. split; [done|]. split.
  - apply Forall_forall. intros a Ha.
    rewrite Forall_forall in Hpool, Hreq.
    destruct (Hpool a Ha) as (s & Hs & Hin). exists s. split; [done|].
    rewrite (Hreq a Ha), Hs. done.
  - rewrite <-(length_fmap sentKey), <-(length_fmap Str (KeyRotator.apiKeys _)).
    apply submseteq_length, NoDup_submseteq; [done|].
    intros k (a & -> & Ha)%list_elem_of_fmap.
    rewrite Forall_forall in Hpool.
    destruct (Hpool a Ha) as (s & -> & Hin).
    apply list_elem_of_fmap. by exists s.
Qed.


Lemma rotate_returnsAnAnswer rnd rotator :
  returnsAnAnswer send (rotate rnd rotator).
Proof.
  destruct (rotate_traced send method path body headers rotationStatusCodes
              synthetic rnd rotator) as (r & Hr & [_ _ _ _ Hend]).
  exists r. split; [done|]. intros response Hout.
  destruct Hend as [(made & a & response' & Hatt & Hon & Hsend & Hcode & Hout' & _)
                   |(Hon & _ & _ & Hout')].
  - exists (length made), a. rewrite Hatt. split.
    + by rewrite lookup_app_r, Nat.sub_diag by lia.
    + congruence.
  - rewrite Hout' in Hout.
    destruct (last (omap (limitedResponse _) _)) as [response'|] eqn:Hresp;
      destruct (last (omap rejection _)); try done.
    injection Hout as ->.
    apply last_omap_Some in Hresp as (i & p & Hp & Hf).
    apply settled_lookup in Hp as (a & Ha & ->).
    exists i, a. split; [done|].
    unfold limitedResponse in Hf. simpl in Hf.
    destruct (send i a); [|done]. case_decide; congruence.
Qed.


Lemma rotate_returnsLastLimited rnd rotator :
  returnsLastLimited send rotationStatusCodes (KeyRotator.apiKeys rotator)
    (rotate rnd rotator).
Proof.
  destruct (rotate_traced send method path body headers rotationStatusCodes
              synthetic rnd rotator) as (r & Hr & [_ _ _ _ Hend]).
  exists r. split; [done|]. intros response Hout Hcode.
  destruct Hend as [(made & a & response' & _ & _ & _ & Hcode' & Hout' & _)
                   |(Hon & _ & _ & Hout')]; [congruence|].
  rewrite Hout' in Hout.
  pose proof (goesOn_count send rotationStatusCodes _ Hon) as Hcount.
  destruct (last (omap rejection _)) as [error|] eqn:Hrej;
    [by destruct (last (omap (limitedResponse _) _))|].
  apply last_None in Hrej.
  rewrite last_limitedResponse in Hout by done.
  destruct (last (attempts r)) as [a|] eqn:Hlast; [|done]. simpl in Hout.
  split.
  - intros i b Hb.
    pose proof (proj1 (onward_lookup _) Hon _ _ Hb) as Hgo.
    destruct (send i b) as [answer|error] eqn:Hsend.
    + exists answer. split; [done|]. by apply bool_decide_eq_true in Hgo.
    + exfalso.
      assert (error ∈ omap rejection (settled send (attempts r))) as Hin.
      { apply list_elem_of_omap. exists (b, send i b). split.
        - apply list_elem_of_lookup. exists i. apply settled_lookup. by exists b.
        - unfold rejection. simpl. by rewrite Hsend. }
      rewrite Hrej in Hin. by apply not_elem_of_nil in Hin.
  - exists a. split; [done|].
    destruct (send _ a); [|done]. congruence.
Qed.

Lemma rotate_triesEveryKey rnd rotator :
  triesEveryKey send rotationStatusCodes (KeyRotator.apiKeys rotator)
    (rotate rnd rotator).
Proof.
  destruct (rotate_traced send method path body headers rotationStatusCodes
              synthetic rnd rotator) as (r & Hr & [_ _ _ _ Hend]).
  exists r. split; [done|]. intros Hall.
  destruct Hend as [(made & a & response & Hatt & _ & Hsend & Hcode & _)
                   |(_ & Hkeys & _)]; [|done].
  rewrite Hatt in Hall. by eapply onward_snoc in Hall.
Qed.

Lemma rotate_remembersLastLimited rnd rotator :
  remembersLastLimited send rotationStatusCodes rotator (rotate rnd rotator).
Proof.
  destruct (rotate_traced send method path body headers rotationStatusCodes
              synthetic rnd rotator) as (r & Hr & [_ _ _ _ Hend]).
  exists r. split; [done|].
  destruct Hend as [(made & a & response & Hatt & _ & Hsend & Hcode & _ & ->)
                   |(Hon & _ & -> & _)].
  - split; [done|].
    destruct (forallb _ _) eqn:Hall; [|done].
    assert (onward (settled send (attempts r))) as Hon.
    { apply Forall_forall. intros p Hp%list_elem_of_In.
      by apply (proj1 (forallb_forall _ _) Hall). }
    rewrite Hatt in Hon. by eapply onward_snoc in Hon.
  - split; [done|]. simpl.
    rewrite (proj2 (forallb_forall _ _)); [done|].
    intros p Hp%list_elem_of_In. by apply (proj1 (Forall_forall _ _) Hon).
Qed.
End attempts.

(** * What a request does with the pool, in terms of its attempts *)

Section requests.
Import Notions RotationNotions TraceNotions.

(** Each attempt of a rotated request is the caller's request (same
    method, path, body and headers, key not sent as a header) with a key
    of the pool, no key is sent twice, and there are at most as many
    attempts as the pool has keys. *)
Theorem attempts_are_distinct_pool_keys (send : network) (rnd : random_source)
    (rotator : KeyRotator.t) (method path : string) (body : option string)
    (headers : gmap string string) (customStatusCodes : option (gset Z)) :
  attemptsPoolKeys method path body headers (KeyRotator.apiKeys rotator)
    (OpenAIClient.makeRequest send rnd rotator method path body headers
       customStatusCodes)
  ∧ (rotationPath headers →
     attemptsPoolKeys method path body headers (KeyRotator.apiKeys rotator)
       (GeminiClient.makeRequest send rnd rotator method path body headers
          customStatusCodes)).
Proof.
  split.
  - apply rotate_attemptsPoolKeys.
  - intros Hpath. rewrite gemini_rotation_path by done.
    apply rotate_attemptsPoolKeys.
Qed.

Lemma attempts_are_distinct_pool_keys_witness :
  attemptsPoolKeys "POST" "/models" None ∅ ["K1"; "K2"]
    (GeminiClient.makeRequest alwaysLimited zeros
       (KeyRotator.new ["K1"; "K2"]) "POST" "/models" None ∅ None).
Proof.
  apply (attempts_are_distinct_pool_keys alwaysLimited zeros
           (KeyRotator.new ["K1"; "K2"]) "POST" "/models" None ∅ None).
  unfold rotationPath. rewrite lookup_empty. exact I.
Defined.



(** Whatever [makeRequest] returns on the rotation path is the upstream's
    answer to one of its attempts: the synthetic response after
    [lastResponse ||] is never the one returned. *)
Theorem returned_response_is_an_answer (send : network) (rnd : random_source)
    (rotator : KeyRotator.t) (method path : string) (body : option string)
    (headers : gmap string string) (customStatusCodes : option (gset Z)) :
  returnsAnAnswer send
    (OpenAIClient.makeRequest send rnd rotator method path body headers
       customStatusCodes)
  ∧ (rotationPath headers →
     returnsAnAnswer send
       (GeminiClient.makeRequest send rnd rotator method path body headers
          customStatusCodes)).
Proof.
  split.
  - apply rotate_returnsAnAnswer.
  - intros Hpath. rewrite gemini_rotation_path by done.
    apply rotate_returnsAnAnswer.
Qed.

Lemma returned_response_is_an_answer_witness :
  returnsAnAnswer alwaysLimited
    (GeminiClient.makeRequest alwaysLimited zeros
       (KeyRotator.new ["K1"; "K2"]) "POST" "/models" None ∅ None).
Proof.
  apply (returned_response_is_an_answer alwaysLimited zeros
           (KeyRotator.new ["K1"; "K2"]) "POST" "/models" None ∅ None).
  unfold rotationPath. rewrite lookup_empty. exact I.
Defined.



(** When [makeRequest] returns a response whose status is a rotation
    code, every attempt of the request was answered with a rotation code
    (none was rejected) and the response is the answer to the last
    attempt. *)
Theorem rotation_code_returned_after_all_limited (send : network) (rnd : random_source)
    (rotator : KeyRotator.t) (method path : string) (body : option string)
    (headers : gmap string string) (customStatusCodes : option (gset Z)) :
  returnsLastLimited send (Rotation.rotationCodes customStatusCodes)
    (KeyRotator.apiKeys rotator)
    (OpenAIClient.makeRequest send rnd rotator method path body headers
       customStatusCodes)
  ∧ (rotationPath headers →
     returnsLastLimited send (Rotation.rotationCodes customStatusCodes)
    (KeyRotator.apiKeys rotator)
       (GeminiClient.makeRequest send rnd rotator method path body headers
          customStatusCodes)).
Proof.
  split.
  - apply rotate_returnsLastLimited.
  - intros Hpath. rewrite gemini_rotation_path by done.
    apply rotate_returnsLastLimited.
Qed.

Lemma rotation_code_returned_after_all_limited_witness :
  returnsLastLimited alwaysLimited {[ 429%Z ]} ["K1"; "K2"]
    (GeminiClient.makeRequest alwaysLimited zeros
       (KeyRotator.new ["K1"; "K2"]) "POST" "/models" None ∅ None).
Proof.
  apply (rotation_code_returned_after_all_limited alwaysLimited zeros
           (KeyRotator.new ["K1"; "K2"]) "POST" "/models" None ∅ None).
  unfold rotationPath. rewrite lookup_empty. exact I.
Defined.

(** When no attempt was answered with a status outside the rotation
    codes, every key of the pool has been attempted by the time
    [makeRequest] completes. *)
Theorem gives_up_after_every_key (send : network) (rnd : random_source)
    (rotator : KeyRotator.t) (method path : string) (body : option string)
    (headers : gmap string string) (customStatusCodes : option (gset Z)) :
  triesEveryKey send (Rotation.rotationCodes customStatusCodes)
    (KeyRotator.apiKeys rotator)
    (OpenAIClient.makeRequest send rnd rotator method path body headers
       customStatusCodes)
  ∧ (rotationPath headers →
     triesEveryKey send (Rotation.rotationCodes customStatusCodes)
    (KeyRotator.apiKeys rotator)
       (GeminiClient.makeRequest send rnd rotator method path body headers
          customStatusCodes)).
Proof.
  split.
  - apply rotate_triesEveryKey.
  - intros Hpath. rewrite gemini_rotation_path by done.
    apply rotate_triesEveryKey.
Qed.

Lemma gives_up_after_every_key_witness :
  triesEveryKey alwaysLimited {[ 429%Z ]} ["K1"; "K2"]
    (GeminiClient.makeRequest alwaysLimited zeros
       (KeyRotator.new ["K1"; "K2"]) "POST" "/models" None ∅ None).
Proof.
  apply (gives_up_after_every_key alwaysLimited zeros
           (KeyRotator.new ["K1"; "K2"]) "POST" "/models" None ∅ None).
  unfold rotationPath. rewrite lookup_empty. exact I.
Defined.

(** A request leaves the key list of the pool as it is.  When it ends
    with an answer outside the rotation codes, [lastFailedKey] keeps its
    value; otherwise it becomes the key of the last attempt answered
    with a rotation code, and [null] when every attempt was rejected. *)
Theorem pool_after_request (send : network) (rnd : random_source)
    (rotator : KeyRotator.t) (method path : string) (body : option string)
    (headers : gmap string string) (customStatusCodes : option (gset Z)) :
  remembersLastLimited send (Rotation.rotationCodes customStatusCodes) rotator
    (OpenAIClient.makeRequest send rnd rotator method path body headers
       customStatusCodes)
  ∧ (rotationPath headers →
     remembersLastLimited send (Rotation.rotationCodes customStatusCodes) rotator
       (GeminiClient.makeRequest send rnd rotator method path body headers
          customStatusCodes)).
Proof.
  split.
  - apply rotate_remembersLastLimited.
  - intros Hpath. rewrite gemini_rotation_path by done.
    apply rotate_remembersLastLimited.
Qed.

Lemma pool_after_request_witness :
  remembersLastLimited alwaysLimited {[ 429%Z ]} (KeyRotator.new ["K1"; "K2"])
    (GeminiClient.makeRequest alwaysLimited zeros
       (KeyRotator.new ["K1"; "K2"]) "POST" "/models" None ∅ None).
Proof.
  apply (pool_after_request alwaysLimited zeros
           (KeyRotator.new ["K1"; "K2"]) "POST" "/models" None ∅ None).
  unfold rotationPath. rewrite lookup_empty. exact I.
Defined.
End requests.

(** * Statistics of a request context *)

Section stats.
Import RequestKeyContext Notions RotationNotions TraceNotions.

Lemma rotate_statsCountAttempts send method path body headers codes
    synthetic rnd rotator :
  statsCountAttempts send codes (KeyRotator.apiKeys rotator)
    (Rotation.rotate send method path body headers codes synthetic rnd
       rotator).
Proof.
  destruct (rotate_traced send method path body headers codes synthetic
              rnd rotator)
    as (r & Hr & [(cf & Hcf & Hlen & Htried & Hlim) _ _ _ _]).
  exists r, cf. split; [done|]. split; [done|].
  unfold Stats.getStats. by rewrite Hlen, Htried, Hlim.
Qed.

(** The log line written when a request gives up counts its attempts:
    for the context a finished request leaves, [getStats()] reports the
    size of the pool, the number of attempts made and the number of
    attempts answered with a rotation code, and [hasUntriedKeys] tells
    whether there were fewer attempts than keys. *)
Theorem stats_count_attempts (send : network) (rnd : random_source)
    (rotator : KeyRotator.t) (method path : string) (body : option string)
    (headers : gmap string string) (customStatusCodes : option (gset Z)) :
  statsCountAttempts send (Rotation.rotationCodes customStatusCodes)
    (KeyRotator.apiKeys rotator)
    (OpenAIClient.makeRequest send rnd rotator method path body headers
       customStatusCodes)
  ∧ (rotationPath headers →
     statsCountAttempts send (Rotation.rotationCodes customStatusCodes)
       (KeyRotator.apiKeys rotator)
       (GeminiClient.makeRequest send rnd rotator method path body headers
          customStatusCodes)).
Proof.
  split.
  - apply rotate_statsCountAttempts.
  - intros Hpath. rewrite gemini_rotation_path by done.
    apply rotate_statsCountAttempts.
Qed.

Lemma stats_count_attempts_witness :
  statsCountAttempts alwaysLimited {[ 429%Z ]} ["K1"; "K2"]
    (GeminiClient.makeRequest alwaysLimited zeros
       (KeyRotator.new ["K1"; "K2"]) "POST" "/models" None ∅ None).
Proof.
  apply (stats_count_attempts alwaysLimited zeros
           (KeyRotator.new ["K1"; "K2"]) "POST" "/models" None ∅ None).
  unfold rotationPath. rewrite lookup_empty. exact I.
Defined.

Lemma size_keys (l : list string) :
  NoDup l → size (list_to_set (Str <$> l) : gset jskey) = length l.
Proof.
  intros Hnd. rewrite size_list_to_set, length_fmap; [done|].
  apply NoDup_fmap; [|done]. by intros ?? [= ->].
Qed.

(** With a pool without duplicate keys, and a context used in any way
    since it was created, [allKeysTried()] holds, and [hasUntriedKeys]
    is false, exactly when [getNextKey()] has no key left to hand out. *)
Theorem allKeysTried_iff_no_key_left (rnd : random_source)
    (keys : list string) (lastFailedKey : option jskey)
    (ops : list operation) :
  NoDup keys →
  let c := (perform ops (new rnd keys lastFailedKey)).2 in
  (allKeysTried c = true ↔ (getNextKey c).1 = None)
  ∧ (Stats.hasUntriedKeys (Stats.getStats c) = false ↔
     (getNextKey c).1 = None).
Proof.
  intros Hnd c.
  assert (invariant c) as Hinv by apply perform_invariant, new_invariant.
  assert (NoDup (apiKeys c)) as Hnd'.
  { unfold c. rewrite perform_apiKeys. by apply smartShuffle_NoDup. }
  assert (allKeysTried c = true ↔ (getNextKey c).1 = None) as Hiff.
  { unfold allKeysTried. rewrite bool_decide_eq_true. split.
    - intros Hle. unfold getNextKey. by rewrite decide_True.
    - intros Hnull.
      pose proof (proj1 (getNextKey_null_iff _ Hinv) Hnull) as Hall.
      rewrite <-(size_keys (apiKeys c)) by done.
      apply subseteq_size. intros k Hk.
      apply elem_of_list_to_set, list_elem_of_fmap in Hk as (s & -> & Hs).
      by apply Hall. }
  split; [done|]. rewrite <-Hiff. unfold Stats.getStats, allKeysTried. simpl.
  rewrite bool_decide_eq_false, bool_decide_eq_true. lia.
Qed.

Lemma allKeysTried_iff_no_key_left_witness :
  let c := (perform [GetNextKey; GetNextKey] (new zeros ["K1"; "K2"] None)).2 in
  (allKeysTried c = true ↔ (getNextKey c).1 = None)
  ∧ (Stats.hasUntriedKeys (Stats.getStats c) = false ↔
     (getNextKey c).1 = None).
Proof.
  apply (allKeysTried_iff_no_key_left zeros ["K1"; "K2"] None
           [GetNextKey; GetNextKey]).
  apply NoDup_cons. split; [|apply NoDup_singleton].
  intros H%list_elem_of_singleton. discriminate H.
Defined.
End stats.

(** * Masked keys *)

Section masking.

(** What a mask shows of a key: nothing of a key shorter than eight
    characters, and of a longer one its first four and last four
    characters and nothing of what lies between them; a key of exactly
    eight characters is therefore printed whole, around the dots. *)
Theorem maskApiKey_shows_ends (first middle last short : string) :
  String.length first = 4 → String.length last = 4 →
  String.length short < 8 →
  maskApiKey (Str (first +:+ middle +:+ last)) = first +:+ "..." +:+ last
  ∧ maskApiKey (Str (first +:+ last)) = first +:+ "..." +:+ last
  ∧ maskApiKey (Str short) = "***"
  ∧ maskApiKey Undefined = "***".
Proof.
  intros Hfirst Hlast Hshort.
  assert (∀ m, maskApiKey (Str (first +:+ m +:+ last))
               = first +:+ "..." +:+ last) as Hmask.
  { intros m. unfold maskApiKey.
    rewrite !append_length, bool_decide_eq_false_2 by lia.
    replace 4 with (String.length first) at 1 by done.
    rewrite substring_app_l. do 2 f_equal.
    replace (String.length first + (String.length m + String.length last) - 4)
      with (String.length (first +:+ m)) by (rewrite append_length; lia).
    rewrite <-Hlast. rewrite <-append_assoc. apply substring_app_r. }
  split; [apply Hmask|]. split.
  - specialize (Hmask EmptyString). by rewrite append_nil in Hmask.
  - split; [|done]. unfold maskApiKey. by rewrite bool_decide_eq_true_2.
Qed.

Lemma maskApiKey_shows_ends_witness :
  maskApiKey (Str ("sk-1" +:+ "234567890abcdefghijklmnop" +:+ "wxyz"))
  = "sk-1" +:+ "..." +:+ "wxyz"
  ∧ maskApiKey (Str ("sk-1" +:+ "wxyz")) = "sk-1" +:+ "..." +:+ "wxyz"
  ∧ maskApiKey (Str "secret") = "***"
  ∧ maskApiKey Undefined = "***".
Proof.
  apply (maskApiKey_shows_ends "sk-1" "234567890abcdefghijklmnop" "wxyz"
           "secret"); [reflexivity|reflexivity|simpl; lia].
Defined.
End masking.

(** * The access check *)

Section access.
Import Directive ProxyServer SegmentNotions AccessNotions.









End access.

(** * From the dispatcher to the wire *)

Section dispatch.
Import ProxyServer SegmentNotions TraceNotions WireNotions.


(** The whitelists hold neither name of a credential. *)
Lemma extractRelevantHeaders_no_credential reqHeaders apiType base name :
  extractRelevantHeaders reqHeaders apiType = inr base →
  toLowerCase name ∈ ["authorization"; "x-goog-api-key"] →
  base !! name = None.
Proof.
  unfold extractRelevantHeaders. intros Hbase Hname.
  assert ((toLowerCase name ∉ geminiHeaders)
          ∧ (toLowerCase name ∉ openaiHeaders)) as [Hg Ho].
  { apply elem_of_cons in Hname as [->|Hname];
      [|apply list_elem_of_singleton in Hname as ->];
      split; apply (bool_decide_unpack _); by vm_compute. }
  repeat case_decide; try discriminate; injection Hbase as <-.
  - apply map_lookup_filter_None. right. by intros v _.
  - apply map_lookup_filter_None. right. by intros v _.
  - apply lookup_empty.
Qed.

End dispatch.

Section wire.
Import ProxyServer SegmentNotions TraceNotions WireNotions.

Lemma openaiHeaders_forwarded base c v apiKey :
  base !! "Authorization" = None →
  credentials
    (Wire.openaiHeaders (<["authorization" := String c v]> base) apiKey)
  = (Some (String c v), None).
Proof.
  intros Hbase. unfold credentials, Wire.openaiHeaders.
  rewrite lookup_insert_eq. f_equal.
  - apply lookup_union_Some_l, lookup_insert_eq.
  - apply lookup_union_None. split; [by rewrite lookup_insert_ne|done].
Qed.

Lemma openaiHeaders_pool base s :
  base !! "authorization" = None → base !! "Authorization" = None →
  credentials (Wire.openaiHeaders base (Str s))
  = (None, Some ("Bearer " +:+ s)).
Proof.
  intros Hlow Hup. unfold credentials, Wire.openaiHeaders. rewrite Hlow.
  rewrite lookup_insert_eq, lookup_insert_ne by done. f_equal.
  apply lookup_union_None. by split.
Qed.

(** An OpenAI-flavored request that brings a credential of its own is
    sent with that credential, under the name [authorization], at every
    attempt, and no key of the pool is put among the final headers; a
    request that brings none (nothing is left of its [authorization]
    header once the directives are removed) is sent at each attempt with
    [Authorization: Bearer] and the pool key of that attempt. *)
Theorem openai_attempts_carry_one_credential (send : network)
    (rnd : random_source) (server : ProxyServer.t) (reqMethod : string)
    (reqHeaders : gmap string string) (body : option string)
    (routeInfo : Route) (slot : place) (client : Client)
    (server1 : ProxyServer.t) (answer : reply) (server' : ProxyServer.t)
    (calls : list call) :
  routeApiType routeInfo = "openai" →
  getProviderClient server (providerName routeInfo) (provider routeInfo)
    (legacy routeInfo) = (Some (slot, client), server1) →
  kind client = OpenAI →
  handleRoute send rnd server reqMethod reqHeaders body routeInfo
  = Some (answer, server', calls) →
  Forall (carriesCredential
            (cleanAuthHeader (reqHeaders !! "authorization"))
            (KeyRotator.apiKeys (rotator client)))
    calls.
Proof.
  intros Htype Hclient Hkind. unfold handleRoute.
  rewrite Htype, decide_False by done.
  destruct (validateAccessKey _ _ _); cbn [negb];
    [|intros [= _ _ <-]; apply Forall_nil_2].
  destruct (forwardedHeaders_spec reqHeaders "openai"
              (reqHeaders !! "authorization")) as (base & Hbase & ->);
    [by right|].
  pose proof (extractRelevantHeaders_no_credential reqHeaders "openai" base
                "authorization" Hbase) as Hlow.
  pose proof (extractRelevantHeaders_no_credential reqHeaders "openai" base
                "Authorization" Hbase) as Hup.
  rewrite Hclient. unfold makeRequest. rewrite Hkind.
  unfold OpenAIClient.makeRequest.
  match goal with
  | |- context [Rotation.rotate ?s ?m ?p ?b ?h ?c ?y ?r ?k] =>
      destruct (rotate_attemptsPoolKeys s m p b h c y r k)
        as (run & -> & _ & Hcalls & _)
  end.
  intros Hanswer.
  assert (calls = attempts run) as ->
    by (destruct (outcome run); by injection Hanswer as _ _ <-).
  eapply Forall_impl; [exact Hcalls|]. intros a (s & Hs & ->).
  unfold carriesCredential. cbn [sentHeaders sentKey].
  unfold authName. rewrite decide_False by done.
  destruct (cleanAuthHeader (reqHeaders !! "authorization"))
    as [[|c v]|].
  - exists s. split; [done|]. split; [done|].
    apply openaiHeaders_pool; [apply Hlow|apply Hup]; by vm_compute; left.
  - apply openaiHeaders_forwarded, Hup. by vm_compute; left.
  - exists s. split; [done|]. split; [done|].
    apply openaiHeaders_pool; [apply Hlow|apply Hup]; by vm_compute; left.
Qed.

Lemma openai_attempts_carry_one_credential_witness :
  Forall (carriesCredential
            (cleanAuthHeader
               (({[ "authorization" := "Bearer sk-own [STATUS_CODES:500]" ]}
                 : gmap string string) !! "authorization"))
            (KeyRotator.apiKeys (rotator acmeClient)))
    [SendRequest "POST" "/chat/completions" None
       {[ "authorization" := "Bearer sk-own" ]} (Str "K2") false].
Proof.
  eapply (openai_attempts_carry_one_credential fine Notions.zeros
            twoProviders "POST"
            {[ "authorization" := "Bearer sk-own [STATUS_CODES:500]" ]}
            None acmeRoute (Cached "acme") acmeClient twoProviders).
  - reflexivity.
  - vm_compute. reflexivity.
  - reflexivity.
  - vm_compute. reflexivity.
Defined.






End wire.

(** * No negative status code *)

Section signs.
Import JS Directive ProxyServer.
Implicit Types (s t part : string) (c : ascii) (codes : gset Z).

Lemma trim_includes s c : includes s c = false → includes (trim s) c = false.
Proof. intros Hs. by apply trimEnd_includes, trimStart_includes. Qed.

Lemma substring_includes n m s c :
  includes s c = false → includes (substring n m s) c = false.
Proof.
  revert n m. induction s as [|d s IH]; intros n m; [by destruct n, m|].
  cbn [includes]. intros [Hd Hs]%orb_false_elim.
  destruct n as [|n]; [|by apply IH].
  destruct m as [|m]; [done|]. cbn [substring includes].
  by rewrite Hd, IH.
Qed.

(** The pieces of a split hold no separator. *)
Lemma split_includes c s piece :
  piece ∈ split c s → includes piece c = false.
Proof.
  revert piece. induction s as [|d s IH]; intros piece.
  - by intros ->%list_elem_of_singleton.
  - cbn [split]. case_bool_decide as Hd.
    + intros [->|Hin]%elem_of_cons; [done|by apply IH].
    + destruct (split c s) as [|p pieces].
      * intros ->%list_elem_of_singleton. cbn [includes].
        by rewrite bool_decide_eq_false_2.
      * intros [->|Hin]%elem_of_cons.
        -- cbn [includes]. rewrite bool_decide_eq_false_2 by done.
           apply IH. by left.
        -- apply IH. by right.
Qed.

(** Without a minus sign in the text, [parseInt] gives no negative
    number. *)
Lemma parseInt_nonneg s z :
  includes s "-" = false → parseInt s = Some z → (0 ≤ z)%Z.
Proof.
  intros Hs%trimStart_includes. unfold parseInt.
  destruct (trimStart s) as [|c s1] eqn:Htrim.
  - by cbn.
  - cbn [includes] in Hs. apply orb_false_elim in Hs as [Hc _].
    apply bool_decide_eq_false in Hc.
    assert (∀ s2, (let '(radix, s3) :=
                     match s2 with
                     | String "0" (String "x" r) => (16, r)
                     | String "0" (String "X" r) => (16, r)
                     | _ => (10, s2)
                     end in
                   match digits radix None s3 with
                   | Some n => Some (Z.of_N n)
                   | None => None
                   end) = Some z → (0 ≤ z)%Z) as Hpos.
    { intros s2.
      destruct (match s2 with
                | String "0" (String "x" r) => (16, r)
                | String "0" (String "X" r) => (16, r)
                | _ => (10, s2)
                end) as [radix s3].
      destruct (digits radix None s3); [|done]. intros [= <-]. lia. }
    destruct (decide (c = "+"%char)) as [->|Hplus]; [exact (Hpos s1)|].
    assert (match String c s1 with
            | String "-" r => (true, r)
            | String "+" r => (false, r)
            | _ => (false, String c s1)
            end = (false, String c s1)) as ->.
    { destruct c as [[] [] [] [] [] [] [] []]; try done. }
    exact (Hpos (String c s1)).
Qed.

Lemma addPart_nonneg codes part :
  (∀ z, z ∈ codes → (0 ≤ z)%Z) →
  ∀ z, z ∈ addPart codes part → (0 ≤ z)%Z.
Proof.
  intros Hcodes z. unfold addPart.
  destruct (includes part "-") eqn:Hminus.
  - pose proof (split_includes "-" part) as Hpieces.
    destruct (split "-" part) as [|p1 [|p2 pieces]]; cbn [fmap list_fmap].
    + apply Hcodes.
    + destruct (parseInt (trim p1)); apply Hcodes.
    + destruct (parseInt (trim p1)) as [first|] eqn:H1; [|apply Hcodes].
      destruct (parseInt (trim p2)) as [last|] eqn:H2; [|apply Hcodes].
      apply parseInt_nonneg in H1;
        [|apply trim_includes, Hpieces; by left].
      intros [?|?]%elem_of_addRange; [lia|by apply Hcodes].
  - repeat case_match; try apply Hcodes.
    + match goal with
      | H : parseInt _ = Some _ |- _ =>
          apply parseInt_nonneg in H;
            [|by apply trim_includes, substring_includes]
      end.
      intros [?|?]%elem_of_addRange; [lia|by apply Hcodes].
    + match goal with
      | H : parseInt _ = Some _ |- _ =>
          apply parseInt_nonneg in H;
            [|by apply trim_includes, substring_includes]
      end.
      intros [?|?]%elem_of_addRange; [lia|by apply Hcodes].
    + match goal with
      | H : parseInt _ = Some _ |- _ =>
          apply parseInt_nonneg in H; [|by apply trim_includes]
      end.
      intros [->%elem_of_singleton|?]%elem_of_union; [done|by apply Hcodes].
Qed.

(** The rotation codes read from a header are never the empty set, and
    never hold a negative number: a minus sign only ever separates the
    two ends of a range. *)
Theorem parsed_status_codes_nonnegative (authHeader : option string)
    (codes : gset Z) :
  parseStatusCodesFromAuth authHeader = Some codes →
  codes ≠ ∅ ∧ ∀ z, z ∈ codes → (0 ≤ z)%Z.
Proof.
  unfold parseStatusCodesFromAuth.
  destruct (authHeader ≫= find "STATUS_CODES") as [statusCodeStr|]; [|done].
  case_decide as Hsize; [|done]. intros [= <-]. split.
  - intros Hempty. rewrite Hempty, size_empty in Hsize. lia.
  - generalize (trim <$> split "," statusCodeStr). intros parts.
    assert (∀ codes : gset Z,
              (∀ z, z ∈ codes → (0 ≤ z)%Z) →
              ∀ z, z ∈ foldl addPart codes parts → (0 ≤ z)%Z) as Hfold.
    { induction parts as [|part parts IH]; intros codes Hcodes; [done|].
      cbn [foldl]. apply IH. by apply addPart_nonneg. }
    apply Hfold. intros z Hz. by apply not_elem_of_empty in Hz.
Qed.

Lemma parsed_status_codes_nonnegative_witness :
  ({[ 429%Z; 500%Z; 501%Z ]} : gset Z) ≠ ∅
  ∧ ∀ z, z ∈ ({[ 429%Z; 500%Z; 501%Z ]} : gset Z) → (0 ≤ z)%Z.
Proof.
  apply (parsed_status_codes_nonnegative
           (Some "Bearer [status_codes: 429, 500-501]")).
  vm_compute. reflexivity.
Defined.
End signs.

(** * The configuration *)

Section keys.
Import JS Config ConfigNotions.

Lemma join_cons sep part part' parts :
  Text.join sep (part :: part' :: parts)
  = part +:+ sep +:+ Text.join sep (part' :: parts).
Proof. done. Qed.

Lemma parseApiKeys_keyLike keysString key :
  key ∈ parseApiKeys keysString → keyLike key.
Proof.
  unfold parseApiKeys.
  destruct keysString as [[|c s]|]; try by intros ?%not_elem_of_nil.
  intros [Hlen (piece & -> & Hpiece)%list_elem_of_fmap]%list_elem_of_filter.
  split; [|split].
  - intros Hempty. rewrite Hempty in Hlen. simpl in Hlen. lia.
  - apply trim_idem.
  - by apply trim_includes, (split_includes "," (String c s)).
Qed.

Lemma parseApiKeys_join keys :
  Forall keyLike keys → parseApiKeys (Some (Text.join "," keys)) = keys.
Proof.
  intros Hkeys.
  assert (keys ≠ [] →
          filter (λ key, 0 < String.length key)
            (trim <$> split "," (Text.join "," keys)) = keys) as Hsplit.
  { induction Hkeys as [|key keys (Hne & Htrim & Hcomma) Hkeys IH]; [done|].
    intros _.
    assert (0 < String.length key) as Hlen by (destruct key; [done|simpl; lia]).
    destruct keys as [|key' keys].
    - cbn [Text.join]. rewrite split_whole by done. cbn [fmap list_fmap].
      rewrite Htrim. by rewrite filter_cons_True.
    - rewrite join_cons.
      change ("," +:+ Text.join "," (key' :: keys))
        with (String "," (Text.join "," (key' :: keys))).
      rewrite split_app by done. cbn [fmap list_fmap].
      rewrite Htrim, filter_cons_True by done. f_equal. by apply IH. }
  unfold parseApiKeys. destruct keys as [|key keys]; [done|].
  specialize (Hsplit ltac:(done)).
  destruct (Text.join "," (key :: keys)) eqn:Hjoin; [|done].
  by vm_compute in Hsplit.
Qed.

(** [parseApiKeys] and a comma-separated list are inverse to each
    other: every key it yields is non-empty, has no white space around
    it and no comma in it, and a list of such keys written with commas
    between them is read back as it is, order and repetitions
    included. *)
Theorem parseApiKeys_round_trip (keysString : option string)
    (keys : list string) :
  Forall keyLike (parseApiKeys keysString)
  ∧ (Forall keyLike keys →
     parseApiKeys (Some (Text.join "," keys)) = keys).
Proof.
  split; [|apply parseApiKeys_join].
  apply Forall_forall. intros key. apply parseApiKeys_keyLike.
Qed.

Lemma parseApiKeys_round_trip_witness :
  parseApiKeys (Some (Text.join "," ["sk-1"; "sk-2"; "sk-1"]))
  = ["sk-1"; "sk-2"; "sk-1"].
Proof.
  apply (parseApiKeys_round_trip None ["sk-1"; "sk-2"; "sk-1"]).
  repeat apply Forall_cons_2; try apply Forall_nil_2;
    (split; [discriminate|split; reflexivity]).
Defined.
End keys.

Section providers.
Import JS Config ConfigNotions.

(** What [loadConfig] returns when it returns. *)
Lemma loadConfig_inr order file config :
  loadConfig order file = inr config →
  ∃ envContent,
    file = Some envContent
    ∧ let envVars := parseEnvFile envContent in
      providers config
      = parseBackwardCompatibility envVars (parseProviders (order envVars))
      ∧ geminiApiKeys config = legacyKeys envVars "GEMINI_API_KEYS"
      ∧ openaiApiKeys config = legacyKeys envVars "OPENAI_API_KEYS"
      ∧ legacyBaseUrl config = legacyBase envVars.
Proof.
  unfold loadConfig. destruct file as [envContent|]; [|done].
  destruct (_ ++ _); [|done]. intros [= <-]. by exists envContent.
Qed.

(** The keys of every entry made by the first loop of [parseProviders]
    come from [parseApiKeys]. *)
Lemma parseEntry_keys providerConfigs entry :
  map_Forall (λ _ c, Forall keyLike (keys c)) providerConfigs →
  map_Forall (λ _ c, Forall keyLike (keys c))
    (parseEntry providerConfigs entry).
Proof.
  intros Hall. destruct entry as [key value]. unfold parseEntry.
  assert (∀ provider apiType change,
            (∀ c, Forall keyLike (keys c) →
                  Forall keyLike (keys (change c))) →
            map_Forall (λ _ c, Forall keyLike (keys c))
              (update provider apiType change providerConfigs)) as Hupdate.
  { intros provider apiType change Hchange. unfold update.
    apply map_Forall_insert_2; [|done]. apply Hchange.
    destruct (providerConfigs !! provider) as [c|] eqn:Hc; simpl.
    - by apply (Hall provider).
    - apply Forall_nil_2. }
  destruct (negb _); [done|].
  repeat case_match; try done; apply Hupdate; intros c Hc; try done.
  cbn [keys]. apply Forall_forall. intros k. apply parseApiKeys_keyLike.
Qed.

Lemma foldl_parseEntry_keys entries providerConfigs :
  map_Forall (λ _ c, Forall keyLike (keys c)) providerConfigs →
  map_Forall (λ _ c, Forall keyLike (keys c))
    (foldl parseEntry providerConfigs entries).
Proof.
  revert providerConfigs.
  induction entries as [|entry entries IH]; intros providerConfigs Hall;
    [done|].
  cbn [foldl]. by apply IH, parseEntry_keys.
Qed.

Lemma register_usable c c' :
  Forall keyLike (keys c) → register c = Some c' → usable c'.
Proof.
  unfold register. intros Hkeys.
  destruct (keys c) as [|key keys'] eqn:Hk; [done|].
  destruct (Text.truthy (baseUrl c)) eqn:Hurl.
  - intros [= <-]. rewrite <-Hk in Hkeys. split; [by rewrite Hk|].
    by split.
  - repeat case_decide; intros [= <-]; (split; [by rewrite ?Hk|]);
      (split; [by rewrite ?Hk|]); cbn [apiType baseUrl]; try done.
    by intros [?|?].
Qed.

Lemma parseProviders_usable entries name c :
  parseProviders entries !! name = Some c → usable c.
Proof.
  unfold parseProviders. rewrite lookup_omap.
  destruct (foldl parseEntry ∅ entries !! name) as [draft|] eqn:Hdraft;
    [|done].
  simpl. apply register_usable.
  by apply (foldl_parseEntry_keys entries ∅ (map_Forall_empty _) name).
Qed.

Lemma legacyKeys_keyLike envVars name :
  Forall keyLike (legacyKeys envVars name).
Proof. apply Forall_forall. intros k. apply parseApiKeys_keyLike. Qed.

Lemma legacyBase_truthy envVars :
  Text.truthy
    (Some (default "https://api.openai.com/v1" (legacyBase envVars))) = true.
Proof.
  unfold legacyBase. destruct (envVars !! "BASE_URL") as [[|c s]|]; try done.
  by destruct (trim (String c s)).
Qed.

(** Every provider of a loaded configuration has at least one key, all
    its keys are non-empty and free of surrounding white space and of
    commas, and it has a non-empty base URL if its API type is [openai]
    or [gemini], the two for which the server creates a client: no
    client made from the configuration has an empty key pool. *)
Theorem loaded_providers_are_usable
    (order : gmap string string → list (string * string))
    (file : option string) (config : Config.t) (providerName : string)
    (c : ProviderConfig) :
  loadConfig order file = inr config →
  getProvider config providerName = Some c →
  usable c.
Proof.
  intros (envContent & _ & Hproviders & _)%loadConfig_inr.
  unfold getProvider. rewrite Hproviders. unfold parseBackwardCompatibility.
  pose proof (legacyKeys_keyLike (parseEnvFile envContent) "OPENAI_API_KEYS")
    as Hopenai.
  pose proof (legacyKeys_keyLike (parseEnvFile envContent) "GEMINI_API_KEYS")
    as Hgemini.
  assert (∀ (providers : gmap string ProviderConfig) keys url,
            keys ≠ [] → Forall keyLike keys → Text.truthy (Some url) = true →
            (providers !! providerName = Some c → usable c) →
            ∀ name apiType,
              <[name := {| apiType := apiType; keys := keys;
                           baseUrl := Some url; accessKey := None;
                           defaultModel := None |}]> providers
              !! providerName = Some c →
              usable c) as Hinsert.
  { intros providers keys url Hne Hkeys Hurl Hrest name apiType.
    rewrite lookup_insert_Some. intros [[_ <-]|[_ Hc]]; [|by apply Hrest].
    by repeat split. }
  destruct (legacyKeys _ "GEMINI_API_KEYS") as [|g gs];
    destruct (legacyKeys _ "OPENAI_API_KEYS") as [|o os];
    repeat (apply Hinsert; [done|done|done || apply legacyBase_truthy|]);
    apply parseProviders_usable.
Qed.

Lemma loaded_providers_are_usable_witness :
  usable
    {| apiType := "openai"; keys := ["gsk-1"; "gsk-2"];
       baseUrl := Some "https://api.groq.com/openai/v1";
       accessKey := None; defaultModel := None |}.
Proof.
  apply (loaded_providers_are_usable map_to_list (Some newFormat)
           {| port := Some 8990%Z; adminPassword := "pw";
              providers :=
                {[ "groq" :=
                     {| apiType := "openai"; keys := ["gsk-1"; "gsk-2"];
                        baseUrl := Some "https://api.groq.com/openai/v1";
                        accessKey := None; defaultModel := None |} ]};
              geminiApiKeys := []; openaiApiKeys := [];
              legacyBaseUrl := None |}
           "groq").
  - vm_compute. reflexivity.
  - vm_compute. reflexivity.
Defined.
End providers.

Section legacy.
Import JS ProxyServer Config ConfigNotions Startup.

Lemma startsWith_iff s prefix :
  Wire.startsWith s prefix = true ↔ ∃ rest, s = prefix +:+ rest.
Proof.
  unfold Wire.startsWith. rewrite bool_decide_eq_true. split.
  - revert s. induction prefix as [|c prefix IH]; intros s.
    + intros _. by exists s.
    + destruct s as [|d s]; [done|]. cbn [String.length substring].
      intros [= -> Hs]. destruct (IH s Hs) as [rest ->]. by exists rest.
  - intros [rest ->]. apply substring_app_l.
Qed.

(** The default providers of the old format: they are what
    [parseBackwardCompatibility] makes of the keys, whatever the new
    format says of the same name. *)
Lemma loadConfig_defaults order file config :
  loadConfig order file = inr config →
  (geminiApiKeys config ≠ [] →
   getProvider config "gemini"
   = Some (defaultGemini (geminiApiKeys config)))
  ∧ (openaiApiKeys config ≠ [] →
     getProvider config "openai"
     = Some (defaultOpenai (openaiApiKeys config) (legacyBaseUrl config))).
Proof.
  intros (envContent & _ & Hproviders & -> & -> & ->)%loadConfig_inr.
  unfold getProvider. rewrite Hproviders. unfold parseBackwardCompatibility.
  split; intros Hkeys.
  - destruct (legacyKeys _ "GEMINI_API_KEYS") as [|g gs]; [done|].
    by rewrite lookup_insert_eq.
  - destruct (legacyKeys _ "OPENAI_API_KEYS") as [|o os]; [done|].
    destruct (legacyKeys _ "GEMINI_API_KEYS") as [|g gs];
      by rewrite ?lookup_insert_ne, lookup_insert_eq by done.
Qed.

(** The providers [gemini] and [openai] made from [GEMINI_API_KEYS] and
    [OPENAI_API_KEYS] carry no access key and not the base URL given
    for them: [parseBackwardCompatibility] replaces what
    [parseProviders] made of [GEMINI_ACCESS_KEY], [OPENAI_ACCESS_KEY],
    [GEMINI_BASE_URL] and [OPENAI_BASE_URL], so the access check lets
    every request to these providers through. *)
Theorem default_providers_are_unguarded
    (order : gmap string string → list (string * string))
    (file : option string) (config : Config.t) (name : string)
    (authHeader : option string) :
  loadConfig order file = inr config →
  name = "gemini" ∧ geminiApiKeys config ≠ []
  ∨ name = "openai" ∧ openaiApiKeys config ≠ [] →
  getProvider config name
  = Some (if decide (name = "gemini")
          then defaultGemini (geminiApiKeys config)
          else defaultOpenai (openaiApiKeys config) (legacyBaseUrl config))
  ∧ validateAccessKey (ProxyServer.config (main config)) name authHeader
    = true.
Proof.
  intros [Hgemini Hopenai]%loadConfig_defaults Hname.
  assert (getProvider config name
          = Some (if decide (name = "gemini")
                  then defaultGemini (geminiApiKeys config)
                  else defaultOpenai (openaiApiKeys config)
                         (legacyBaseUrl config))) as Hget.
  { destruct Hname as [[-> Hkeys]|[-> Hkeys]]; [by apply Hgemini|].
    by apply Hopenai. }
  split; [done|]. unfold validateAccessKey, main. cbn [ProxyServer.config].
  unfold getProvider in Hget. rewrite lookup_fmap, Hget. cbn.
  by case_decide.
Qed.

Lemma default_providers_are_unguarded_witness :
  getProvider
    {| port := Some 8990%Z; adminPassword := "pw";
       providers := {[ "openai" := defaultOpenai ["sk-1"; "sk-2"] None ]};
       geminiApiKeys := []; openaiApiKeys := ["sk-1"; "sk-2"];
       legacyBaseUrl := None |}
    "openai"
  = Some (if decide ("openai" = "gemini") then defaultGemini []
          else defaultOpenai ["sk-1"; "sk-2"] None)
  ∧ validateAccessKey
      (ProxyServer.config
         (main {| port := Some 8990%Z; adminPassword := "pw";
                  providers :=
                    {[ "openai" := defaultOpenai ["sk-1"; "sk-2"] None ]};
                  geminiApiKeys := []; openaiApiKeys := ["sk-1"; "sk-2"];
                  legacyBaseUrl := None |}))
      "openai" (Some "Bearer no-access-key")
    = true.
Proof.
  apply (default_providers_are_unguarded map_to_list (Some oldFormat)
           {| port := Some 8990%Z; adminPassword := "pw";
              providers :=
                {[ "openai" := defaultOpenai ["sk-1"; "sk-2"] None ]};
              geminiApiKeys := []; openaiApiKeys := ["sk-1"; "sk-2"];
              legacyBaseUrl := None |}
           "openai" (Some "Bearer no-access-key")).
  - vm_compute. reflexivity.
  - right. split; [reflexivity|discriminate].
Defined.




End legacy.

(** * The order of the attempts *)

Section order.
Import RequestKeyContext Notions OrderNotions.

(** The scan hands out the first key that was not tried, in the order
    it reads the array. *)
Lemma scan_first n c key c' :
  scan n c = (Some key, c') →
  ∃ i, i < n
       ∧ currentIndex c' = probe (length (apiKeys c)) (currentIndex c) i
       ∧ ∀ i', i' < i →
               keyAt c (probe (length (apiKeys c)) (currentIndex c) i')
               ∈ triedKeys c.
Proof.
  revert c. induction n as [|n IH]; intros c; simpl; [done|].
  case_decide as Hkey.
  - intros (i & Hi & Hidx & Hall)%IH. simpl in *.
    exists (S i). split; [lia|]. split; [done|].
    intros [|i'] Hi'; simpl; [done|]. apply Hall. lia.
  - intros [= <- <-]. exists 0. split; [lia|]. split; [done|].
    intros i' Hi'. lia.
Qed.

(** From a context whose earlier keys are all tried, the key handed out
    stands after tried keys only. *)
Lemma getNextKey_swept c key c' :
  invariant c → swept c → getNextKey c = (Some key, c') →
  ∀ j, j < currentIndex c' → keyAt c j ∈ triedKeys c.
Proof.
  intros [_ Hidx] Hswept. unfold getNextKey. case_decide as Hsize; [done|].
  intros (i & Hi & Hci & Hall)%scan_first j Hj.
  assert (apiKeys c ≠ []) as Hne.
  { intros Hnil. rewrite Hnil in Hsize. simpl in Hsize. lia. }
  specialize (Hidx Hne).
  rewrite probe_mod in Hci by lia. rewrite Hci in Hj.
  destruct (decide (j < currentIndex c)) as [Hlt|Hge]; [by apply Hswept|].
  destruct (decide (currentIndex c + i < length (apiKeys c))) as [Hfit|Hwrap].
  - rewrite Nat.mod_small in Hj by done.
    specialize (Hall (j - currentIndex c) ltac:(lia)).
    rewrite probe_mod in Hall by lia.
    replace (currentIndex c + (j - currentIndex c)) with j in Hall by lia.
    rewrite Nat.mod_small in Hall by lia. done.
  - exfalso.
    replace (currentIndex c + i)
      with (currentIndex c + i - length (apiKeys c)
            + 1 * length (apiKeys c)) in Hj by lia.
    rewrite Nat.Div0.mod_add, Nat.mod_small in Hj by lia. lia.
Qed.

Lemma keyAt_apiKeys c c' j :
  apiKeys c' = apiKeys c → keyAt c' j = keyAt c j.
Proof. unfold keyAt. by intros ->. Qed.
End order.

Section ordered.
Import Notions OrderNotions TraceNotions.
Variable send : network.
Variables (method path : string) (body : option string).
Variable headers : gmap string string.
Variable rotationStatusCodes : gset Z.
Variable synthetic : Response.

Abbreviation request := (Rotation.request method path body headers).
Abbreviation loop :=
  (Rotation.loop send method path body headers rotationStatusCodes synthetic).
Abbreviation rotate :=
  (Rotation.rotate send method path body headers rotationStatusCodes synthetic).

Implicit Types (c : RequestKeyContext.t) (made : list call).

(** One more attempt, made with the key [getNextKey] handed out. *)
Lemma ordering_attempt c made key c' :
  ordering c made → RequestKeyContext.getNextKey c = (Some key, c') →
  ordering c' (made ++ [request key]).
Proof.
  intros [Hinv Htried Hswept Hmade] Hget.
  pose proof (getNextKey_invariant _ _ _ Hinv Hget) as Hinv'.
  pose proof (getNextKey_spec _ _ _ Hget)
    as (Hk & _ & _ & Hfresh & Htried' & _ & Hat).
  pose proof (getNextKey_swept _ _ _ Hinv Hswept Hget) as Hbefore.
  pose proof (getNextKey_in_pool _ _ _ Hinv Hget) as (s & -> & Hs).
  assert (RequestKeyContext.triedKeys c'
          = list_to_set (sentKey <$> made ++ [request (Str s)])) as Htr'.
  { rewrite Htried', Htried, fmap_app, list_to_set_app_L. simpl.
    rewrite (right_id_L ∅ (∪)). apply (comm_L (∪)). }
  split; [done|done| |].
  - intros j Hj. rewrite (keyAt_apiKeys c) by done. rewrite Htried'.
    apply elem_of_union_r. by apply Hbefore.
  - intros i a Ha. rewrite Hk.
    destruct (decide (i < length made)) as [Hi|Hi].
    + rewrite lookup_app_l in Ha by done.
      destruct (Hmade i a Ha) as (idx & s0 & Hidx & Hkey & Hsmaller).
      exists idx, s0. split; [done|]. split; [done|].
      intros j s' Hj Hs'. rewrite take_app_le by lia.
      by eapply Hsmaller.
    + apply lookup_app_Some in Ha as [Ha|[_ Ha]];
        [apply lookup_lt_Some in Ha; lia|].
      apply list_lookup_singleton_Some in Ha as [Hi0 <-].
      assert (i = length made) as -> by lia.
      unfold RequestKeyContext.keyAt in Hat.
      destruct (RequestKeyContext.apiKeys c
                !! RequestKeyContext.currentIndex c') as [s0|] eqn:Hidx;
        [|done].
      injection Hat as ->.
      exists (RequestKeyContext.currentIndex c'), s0.
      split; [done|]. split; [done|].
      intros j s' Hj Hs'. rewrite take_app_length.
      specialize (Hbefore j Hj). unfold RequestKeyContext.keyAt in Hbefore.
      rewrite Hs', Htried in Hbefore.
      by apply elem_of_list_to_set in Hbefore.
Qed.

Lemma ordering_mark c made key :
  ordering c made →
  key ∈ RequestKeyContext.triedKeys c →
  key = RequestKeyContext.keyAt c (RequestKeyContext.currentIndex c) →
  ordering (RequestKeyContext.markKeyAsRateLimited key c) made.
Proof.
  intros [Hinv Htried Hswept Hmade] Hin Hat.
  split; [by apply markKeyAsRateLimited_invariant|done| |done].
  intros j. cbn [RequestKeyContext.markKeyAsRateLimited
                 RequestKeyContext.currentIndex RequestKeyContext.triedKeys].
  unfold RequestKeyContext.advance, RequestKeyContext.keyAt.
  cbn [RequestKeyContext.apiKeys]. intros Hj.
  destruct (decide (j < RequestKeyContext.currentIndex c)) as [Hlt|Hge];
    [by apply Hswept|].
  assert (j ≤ RequestKeyContext.currentIndex c) as Hle.
  { pose proof (Nat.Div0.mod_le (RequestKeyContext.currentIndex c + 1)
                  (length (RequestKeyContext.apiKeys c))). lia. }
  assert (j = RequestKeyContext.currentIndex c) as -> by lia.
  change (RequestKeyContext.keyAt c (RequestKeyContext.currentIndex c)
          ∈ RequestKeyContext.triedKeys c).
  by rewrite <-Hat.
Qed.

Lemma loop_inOrder fuel c lastError lastResponse made rotator r :
  ordering c made →
  loop fuel c lastError lastResponse made rotator = Some r →
  inOrder (RequestKeyContext.apiKeys c) (attempts r).
Proof.
  revert c lastError lastResponse made.
  induction fuel as [|fuel IH]; intros c lastError lastResponse made Hord;
    [done|].
  simpl.
  destruct (RequestKeyContext.getNextKey c) as [[key|] c'] eqn:Hget.
  - pose proof (ordering_attempt _ _ _ _ Hord Hget) as Hord'.
    pose proof (getNextKey_spec _ _ _ Hget)
      as (Hk & _ & _ & _ & Htried' & _ & Hat).
    destruct (send (length made) (request key)) as [response|error].
    + case_decide.
      * intros Hloop. apply IH in Hloop.
        -- cbn [RequestKeyContext.markKeyAsRateLimited
                RequestKeyContext.apiKeys] in Hloop. by rewrite <-Hk.
        -- apply ordering_mark; [done| |].
           ++ rewrite Htried'. by apply elem_of_union_l, elem_of_singleton.
           ++ by rewrite (keyAt_apiKeys c).
      * intros [= <-]. simpl. rewrite <-Hk. by destruct Hord'.
    + intros Hloop. apply IH in Hloop; [by rewrite <-Hk|done].
  - intros [= <-]. unfold Rotation.exhausted.
    destruct Hord as [_ _ _ Hmade].
    by destruct (RequestKeyContext.allTriedKeysRateLimited c');
      [|destruct lastError].
Qed.

Lemma rotate_sendsLast rnd rotator k :
  NoDup (KeyRotator.apiKeys rotator) →
  KeyRotator.lastFailedKey rotator = Some (Str k) →
  k ≠ EmptyString → k ∈ KeyRotator.apiKeys rotator →
  sendsLast k (KeyRotator.apiKeys rotator) (rotate rnd rotator).
Proof.
  intros Hnd Hhint Hk Hin.
  destruct (rotate_total send method path body headers rotationStatusCodes
              synthetic rnd rotator) as [r Hr].
  exists r. split; [done|].
  unfold Rotation.rotate in Hr. apply loop_inOrder in Hr.
  - cbn [KeyRotator.createRequestContext RequestKeyContext.new
         RequestKeyContext.apiKeys] in Hr.
    rewrite Hhint in Hr.
    set (keys := RequestKeyContext.smartShuffle rnd
                   (KeyRotator.apiKeys rotator) (Some (Str k))) in *.
    assert (NoDup keys) as Hnd' by by apply smartShuffle_NoDup.
    assert (keys !! (length (KeyRotator.apiKeys rotator) - 1) = Some k)
      as Hlast by by apply smartShuffle_lookup_last.
    intros i a Ha Hkey s Hs Hne.
    destruct (Hr i a Ha) as (idx & s0 & Hidx & Hkey0 & Hsmaller).
    assert (s0 = k) as -> by congruence.
    assert (idx = length (KeyRotator.apiKeys rotator) - 1) as ->
      by by eapply NoDup_lookup.
    assert (s ∈ keys) as Hs'
      by (unfold keys; by rewrite smartShuffle_Permutation).
    apply list_elem_of_lookup in Hs' as [j Hj].
    apply (Hsmaller j s); [|done].
    pose proof (lookup_lt_Some _ _ _ Hj) as Hlt.
    unfold keys in Hlt. rewrite smartShuffle_length in Hlt.
    assert (j ≠ length (KeyRotator.apiKeys rotator) - 1)
      by (intros ->; congruence).
    lia.
  - split.
    + apply new_invariant.
    + done.
    + intros j Hj. simpl in Hj. lia.
    + intros i a Ha. done.
Qed.
End ordered.

Section smart.
Import Notions RotationNotions OrderNotions.

(** The purpose of the smart shuffle, for a pool without duplicate
    keys: the key remembered as the last one that failed is sent, if at
    all, only after every other key of the pool has been sent in this
    request. *)
Theorem failed_key_is_sent_last (send : network) (rnd : random_source)
    (rotator : KeyRotator.t) (method path : string) (body : option string)
    (headers : gmap string string) (customStatusCodes : option (gset Z))
    (k : string) :
  NoDup (KeyRotator.apiKeys rotator) →
  KeyRotator.lastFailedKey rotator = Some (Str k) →
  k ≠ EmptyString → k ∈ KeyRotator.apiKeys rotator →
  sendsLast k (KeyRotator.apiKeys rotator)
    (OpenAIClient.makeRequest send rnd rotator method path body headers
       customStatusCodes)
  ∧ (rotationPath headers →
     sendsLast k (KeyRotator.apiKeys rotator)
       (GeminiClient.makeRequest send rnd rotator method path body headers
          customStatusCodes)).
Proof.
  intros Hnd Hhint Hk Hin. split.
  - by apply rotate_sendsLast.
  - intros Hpath. rewrite gemini_rotation_path by done.
    by apply rotate_sendsLast.
Qed.

Lemma failed_key_is_sent_last_witness :
  sendsLast "K1" (KeyRotator.apiKeys afterK1)
    (GeminiClient.makeRequest alwaysLimited halves afterK1 "POST" "/models"
       None ∅ None).
Proof.
  apply (failed_key_is_sent_last alwaysLimited halves afterK1 "POST"
           "/models" None ∅ None "K1").
  - apply (bool_decide_unpack _). vm_compute. exact I.
  - reflexivity.
  - discriminate.
  - apply (bool_decide_unpack _). vm_compute. exact I.
  - unfold rotationPath. rewrite lookup_empty. exact I.
Defined.
End smart.

(** * The URL of an upstream request *)

Section urls.
Import JS UrlNotions.

Lemma from_app prefix rest :
  Wire.from (String.length prefix) (prefix +:+ rest) = rest.
Proof.
  unfold Wire.from. rewrite append_length.
  replace (String.length prefix + String.length rest - String.length prefix)
    with (String.length rest) by lia.
  apply substring_app_r.
Qed.

(** Whether a text ends with a slash is seen at its end. *)
Lemma endsWith_slash_app base path :
  path ≠ EmptyString →
  endsWith (base +:+ path) "/" = endsWith path "/".
Proof.
  intros Hpath. induction base as [|c base IH]; [done|].
  rewrite append_cons, <-IH. clear IH.
  assert (base +:+ path ≠ EmptyString) as Hne.
  { destruct base; [by rewrite append_nil|by rewrite append_cons]. }
  destruct (base +:+ path) as [|d s]; [done|].
  unfold endsWith. cbn [String.length].
  rewrite !bool_decide_eq_true_2 by lia. cbn [andb].
  replace (S (S (String.length s)) - 1) with (S (String.length s)) by lia.
  by replace (S (String.length s) - 1) with (String.length s) by lia.
Qed.

Lemma endsWith_slash_name base name :
  versionName name → endsWith (base +:+ name) "/" = false.
Proof.
  intros [Hne Hslash]. rewrite endsWith_slash_app by done.
  by apply endsWith_includes with (c := "/"%char).
Qed.

(** Lines 84-91 of openaiClient.js: a base URL and a path are joined
    with exactly one slash between them, whether or not the base URL
    ends with one and the path starts with one. *)
Theorem openaiUrl_joins_with_one_slash (baseUrl path : string) :
  endsWith baseUrl "/" = false →
  path ≠ EmptyString → Wire.startsWith path "/" = false →
  Wire.openaiUrl baseUrl path = baseUrl +:+ "/" +:+ path
  ∧ Wire.openaiUrl (baseUrl +:+ "/") path = baseUrl +:+ "/" +:+ path
  ∧ Wire.openaiUrl baseUrl ("/" +:+ path) = baseUrl +:+ "/" +:+ path
  ∧ Wire.openaiUrl (baseUrl +:+ "/") ("/" +:+ path)
    = baseUrl +:+ "/" +:+ path.
Proof.
  intros Hbase Hne Hpath.
  assert (path ≠ "/") as Hroot by (intros ->; by vm_compute in Hpath).
  assert ("/" +:+ path ≠ EmptyString) as Hne' by by rewrite append_cons.
  assert ("/" +:+ path ≠ "/") as Hroot'.
  { rewrite append_cons, append_nil. intros [= ->]. done. }
  assert (Wire.startsWith ("/" +:+ path) "/" = true) as Hslash
    by (apply startsWith_iff; by exists path).
  unfold Wire.openaiUrl.
  rewrite !(bool_decide_eq_false_2 (path = _)) by done.
  rewrite !(bool_decide_eq_false_2 ("/" +:+ path = _)) by done.
  cbn [orb]. rewrite Hpath, Hslash, Hbase, endsWith_app.
  change (Wire.from 1 ("/" +:+ path))
    with (Wire.from (String.length "/") ("/" +:+ path)).
  by rewrite from_app, !append_assoc.
Qed.

Lemma openaiUrl_joins_with_one_slash_witness :
  Wire.openaiUrl "https://api.acme.test/v1" "chat/completions"
  = "https://api.acme.test/v1" +:+ "/" +:+ "chat/completions"
  ∧ Wire.openaiUrl ("https://api.acme.test/v1" +:+ "/") "chat/completions"
    = "https://api.acme.test/v1" +:+ "/" +:+ "chat/completions"
  ∧ Wire.openaiUrl "https://api.acme.test/v1" ("/" +:+ "chat/completions")
    = "https://api.acme.test/v1" +:+ "/" +:+ "chat/completions"
  ∧ Wire.openaiUrl ("https://api.acme.test/v1" +:+ "/")
      ("/" +:+ "chat/completions")
    = "https://api.acme.test/v1" +:+ "/" +:+ "chat/completions".
Proof.
  apply (openaiUrl_joins_with_one_slash "https://api.acme.test/v1"
           "chat/completions"); [reflexivity|discriminate|reflexivity].
Defined.
End urls.

Section versions.
Import JS Version UrlNotions.

Lemma run_name name rest :
  includes name "/" = false → run (name +:+ String "/" rest) = name.
Proof.
  induction name as [|c name IH]; [done|]. cbn [includes].
  intros [Hc Hname]%orb_false_elim. rewrite append_cons. cbn [run].
  by rewrite Hc, IH.
Qed.

Lemma pathVersion_versioned name rest :
  versionName name →
  pathVersion (versioned name +:+ String "/" rest) = Some (versioned name).
Proof.
  intros [Hne Hslash]. unfold versioned. rewrite !append_cons.
  cbn [pathVersion]. rewrite run_name by done.
  rewrite bool_decide_eq_true_2 by done. rewrite from_app.
  by rewrite (proj2 (startsWith_iff (String "/" rest) "/"))
    by by exists rest.
Qed.

Lemma versionHere_versioned name :
  versionName name → versionHere (versioned name) = true.
Proof.
  intros [Hne Hslash]. cbn [versionHere versioned].
  by rewrite bool_decide_eq_true_2, Hslash.
Qed.

(** Nothing that goes on with a version segment is itself one. *)
Lemma versionHere_before c root name :
  versionHere (String c (root +:+ versioned name)) = false.
Proof.
  destruct (decide (c = "/"%char)) as [->|Hc];
    [|by destruct c as [[] [] [] [] [] [] [] []]].
  destruct root as [|d root].
  - by rewrite append_nil.
  - rewrite append_cons.
    destruct (decide (d = "v"%char)) as [->|Hd];
      [|by destruct d as [[] [] [] [] [] [] [] []]].
    cbn [versionHere]. unfold versioned.
    rewrite includes_app. cbn [includes].
    rewrite (bool_decide_eq_true_2 ("/"%char = "/"%char)) by done.
    by rewrite orb_true_r, andb_false_r.
Qed.

Lemma baseVersion_versioned root name :
  versionName name →
  baseVersion (root +:+ versioned name) = Some (versioned name).
Proof.
  intros Hname. induction root as [|c root IH].
  - rewrite append_nil. unfold versioned. cbn [baseVersion].
    change (String "/" (String "v" name)) with (versioned name).
    by rewrite versionHere_versioned.
  - rewrite append_cons. cbn [baseVersion].
    by rewrite versionHere_before.
Qed.

(** A version segment begins where it is looked for or after it: it
    does not begin in the text before and end in the segment. *)
Lemma startsWith_straddle c tail name :
  versionName name →
  Wire.startsWith (String c tail +:+ versioned name) (versioned name) = true →
  Wire.startsWith (String c tail) (versioned name) = true.
Proof.
  intros [Hne Hslash]. rewrite !startsWith_iff. unfold versioned.
  rewrite !append_cons. intros [rest [= -> Hrest]].
  assert (∀ (name tail middle rest : string),
            includes name "/" = false →
            tail +:+ String "/" middle = name +:+ rest →
            ∃ rest', tail = name +:+ rest') as Hprefix.
  { clear. induction name as [|d name IH]; intros tail middle rest Hslash.
    - intros _. by exists tail.
    - cbn [includes] in Hslash. apply orb_false_elim in Hslash as [Hd Hname].
      apply bool_decide_eq_false in Hd.
      destruct tail as [|e tail].
      + rewrite append_nil, append_cons. intros [= <- _]. done.
      + rewrite !append_cons. intros [= -> Htail].
        destruct (IH _ _ _ Hname Htail) as [rest' ->]. by exists rest'. }
  destruct tail as [|d tail]; [by rewrite append_nil in Hrest|].
  rewrite !append_cons in Hrest. injection Hrest as -> Hrest.
  destruct (Hprefix _ _ _ _ Hslash Hrest) as [rest' ->].
  by exists rest'.
Qed.

Lemma search_versioned root name :
  versionName name → search (versioned name) root = None →
  search (versioned name) (root +:+ versioned name)
  = Some (String.length root).
Proof.
  intros Hname. induction root as [|c root IH].
  - intros _. rewrite append_nil.
    assert (Wire.startsWith (versioned name) (versioned name) = true) as Hs.
    { apply startsWith_iff. exists EmptyString. by rewrite append_nil_r. }
    unfold versioned in *. cbn [search]. by rewrite Hs.
  - cbn [search].
    destruct (Wire.startsWith (String c root) (versioned name)) eqn:Hhere;
      [done|].
    destruct (search (versioned name) root) as [n|] eqn:Hroot; [done|].
    intros _. rewrite append_cons.
    change (search (versioned name) (String c (root +:+ versioned name)))
      with (if Wire.startsWith (String c (root +:+ versioned name))
                 (versioned name)
            then Some 0
            else S <$> search (versioned name) (root +:+ versioned name)).
    destruct (Wire.startsWith (String c (root +:+ versioned name))
                (versioned name)) eqn:Hstraddle.
    + rewrite <-append_cons in Hstraddle.
      apply startsWith_straddle in Hstraddle; [congruence|done].
    + by rewrite IH.
Qed.

Lemma substitute_plain matched before after template :
  includes template "$" = false →
  substitute matched before after template = template.
Proof.
  induction template as [|c template IH]; [done|]. cbn [includes].
  intros [Hc Htemplate]%orb_false_elim. apply bool_decide_eq_false in Hc.
  specialize (IH Htemplate).
  assert (substitute matched before after (String c template)
          = String c (substitute matched before after template)) as ->.
  { destruct c as [[] [] [] [] [] [] [] []]; try done. }
  by rewrite IH.
Qed.

Lemma from_length s : Wire.from (String.length s) s = EmptyString.
Proof.
  pose proof (from_app s EmptyString) as Hfrom.
  by rewrite append_nil_r in Hfrom.
Qed.

Lemma replace_versioned root name name' :
  versionName name → search (versioned name) root = None →
  includes name' "$" = false →
  replace (versioned name) (versioned name') (root +:+ versioned name)
  = root +:+ versioned name'.
Proof.
  intros Hname Hroot Hdollar. unfold replace.
  rewrite search_versioned by done.
  rewrite substring_app_l.
  rewrite <-append_length, from_length.
  rewrite substitute_plain; [by rewrite append_nil_r|].
  unfold versioned. cbn [includes]. by rewrite Hdollar.
Qed.

(** The version handling of the Gemini client, for a base URL that ends
    with a version segment found nowhere before in it and a path that
    starts with one: a different version in the path takes the place of
    the one of the base URL, the URL being the base URL without its
    version followed by the path; the same version is not recognised as
    such and stands twice in the URL. *)
Theorem geminiUrl_path_version_replaces_base_version
    (root name name' rest : string) :
  versionName name → versionName name' →
  includes name' "$" = false →
  search (versioned name) root = None →
  (name' ≠ name →
   geminiUrl (root +:+ versioned name) (versioned name' +:+ String "/" rest)
   = root +:+ versioned name' +:+ String "/" rest)
  ∧ geminiUrl (root +:+ versioned name) (versioned name +:+ String "/" rest)
    = root +:+ versioned name +:+ versioned name +:+ String "/" rest.
Proof.
  intros Hname Hname' Hdollar Hroot.
  assert (∀ name0, versionName name0 →
            geminiUrl (root +:+ versioned name)
              (versioned name0 +:+ String "/" rest)
            = let '(effectiveBaseUrl, path') :=
                if decide (versioned name0 = versioned name)
                then (root +:+ versioned name,
                      versioned name0 +:+ String "/" rest)
                else (replace (versioned name) (versioned name0)
                        (root +:+ versioned name),
                      Wire.from (String.length (versioned name0))
                        (versioned name0 +:+ String "/" rest)) in
              if endsWith effectiveBaseUrl "/"
              then effectiveBaseUrl +:+ Wire.from 1 path'
              else effectiveBaseUrl +:+ path') as Hurl.
  { intros name0 Hname0. unfold geminiUrl.
    rewrite pathVersion_versioned, baseVersion_versioned by done.
    assert (Wire.startsWith (versioned name0 +:+ String "/" rest) "/" = true)
      as -> by (apply startsWith_iff; by eexists).
    unfold versioned at 1 2. rewrite !append_cons.
    by rewrite !bool_decide_eq_false_2 by done. }
  split.
  - intros Hne. rewrite Hurl by done.
    rewrite decide_False by (unfold versioned; congruence).
    rewrite replace_versioned, from_app by done.
    unfold versioned at 1 2.
    change (String "/" (String "v" name')) with ("/v" +:+ name').
    rewrite <-!append_assoc, endsWith_slash_name by done.
    by rewrite !append_assoc.
  - rewrite Hurl by done. rewrite decide_True by done.
    unfold versioned at 1.
    change (String "/" (String "v" name)) with ("/v" +:+ name).
    rewrite <-!append_assoc, endsWith_slash_name by done.
    by rewrite !append_assoc.
Qed.

Lemma geminiUrl_path_version_replaces_base_version_witness :
  ("1beta" ≠ "1" →
   geminiUrl ("https://generativelanguage.googleapis.com" +:+ versioned "1")
     (versioned "1beta" +:+ String "/" "models/m:generateContent")
   = "https://generativelanguage.googleapis.com" +:+ versioned "1beta"
     +:+ String "/" "models/m:generateContent")
  ∧ geminiUrl ("https://generativelanguage.googleapis.com" +:+ versioned "1")
      (versioned "1" +:+ String "/" "models/m:generateContent")
    = "https://generativelanguage.googleapis.com" +:+ versioned "1"
      +:+ versioned "1" +:+ String "/" "models/m:generateContent".
Proof.
  apply (geminiUrl_path_version_replaces_base_version
           "https://generativelanguage.googleapis.com" "1" "1beta"
           "models/m:generateContent").
  - split; [discriminate|reflexivity].
  - split; [discriminate|reflexivity].
  - reflexivity.
  - reflexivity.
Defined.
End versions.

(** * The request log and the stored responses *)

Section monitoring.
Import Monitoring MonitoringNotions.

Lemma logOne_drop logBuffer l :
  length logBuffer ≤ 100 →
  logOne logBuffer l
  = drop (length (logBuffer ++ [entryOf l]) - 100) (logBuffer ++ [entryOf l]).
Proof.
  intros Hlen. unfold logOne, logApiRequest. fold (entryOf l).
  rewrite length_app. cbn [length]. case_decide as Hfull.
  - replace (length logBuffer + 1 - 100) with 1 by lia.
    by destruct logBuffer.
  - by replace (length logBuffer + 1 - 100) with 0 by lia.
Qed.

(** The log buffer holds the most recent hundred entries, oldest
    first: after any number of calls of [logApiRequest], it is what
    was in it followed by one entry per call, cut down to its last
    hundred entries; and [handleGetLogs] returns it whole. *)
Theorem log_buffer_keeps_last_hundred (logBuffer : list LogEntry)
    (calls : list logging) :
  length logBuffer ≤ 100 →
  foldl logOne logBuffer calls
  = drop (length (logBuffer ++ (entryOf <$> calls)) - 100)
      (logBuffer ++ (entryOf <$> calls))
  ∧ length (foldl logOne logBuffer calls) ≤ 100
  ∧ recentLogs (foldl logOne logBuffer calls) = foldl logOne logBuffer calls.
Proof.
  intros Hlen.
  assert (foldl logOne logBuffer calls
          = drop (length (logBuffer ++ (entryOf <$> calls)) - 100)
              (logBuffer ++ (entryOf <$> calls))) as Hfold.
  { revert logBuffer Hlen.
    induction calls as [|l calls IH]; intros logBuffer Hlen.
    - cbn [foldl fmap list_fmap]. rewrite app_nil_r.
      by replace (length logBuffer - 100) with 0 by lia.
    - cbn [foldl fmap list_fmap]. rewrite logOne_drop by done.
      rewrite IH by (rewrite length_drop, length_app; simpl; lia).
      rewrite length_app, length_drop, !length_app, length_fmap.
      cbn [length].
      rewrite <-drop_app_le by (rewrite length_app; simpl; lia).
      rewrite drop_drop, <-(assoc_L (++)). cbn [app]. f_equal.
      rewrite length_fmap. lia. }
  split; [done|]. rewrite Hfold. split.
  - rewrite length_drop. lia.
  - unfold recentLogs. rewrite drop_drop, length_drop. f_equal. lia.
Qed.

Lemma log_buffer_keeps_last_hundred_witness :
  foldl logOne [] [incoming; incoming]
  = drop (length ([] ++ (entryOf <$> [incoming; incoming])) - 100)
      ([] ++ (entryOf <$> [incoming; incoming]))
  ∧ length (foldl logOne [] [incoming; incoming]) ≤ 100
  ∧ recentLogs (foldl logOne [] [incoming; incoming])
    = foldl logOne [] [incoming; incoming].
Proof.
  apply (log_buffer_keeps_last_hundred [] [incoming; incoming]). simpl. lia.
Defined.

Section store.
Context {V : Type}.
Implicit Types (entries : list (string * V)) (key : string) (value : V).

Lemma mapGet_None key entries :
  mapGet key entries = None ↔ key ∉ entries.*1.
Proof.
  induction entries as [|[k v] entries IH]; cbn [mapGet fmap list_fmap].
  - split; [intros _; apply not_elem_of_nil|done].
  - rewrite not_elem_of_cons. case_decide as Hk; cbn [fst].
    + split; [done|]. by intros [? _].
    + rewrite IH. split; [by split|by intros [_ ?]].
Qed.

(** Setting a key that is there keeps the order of the keys. *)
Lemma mapSet_present key value entries :
  key ∈ entries.*1 →
  (mapSet key value entries).*1 = entries.*1
  ∧ mapGet key (mapSet key value entries) = Some value
  ∧ ∀ other, other ≠ key →
             mapGet other (mapSet key value entries)
             = mapGet other entries.
Proof.
  induction entries as [|[k v] entries IH]; cbn [fmap list_fmap fst].
  - by intros ?%not_elem_of_nil.
  - intros Hin. cbn [mapSet]. case_decide as Hk.
    + subst k. cbn [fmap list_fmap fst mapGet].
      rewrite decide_True by done. split; [done|]. split; [done|].
      intros other Hother. by rewrite !decide_False by done.
    + apply elem_of_cons in Hin as [->|Hin]; [done|].
      destruct (IH Hin) as (Hkeys & Hget & Hothers).
      cbn [fmap list_fmap fst mapGet]. rewrite Hkeys.
      rewrite decide_False by done. split; [done|]. split; [done|].
      intros other Hother. case_decide; [done|]. by apply Hothers.
Qed.

(** Setting a new key puts it last. *)
Lemma mapSet_absent key value entries :
  key ∉ entries.*1 → mapSet key value entries = entries ++ [(key, value)].
Proof.
  induction entries as [|[k v] entries IH]; cbn [fmap list_fmap fst];
    [done|].
  intros [Hk Hin]%not_elem_of_cons. cbn [mapSet].
  rewrite decide_False by done. by rewrite IH.
Qed.

Lemma mapGet_app key entries entries' :
  mapGet key (entries ++ entries')
  = match mapGet key entries with
    | Some value => Some value
    | None => mapGet key entries'
    end.
Proof.
  induction entries as [|[k v] entries IH]; [done|]. cbn [app mapGet].
  by case_decide.
Qed.

(** What [storeResponseData] keeps: each identifier once and at most
    a hundred of them; the response just stored can be read back;
    and every other response stays as it was, but the oldest one
    when a new identifier finds the store full. *)
Theorem stored_response_can_be_read_back (testId : string)
    (responseData : V) (responseStorage : list (string * V)) :
  bounded responseStorage →
  let stored := storeResponseData testId responseData responseStorage in
  bounded stored
  ∧ mapGet testId stored = Some responseData
  ∧ ∀ other,
      other ≠ testId →
      mapGet other stored = mapGet other responseStorage
      ∨ (mapGet other stored = None
         ∧ length responseStorage = 100
         ∧ mapGet testId responseStorage = None
         ∧ fst <$> head responseStorage = Some other).
Proof.
  intros [Hnd Hlen] stored. unfold stored, storeResponseData.
  destruct (decide (testId ∈ responseStorage.*1)) as [Hin|Hnew].
  - destruct (mapSet_present testId responseData responseStorage Hin)
      as (Hkeys & Hget & Hothers).
    assert (length (mapSet testId responseData responseStorage)
            = length responseStorage) as Hsame.
    { by rewrite <-(length_fmap fst), Hkeys, length_fmap. }
    rewrite decide_False by lia.
    split; [split; [by rewrite Hkeys|lia]|]. split; [done|].
    intros other Hother. left. by apply Hothers.
  - rewrite mapSet_absent by done. rewrite length_app. cbn [length].
    assert (mapGet testId responseStorage = None) as Hnone
      by by apply mapGet_None.
    case_decide as Hfull.
    + destruct responseStorage as [|[firstKey v] rest];
        [simpl in Hfull; lia|].
      cbn [app mapDelete]. rewrite decide_True by done.
      cbn [fmap list_fmap fst] in Hnd, Hnew.
      apply NoDup_cons in Hnd as [Hfirst Hrest].
      apply not_elem_of_cons in Hnew as [Hne Hnew].
      split; [split|].
      * rewrite fmap_app. apply NoDup_app. split; [done|]. split.
        -- intros k Hk ->%list_elem_of_singleton. done.
        -- apply NoDup_singleton.
      * rewrite length_app. simpl in *. lia.
      * split.
        -- rewrite mapGet_app.
           rewrite (proj2 (mapGet_None testId rest)) by done.
           cbn [mapGet]. by rewrite decide_True.
        -- intros other Hother. rewrite mapGet_app. cbn [mapGet].
           rewrite (decide_False (P := testId = other)) by done.
           destruct (decide (firstKey = other)) as [->|Hdiff].
           ++ right.
              rewrite (proj2 (mapGet_None other rest)) by done.
              split; [done|]. split; [simpl in *; lia|].
              split; [|done]. cbn [mapGet] in Hnone.
              by rewrite decide_False in Hnone |- * by done.
           ++ left. by destruct (mapGet other rest).
    + split; [split|].
      * rewrite fmap_app. apply NoDup_app. split; [done|]. split.
        -- intros k Hk ->%list_elem_of_singleton. done.
        -- apply NoDup_singleton.
      * rewrite length_app. simpl. lia.
      * split.
        -- rewrite mapGet_app, Hnone. cbn [mapGet].
           by rewrite decide_True.
        -- intros other Hother. left. rewrite mapGet_app. cbn [mapGet].
           rewrite (decide_False (P := testId = other)) by done.
           by destruct (mapGet other responseStorage).
Qed.
End store.

Lemma stored_response_can_be_read_back_witness :
  let stored := storeResponseData "abc123" 200%Z [("xyz789", 429%Z)] in
  bounded stored
  ∧ mapGet "abc123" stored = Some 200%Z
  ∧ ∀ other,
      other ≠ "abc123" →
      mapGet other stored = mapGet other [("xyz789", 429%Z)]
      ∨ (mapGet other stored = None
         ∧ length [("xyz789", 429%Z)] = 100
         ∧ mapGet "abc123" [("xyz789", 429%Z)] = None
         ∧ fst <$> head [("xyz789", 429%Z)] = Some other).
Proof.
  apply (stored_response_can_be_read_back "abc123" 200%Z
           [("xyz789", 429%Z)]).
  split; [|simpl; lia].
  apply (bool_decide_unpack _). vm_compute. exact I.
Defined.
End monitoring.

(** * The admin login *)

Section login.
Import Admin AdminNotions.

Lemma handleAdminLogin_counting clock fresh file body server
    earlier :
  counting server (invalidSince earlier) →
  let '(reply, server') :=
    handleAdminLogin clock fresh file body server in
  counting server' (invalidSince (reply :: earlier))
  ∧ ∀ n, reply = InvalidPassword n → (1 ≤ n ≤ 4)%Z.
Proof.
  intros Hcount.
  (* the request goes past the blocking check *)
  assert (∀ calls,
            let '(reply, server') :=
              match body with
              | Malformed => (InvalidRequest, server)
              | Data given =>
                  if matches given (getAdminPassword file) then
                    (LoggedIn fresh (clock calls + 24 * 60 * 60 * 1000)%Z,
                     {| failedLoginAttempts := 0; loginBlockedUntil := None;
                        adminSessionToken := Some fresh |})
                  else
                    let failed := S (failedLoginAttempts server) in
                    if decide (5 ≤ failed) then
                      let blockedUntil := (clock calls + 5 * 60 * 1000)%Z in
                      (NowBlocked blockedUntil,
                       {| failedLoginAttempts := failed;
                          loginBlockedUntil := Some blockedUntil;
                          adminSessionToken := adminSessionToken server |})
                    else
                      (InvalidPassword (5 - Z.of_nat failed)%Z,
                       {| failedLoginAttempts := failed;
                          loginBlockedUntil := loginBlockedUntil server;
                          adminSessionToken := adminSessionToken server |})
              end in
            counting server' (invalidSince (reply :: earlier))
            ∧ ∀ n, reply = InvalidPassword n → (1 ≤ n ≤ 4)%Z) as Hpast.
  { intros calls. destruct body as [|given]; [by split|].
    destruct (matches given (getAdminPassword file)).
    { split; [|done]. left. cbn. repeat split; lia. }
    cbv zeta. case_decide as Hfive.
    - split; [|done]. right. cbn. split; [lia|]. split; [done|].
      destruct Hcount as [(? & _ & ->)|(_ & _ & ?)]; lia.
    - split.
      + left. cbn.
        destruct Hcount as [(_ & Hnone & ->)|(? & _ & _)]; [|lia].
        repeat split; [lia|done].
      + intros n [= <-]. lia. }
  unfold handleAdminLogin.
  destruct (loginBlockedUntil server) as [blockedUntil|] eqn:Hblocked;
    [|apply Hpast].
  case_decide; [apply Hpast|]. case_decide; [|apply Hpast].
  by split.
Qed.

Lemma logins_counting requests server earlier :
  counting server (invalidSince earlier) →
  counting (logins requests server).2
    (invalidSince (rev (logins requests server).1 ++ earlier))
  ∧ Forall (λ reply, ∀ n, reply = InvalidPassword n → (1 ≤ n ≤ 4)%Z)
      (logins requests server).1.
Proof.
  revert server earlier.
  induction requests as [|[a|] requests IH]; intros server earlier Hcount;
    [done| |by apply IH].
  cbn [logins].
  pose proof (handleAdminLogin_counting (clock a) (fresh a) (file a)
                (body a) server earlier Hcount) as Hstep.
  destruct (handleAdminLogin _ _ _ _ server) as [reply server'].
  destruct Hstep as [Hcount' Hreply].
  destruct (IH server' (reply :: earlier) Hcount') as [Hfinal Hreplies].
  destruct (logins requests server') as [replies server''].
  cbn [fst snd rev] in *. rewrite <-(assoc_L (++)). cbn [app].
  split; [done|]. by apply Forall_cons.
Qed.

(** The lockout of the admin login, over any sequence of login and
    logout requests to a server that has just started: since the last
    successful login at most four requests were answered "invalid
    password", each of them announcing between one and four remaining
    attempts, and the server holds a blocking time exactly when it has
    counted five failures or more.  Only a successful login resets the
    counter: the passing of the blocking time does not. *)
Theorem login_tells_invalid_at_most_four_times (requests : list request) :
  invalidSince (rev (logins requests initial).1) ≤ 4
  ∧ Forall (λ reply, ∀ n, reply = InvalidPassword n → (1 ≤ n ≤ 4)%Z)
      (logins requests initial).1
  ∧ (5 ≤ failedLoginAttempts (logins requests initial).2 ↔
     loginBlockedUntil (logins requests initial).2 ≠ None).
Proof.
  destruct (logins_counting requests initial []) as [Hcount Hreplies].
  { left. cbn. repeat split; lia. }
  rewrite app_nil_r in Hcount. split; [|split; [done|]].
  - destruct Hcount as [(? & _ & ->)|(_ & _ & ?)]; lia.
  - destruct Hcount as [(? & -> & _)|(? & ? & _)]; [|done].
    split; [lia|done].
Qed.
End login.

(** * The admin session *)

Section session.
Import JS Admin AdminNotions.
Implicit Types (s t piece : string) (c : ascii).














End session.

(** * Every order comes out of the shuffle *)

Section orders.
Import RequestKeyContext.
Implicit Types (keys shuffled front back target : list string)
  (rnd : random_source).

(** The loop reads the random source from the call [calls] on. *)
Lemma fisherYates_ext rnd rnd' calls i shuffled :
  (∀ k, calls ≤ k → rnd k = rnd' k) →
  fisherYates rnd calls i shuffled = fisherYates rnd' calls i shuffled.
Proof.
  revert calls shuffled.
  induction i as [|i IH]; intros calls shuffled Hrnd; [done|].
  cbn [fisherYates]. rewrite (Hrnd calls) by lia.
  apply IH. intros k Hk. apply Hrnd. lia.
Qed.

(** The draw [(2 j + 1) / (2 (i + 1))], the middle of the numbers that
    pick the cell [j]. *)
Lemma floor_mul_middle i j :
  j ≤ i →
  floor_mul {| num := 2 * j + 1; gap := 2 * (i - j) |} (i + 1) = j.
Proof.
  intros Hj. unfold floor_mul. cbn [num gap].
  replace (2 * j + 1 + 2 * (i - j) + 1) with (2 * (i + 1)) by lia.
  symmetry. apply (Nat.div_unique _ _ _ (i + 1)); lia.
Qed.

Lemma swap_cons x shuffled i j :
  swap (x :: shuffled) (S i) (S j) = x :: swap shuffled i j.
Proof.
  unfold swap. cbn [lookup list_lookup].
  change ((x :: shuffled) !! S i) with (shuffled !! i).
  change ((x :: shuffled) !! S j) with (shuffled !! j).
  by destruct (shuffled !! i), (shuffled !! j).
Qed.

Lemma swap_apart a b back x y :
  swap (a ++ x :: b ++ y :: back) (length a + S (length b)) (length a)
  = a ++ y :: b ++ x :: back.
Proof.
  induction a as [|c a IH].
  - cbn [app length Nat.add]. unfold swap.
    change ((x :: b ++ y :: back) !! S (length b))
      with ((b ++ y :: back) !! length b).
    rewrite list_lookup_middle by done.
    cbn. f_equal. induction b as [|c b IH]; [done|]. cbn. by f_equal.
  - cbn [app length Nat.add]. by rewrite swap_cons, IH.
Qed.

Lemma swap_same shuffled i : swap shuffled i i = shuffled.
Proof.
  unfold swap. destruct (shuffled !! i) as [x|] eqn:Hi; [|done].
  by rewrite !(list_insert_id shuffled i x Hi).
Qed.

(** The loop turns the cells up to [i] into any order of them. *)
Lemma fisherYates_reaches target front back calls :
  front ≡ₚ target →
  ∃ rnd,
    fisherYates rnd calls (length front - 1) (front ++ back)
    = target ++ back.
Proof.
  revert front back calls.
  induction target as [|x target IH] using rev_ind;
    intros front back calls Hperm.
  - apply Permutation_nil_r in Hperm as ->. by exists (λ _, Draw 0 0).
  - destruct front as [|y front _] using rev_ind.
    { apply Permutation_length in Hperm.
      rewrite length_app in Hperm. cbn in Hperm. lia. }
    rewrite length_app. cbn [length].
    replace (length front + 1 - 1) with (length front) by lia.
    destruct (length front) as [|i] eqn:Hlen.
    { destruct front; [|done].
      apply Permutation_length in Hperm as Hlength.
      rewrite !length_app in Hlength. cbn in Hlength.
      destruct target; [|cbn in Hlength; lia].
      apply Permutation_singleton_l in Hperm as [= ->].
      by exists (λ _, Draw 0 0). }
    (* the cell that holds [x], and the array after the swap *)
    assert (∃ j front',
              j ≤ S i ∧ length front' = S i ∧ front' ≡ₚ target
              ∧ swap ((front ++ [y]) ++ back) (S i) j
                = front' ++ [x] ++ back) as (j & front' & Hj & Hlen' & Hperm' & Hswap).
    { destruct (decide (x = y)) as [->|Hxy].
      - exists (S i), front. split; [done|]. split; [done|].
        split; [by apply (inj (.++ [y]))|].
        by rewrite swap_same, <-(assoc_L (++)).
      - assert (x ∈ front) as (a & b & ->)%list_elem_of_split.
        { assert (x ∈ front ++ [y]) as [?|?%list_elem_of_singleton]%elem_of_app;
            [|done..].
          rewrite Hperm. apply elem_of_app. right. by left. }
        exists (length a), (a ++ y :: b).
        rewrite !length_app in *. cbn [length] in *.
        split; [lia|]. split; [done|]. split.
        + apply (inj (.++ [x])). rewrite <-Hperm.
          rewrite <-!(assoc_L (++)). cbn [app].
          apply Permutation_app_head.
          rewrite (Permutation_app_comm b [x]), (Permutation_app_comm b [y]).
          apply perm_swap.
        + replace (S i) with (length a + S (length b)) by lia.
          rewrite <-!(assoc_L (++)). cbn [app]. apply swap_apart. }
    destruct (IH front' ([x] ++ back) (S calls) Hperm') as [rnd' Hrnd'].
    rewrite Hlen' in Hrnd'. cbn [Nat.sub] in Hrnd'.
    exists (λ k, if decide (k = calls)
                 then {| num := 2 * j + 1; gap := 2 * (S i - j) |}
                 else rnd' k).
    cbn [fisherYates]. rewrite decide_True by done.
    replace (S (S i)) with (S i + 1) by lia.
    rewrite floor_mul_middle by done.
    replace (S i + 1) with (S (S i)) by lia.
    rewrite Hswap. rewrite Nat.sub_0_r in Hrnd'.
    rewrite <-(assoc_L (++)), <-Hrnd'.
    apply fisherYates_ext. intros k Hk. by rewrite decide_False by lia.
Qed.
End orders.

Section reach.
Import RequestKeyContext.
Implicit Types (keys target : list string) (rnd : random_source).

(** The shuffle leaves no order out: every order of the keys comes out
    of [smartShuffle] for some sequence of random draws, provided it
    ends with the last failed key where that key is a non-empty string
    of the pool. *)
Theorem smartShuffle_reaches_every_order keys (lastFailedKey : option jskey)
    target :
  keys ≡ₚ target →
  (∀ k, lastFailedKey = Some (Str k) → k ≠ EmptyString → k ∈ keys →
        last target = Some k) →
  ∃ rnd, smartShuffle rnd keys lastFailedKey = target.
Proof.
  intros Hperm Hlast.
  assert ((∃ k, lastFailedKey = Some (Str k)
                ∧ k ≠ EmptyString ∧ k ∈ keys)
          ∨ ¬ ∃ k, lastFailedKey = Some (Str k)
                   ∧ k ≠ EmptyString ∧ k ∈ keys)
    as [(k & -> & Hk & Hin)|Hnone].
  { destruct lastFailedKey as [[|k]|];
      [right; by intros (? & ? & _)| |right; by intros (? & ? & _)].
    destruct (decide (k = EmptyString)) as [->|?];
      [right; by intros (? & [= <-] & ? & _)|].
    destruct (decide (k ∈ keys));
      [left; by exists k|right; by intros (? & [= <-] & _ & ?)]. }
  - specialize (Hlast k eq_refl Hk Hin).
    apply last_Some in Hlast as [rest ->].
    destruct (fisherYates_reaches (k :: rest) keys [] 0) as [rnd Hrnd].
    { rewrite Hperm. by rewrite Permutation_app_comm. }
    rewrite !app_nil_r in Hrnd. exists rnd. unfold smartShuffle, includes.
    rewrite Hrnd, bool_decide_eq_true_2 by done.
    destruct k; [done|]. cbn [truthy_str andb indexOf].
    by rewrite decide_True.
  - destruct (fisherYates_reaches target keys [] 0 Hperm) as [rnd Hrnd].
    rewrite !app_nil_r in Hrnd. exists rnd.
    rewrite smartShuffle_no_hint; [done|].
    intros k ->. destruct (decide (k = EmptyString)); [by left|].
    destruct (decide (k ∈ keys)); [|by right].
    destruct Hnone. by exists k.
Qed.

Lemma smartShuffle_reaches_every_order_witness :
  ∃ rnd,
    smartShuffle rnd ["K1"; "K2"; "K3"] (Some (Str "K2"))
    = ["K3"; "K1"; "K2"].
Proof.
  apply (smartShuffle_reaches_every_order ["K1"; "K2"; "K3"]
           (Some (Str "K2")) ["K3"; "K1"; "K2"]).
  - apply (bool_decide_unpack _). vm_compute. reflexivity.
  - intros k [= <-] _ _. reflexivity.
Defined.
End reach.

(** * Reading an env file back *)

Section env.
Import JS Config EnvNotions.
Implicit Types (s t key value : string) (c : ascii)
  (envVars : gmap string string).

Lemma trimStart_shorter s :
  trimStart s = s ∨ String.length (trimStart s) < String.length s.
Proof.
  destruct s as [|c s]; [by left|]. cbn [trimStart].
  destruct (isWhiteSpace c); [|by left].
  right. pose proof (trimStart_length s). cbn. lia.
Qed.

Lemma trimEnd_shorter s :
  trimEnd s = s ∨ String.length (trimEnd s) < String.length s.
Proof.
  induction s as [|c s IH]; [by left|]. cbn [trimEnd].
  destruct IH as [->|IH].
  - destruct s as [|d s]; [|by left].
    destruct (isWhiteSpace c); [right; cbn; lia|by left].
  - right. destruct (trimEnd s) as [|d t].
    + destruct (isWhiteSpace c); cbn in *; lia.
    + cbn in *. lia.
Qed.

(** A trimmed text has no white space at either end. *)
Lemma trim_fixed s : trim s = s → trimStart s = s ∧ trimEnd s = s.
Proof.
  unfold trim. intros Htrim.
  destruct (trimStart_shorter s) as [Hstart|Hstart].
  - rewrite Hstart in Htrim. by rewrite Hstart.
  - pose proof (trimEnd_length (trimStart s)) as Hend.
    rewrite Htrim in Hend. lia.
Qed.

Lemma trimStart_app s c t :
  isWhiteSpace c = false → trimStart s = s →
  trimStart (s +:+ String c t) = s +:+ String c t.
Proof.
  intros Hc Hs. destruct s as [|d s].
  - rewrite append_nil. cbn [trimStart]. by rewrite Hc.
  - rewrite append_cons. cbn [trimStart] in *.
    destruct (isWhiteSpace d); [|done].
    pose proof (trimStart_length s) as Hlen. rewrite Hs in Hlen.
    cbn in Hlen. lia.
Qed.

Lemma trimEnd_app s t :
  t ≠ EmptyString → trimEnd t = t → trimEnd (s +:+ t) = s +:+ t.
Proof.
  intros Hne Ht. induction s as [|c s IH]; [by rewrite append_nil|].
  rewrite append_cons. cbn [trimEnd]. rewrite IH.
  destruct (s +:+ t) as [|d u] eqn:Hst; [|done].
  destruct s; [by rewrite append_nil in Hst|done].
Qed.

Lemma trimEnd_snoc s c :
  isWhiteSpace c = false →
  trimEnd (s +:+ String c EmptyString) = s +:+ String c EmptyString.
Proof.
  intros Hc. apply trimEnd_app; [done|]. cbn. by rewrite Hc.
Qed.

(** An assignment is not trimmed. *)
Lemma trim_assignment key value :
  trim key = key → trim value = value →
  trim (key +:+ String "=" value) = key +:+ String "=" value.
Proof.
  intros [Hkey _]%trim_fixed [_ Hvalue]%trim_fixed. unfold trim.
  rewrite trimStart_app by done.
  destruct value as [|c value].
  - by apply trimEnd_snoc.
  - change (key +:+ String "=" (String c value))
      with (key +:+ (String "=" EmptyString +:+ String c value)).
    rewrite <-append_assoc. by apply trimEnd_app.
Qed.

Lemma indexOf_app c s t :
  includes s c = false →
  Text.indexOf c (s +:+ String c t) = Some (String.length s).
Proof.
  induction s as [|d s IH].
  - intros _. rewrite append_nil. cbn. by rewrite bool_decide_eq_true_2.
  - cbn [includes]. intros [Hd Hs]%orb_false_elim.
    rewrite append_cons. cbn [Text.indexOf]. rewrite Hd.
    by rewrite IH.
Qed.

Lemma startsWith_assignment key value :
  Wire.startsWith key "#" = false →
  Wire.startsWith (key +:+ String "=" value) "#" = false.
Proof.
  destruct key as [|c key]; [done|]. unfold Wire.startsWith.
  rewrite append_cons. cbn [String.length substring].
  assert (∀ t, substring 0 0 t = EmptyString) as Hnil by by intros [].
  by rewrite !Hnil.
Qed.

(** [parseLine] on each kind of line. *)
Lemma parseLine_plain envVars e :
  plain e →
  parseLine envVars (line e)
  = match e with
    | Assign key value => <[key := value]> envVars
    | _ => envVars
    end.
Proof.
  destruct e as [text| |key value]; cbn [plain line].
  - intros _. unfold parseLine. cbv zeta.
    assert (∃ rest, trim (String "#" text) = String "#" rest) as [rest ->].
    { unfold trim. cbn [trimStart].
      change (isWhiteSpace "#") with false. cbn [trimEnd].
      destruct (trimEnd text); [|by eexists].
      change (isWhiteSpace "#") with false. by eexists. }
    assert (Wire.startsWith (String "#" rest) "#" = true) as ->.
    { unfold Wire.startsWith. cbn. by destruct rest. }
    by rewrite orb_true_r.
  - done.
  - intros (Hkey & Hvalue & Hequals & _ & _ & Hnote & Hproto).
    unfold parseLine. cbv zeta. rewrite trim_assignment by done.
    rewrite startsWith_assignment by done.
    rewrite bool_decide_eq_false_2 by by destruct key.
    cbn [orb]. rewrite indexOf_app by done.
    rewrite substring_app_l.
    change (key +:+ String "=" value)
      with (key +:+ (String "=" EmptyString +:+ value)).
    rewrite <-append_assoc.
    replace (String.length key + 1)
      with (String.length (key +:+ String "=" EmptyString))
      by (rewrite append_length; cbn; lia).
    rewrite from_app, Hkey, Hvalue. unfold assign.
    by rewrite decide_False.
Qed.

Lemma line_includes e : plain e → includes (line e) Text.newline = false.
Proof.
  destruct e as [text| |key value]; cbn [plain line]; [done..|].
  intros (_ & _ & _ & Hkey & Hvalue & _).
  rewrite includes_app, Hkey. cbn [includes orb]. by rewrite Hvalue.
Qed.

Lemma split_render e entries :
  Forall plain (e :: entries) →
  split Text.newline (render (e :: entries)) = line <$> e :: entries.
Proof.
  revert e. induction entries as [|e' entries IH]; intros e.
  - intros [He _]%Forall_cons. apply split_whole. by apply line_includes.
  - intros [He Hrest]%Forall_cons.
    change (render (e :: e' :: entries))
      with (line e +:+ String Text.newline (render (e' :: entries))).
    rewrite split_app by by apply line_includes.
    cbn [fmap list_fmap]. f_equal. by apply IH.
Qed.

Lemma foldl_parseLine envVars entries :
  Forall plain entries →
  foldl parseLine envVars (line <$> entries)
  = list_to_map (reverse (assignments entries)) ∪ envVars.
Proof.
  revert envVars. induction entries as [|e entries IH]; intros envVars.
  - intros _. cbn. by rewrite (left_id_L ∅ (∪)).
  - intros [He Hrest]%Forall_cons. cbn [fmap list_fmap foldl].
    rewrite parseLine_plain, IH by done.
    destruct e as [text| |key value]; [done..|].
    change (assignments (Assign key value :: entries))
      with ((key, value) :: assignments entries).
    rewrite reverse_cons, list_to_map_app.
    cbn [list_to_map foldr uncurry]. rewrite <-(assoc_L (∪)). f_equal.
    by rewrite insert_union_singleton_l, insert_empty.
Qed.

(** An env file of comments, empty lines and assignments reads back as
    its assignments, each name with the value of its last assignment:
    provided no line spans lines, names and values have no white space
    around them, and a name holds no equals sign, does not start a
    comment and is not [__proto__]. *)
Theorem env_file_reads_back (entries : list entry) :
  Forall plain entries →
  parseEnvFile (render entries)
  = list_to_map (reverse (assignments entries)).
Proof.
  intros Hplain. unfold parseEnvFile.
  destruct entries as [|e entries]; [done|].
  rewrite split_render, foldl_parseLine by done.
  by rewrite (right_id_L ∅ (∪)).
Qed.

Lemma env_file_reads_back_witness :
  parseEnvFile (render twice)
  = list_to_map (reverse (assignments twice))
  ∧ parseEnvFile (render twice) !! "PORT" = Some "9000".
Proof.
  assert (parseEnvFile (render twice)
          = list_to_map (reverse (assignments twice))) as Hread.
  { apply (env_file_reads_back twice).
    repeat apply Forall_cons_2; try apply Forall_nil_2;
      cbn [plain]; repeat split; vm_compute; congruence. }
  split; [exact Hread|]. rewrite Hread. reflexivity.
Defined.
End env.
